(** * Hashlife quadtree (noctilu/quadtree): a shallow embedding in Rocq

    Two embeddings of [quadtree.go]:
    - [Tree]: quadtrees as immutable values.  It carries the functional
      content (cell access, growth, centering helpers, the Life step).
    - [Heap]: quadtrees as pointers into a heap, with the process-wide
      intern cache [nodeMap], for the claims about handle identity.

    Go's [Dim] is [int64]: arithmetic on coordinates is written with its
    wrap-around ([wrap64]); [Level] is a [uint], modelled as [nat] with
    the unsigned subtractions [Level - 1], [Level - 2] written out
    ([usub]); a Go panic (explicit [panic] or nil dereference) is [None]. *)

From Stdlib Require Import ZArith Lia Bool.
From stdpp Require Import base gmap list pretty sorting.

Open Scope Z_scope.

(** ** Machine integers *)

(** Two's complement wrap-around of [int64]. *)
Definition wrap64 (z : Z) : Z := ((z + 2 ^ 63) mod 2 ^ 64) - 2 ^ 63.

Definition int64 (z : Z) : Prop := - 2 ^ 63 <= z < 2 ^ 63.

(** [Dim(1) << s] for an unsigned shift count: Go yields 0 once [s >= 64]. *)
Definition shl1 (s : N) : Z :=
  if (s <? 64)%N then wrap64 (2 ^ Z.of_N s) else 0.

(** Unsigned [uint] subtraction [l - k]. *)
Definition usub (l k : nat) : N :=
  ((N.of_nat l + 2 ^ 64 - N.of_nat k) mod 2 ^ 64)%N.

(** [v + k == 0] for a [uint] [v]. *)
Definition uadd_is_zero (v k : nat) : bool :=
  (((N.of_nat v + N.of_nat k) mod 2 ^ 64) =? 0)%N.

Module Tree.

(** ** Data model *)

(** A node: [Leaf] is one of the two leaves ([liveLeaf], [deadLeaf]);
    [Node Level Population SE SW NW NE] is an inner node. *)
Inductive Quadtree : Type :=
| Leaf (live : bool)
| Node (Level : nat) (Population : Z) (SE SW NW NE : Quadtree).

#[global] Instance Quadtree_eq_dec : EqDecision Quadtree.
Proof. solve_decision. Defined.

Definition liveLeaf : Quadtree := Leaf true.
Definition deadLeaf : Quadtree := Leaf false.

Definition Level (qt : Quadtree) : nat :=
  match qt with Leaf _ => 0%nat | Node l _ _ _ _ _ => l end.

Definition Population (qt : Quadtree) : Z :=
  match qt with Leaf b => if b then 1 else 0 | Node _ p _ _ _ _ => p end.

(** [type Childs struct { SE, SW, NW, NE *Quadtree }] *)
Record Childs : Type := mkChilds { SE : Quadtree; SW : Quadtree; NW : Quadtree; NE : Quadtree }.

(** The field accesses [qt.SE], ...: a leaf has nil children. *)
Definition SE_of (qt : Quadtree) : option Quadtree :=
  match qt with Leaf _ => None | Node _ _ se _ _ _ => Some se end.
Definition SW_of (qt : Quadtree) : option Quadtree :=
  match qt with Leaf _ => None | Node _ _ _ sw _ _ => Some sw end.
Definition NW_of (qt : Quadtree) : option Quadtree :=
  match qt with Leaf _ => None | Node _ _ _ _ nw _ => Some nw end.
Definition NE_of (qt : Quadtree) : option Quadtree :=
  match qt with Leaf _ => None | Node _ _ _ _ _ ne => Some ne end.

(** [func (ch *Childs) population() Dim] *)
Definition population (ch : Childs) : Z :=
  wrap64 (Population (SE ch) + Population (SW ch) + Population (NW ch) + Population (NE ch)).

(** [NewTree]: as a value, the cached instance and a fresh one are the
    same node ([qt = &Quadtree{childs.NE.Level + 1, childs, childs.population(), nil}]). *)
Definition NewTree (ch : Childs) : Quadtree :=
  Node (S (Level (NE ch))) (population ch) (SE ch) (SW ch) (NW ch) (NE ch).

(** [EmptyTree] *)
Fixpoint EmptyTree (level : nat) : Quadtree :=
  match level with
  | O => deadLeaf
  | S l =>
      if uadd_is_zero level 1 || uadd_is_zero level 2 then deadLeaf
      else let child := EmptyTree l in NewTree (mkChilds child child child child)
  end.

(** [func (qt *Quadtree) grow() *Quadtree] *)
Definition grow (qt : Quadtree) : option Quadtree :=
  if (63 <=? Level qt)%nat then None
  else if (Level qt <? 1)%nat then None
  else match qt with
       | Leaf _ => None
       | Node l _ se sw nw ne =>
           let emptyChild := EmptyTree (l - 1) in
           Some (NewTree {|
             SE := NewTree (mkChilds emptyChild emptyChild se emptyChild);
             SW := NewTree (mkChilds emptyChild emptyChild emptyChild sw);
             NW := NewTree (mkChilds nw emptyChild emptyChild emptyChild);
             NE := NewTree (mkChilds emptyChild ne emptyChild emptyChild) |})
       end.

(** [func (qt *Quadtree) GrowToFit(x, y Dim) *Quadtree]: the loop
    [for true { ... }] runs on [fuel]; every turn either breaks, panics
    or grows the level by one, and [grow] panics from level 63 on, so 64
    turns always suffice ([GrowToFit_enough_fuel] below). *)
Fixpoint GrowToFit_loop (fuel : nat) (qt : Quadtree) (x y : Z) : option Quadtree :=
  match fuel with
  | O => None
  | S f =>
      let maxCoordinate := shl1 (usub (Level qt) 1) in
      if (x <=? wrap64 (maxCoordinate - 1)) && (y <=? wrap64 (maxCoordinate - 1))
         && (x >=? wrap64 (- maxCoordinate)) && (y >=? wrap64 (- maxCoordinate))
      then Some qt
      else match grow qt with
           | None => None
           | Some qt' => GrowToFit_loop f qt' x y
           end
  end.

Definition GrowToFit (qt : Quadtree) (x y : Z) : option Quadtree :=
  GrowToFit_loop 64 qt x y.

(** The leaf assertion [x < -1 || x > 0 || y < -1 || y > 0] fails. *)
Definition leaf_ok (x y : Z) : bool :=
  negb ((x <? -1) || (x >? 0) || (y <? -1) || (y >? 0)).

(** [func (qt *Quadtree) findLeaf(x, y Dim) *Quadtree] *)
Fixpoint findLeaf (qt : Quadtree) (x y : Z) : option Quadtree :=
  if (Level qt =? 0)%nat then (if leaf_ok x y then Some qt else None)
  else match qt with
       | Leaf _ => None
       | Node l _ se sw nw ne =>
           let distanceToOrigin := shl1 (usub l 2) in
           if x >=? 0 then
             if y >=? 0 then findLeaf se (wrap64 (x - distanceToOrigin)) (wrap64 (y - distanceToOrigin))
             else findLeaf ne (wrap64 (x - distanceToOrigin)) (wrap64 (y + distanceToOrigin))
           else
             if y >=? 0 then findLeaf sw (wrap64 (x + distanceToOrigin)) (wrap64 (y - distanceToOrigin))
             else findLeaf nw (wrap64 (x + distanceToOrigin)) (wrap64 (y + distanceToOrigin))
       end.

(** [func (qt *Quadtree) Cell(x, y Dim) Dim] *)
Definition Cell (qt : Quadtree) (x y : Z) : option Z :=
  match findLeaf qt x y with Some leaf => Some (Population leaf) | None => None end.

(** [func (qt *Quadtree) SetCell(x, y Dim, value Dim) *Quadtree] *)
Fixpoint SetCell (qt : Quadtree) (x y value : Z) : option Quadtree :=
  if (Level qt =? 0)%nat then
    (if leaf_ok x y then Some (if value =? 0 then deadLeaf else liveLeaf) else None)
  else match qt with
       | Leaf _ => None
       | Node l _ se sw nw ne =>
           let distanceToOrigin := shl1 (usub l 2) in
           if x >=? 0 then
             if y >=? 0 then
               match SetCell se (wrap64 (x - distanceToOrigin)) (wrap64 (y - distanceToOrigin)) value with
               | Some se' => Some (NewTree (mkChilds se' sw nw ne)) | None => None end
             else
               match SetCell ne (wrap64 (x - distanceToOrigin)) (wrap64 (y + distanceToOrigin)) value with
               | Some ne' => Some (NewTree (mkChilds se sw nw ne')) | None => None end
           else
             if y >=? 0 then
               match SetCell sw (wrap64 (x + distanceToOrigin)) (wrap64 (y - distanceToOrigin)) value with
               | Some sw' => Some (NewTree (mkChilds se sw' nw ne)) | None => None end
             else
               match SetCell nw (wrap64 (x + distanceToOrigin)) (wrap64 (y + distanceToOrigin)) value with
               | Some nw' => Some (NewTree (mkChilds se sw nw' ne)) | None => None end
       end.

(** ** Game of Life *)

(** [func (qt *Quadtree) centeredSubnode() *Quadtree] *)
Definition centeredSubnode (qt : Quadtree) : option Quadtree :=
  se ← SE_of qt ≫= NW_of; sw ← SW_of qt ≫= NE_of;
  nw ← NW_of qt ≫= SE_of; ne ← NE_of qt ≫= SW_of;
  Some (NewTree (mkChilds se sw nw ne)).

(** [func centeredHorizontal(w, e *Quadtree) *Quadtree] *)
Definition centeredHorizontal (w e : Quadtree) : option Quadtree :=
  se ← SW_of e ≫= NW_of; ne ← NW_of e ≫= SW_of;
  sw ← SE_of w ≫= NE_of; nw ← NE_of w ≫= SE_of;
  Some (NewTree (mkChilds se sw nw ne)).

(** [func centeredVertical(n, s *Quadtree) *Quadtree] *)
Definition centeredVertical (n s : Quadtree) : option Quadtree :=
  se ← NE_of s ≫= NW_of; sw ← NW_of s ≫= NE_of;
  nw ← SW_of n ≫= SE_of; ne ← SE_of n ≫= SW_of;
  Some (NewTree (mkChilds se sw nw ne)).

(** [func (qt *Quadtree) centeredSubSubnode() *Quadtree] *)
Definition centeredSubSubnode (qt : Quadtree) : option Quadtree :=
  se ← (SE_of qt ≫= NW_of) ≫= NW_of; sw ← (SW_of qt ≫= NE_of) ≫= NE_of;
  nw ← (NW_of qt ≫= SE_of) ≫= SE_of; ne ← (NE_of qt ≫= SW_of) ≫= SW_of;
  Some (NewTree (mkChilds se sw nw ne)).

(** The loop of [oneGen] that counts set bits by clearing the lowest one
    ([bitmask &= bitmask - 1] on [uint16]); [fuel] bounds the turns, and
    17 turns suffice for 16 bits. *)
Fixpoint countBits (fuel : nat) (bitmask : Z) (neighborCount : nat) : option nat :=
  match fuel with
  | O => None
  | S f =>
      if bitmask =? 0 then Some neighborCount
      else countBits f (Z.land bitmask ((bitmask - 1) mod 2 ^ 16)) (S neighborCount)
  end.

(** [func oneGen(bitmask uint16) *Quadtree] *)
Definition oneGen (bitmask : Z) : option Quadtree :=
  if bitmask =? 0 then Some deadLeaf
  else
    let self := Z.land (Z.shiftr bitmask 5) 1 in
    let bitmask := Z.land bitmask 0x757 in
    neighborCount ← countBits 17 bitmask 0;
    Some (if (neighborCount =? 3)%nat || ((neighborCount =? 2)%nat && negb (self =? 0))
          then liveLeaf else deadLeaf).

(** The 16 cells in the order of the two loops of [slowSimulation]
    ([y] outer, [x] inner, both from -2 to 1). *)
Definition slowCoords : list (Z * Z) :=
  flat_map (fun y => map (fun x => (x, y)) [-2; -1; 0; 1]) [-2; -1; 0; 1].

(** [allbits = (allbits << 1) + uint16(qt.Cell(x, y))] on [uint16]. *)
Definition packCell (qt : Quadtree) (acc : option Z) (xy : Z * Z) : option Z :=
  allbits ← acc; c ← Cell qt xy.1 xy.2;
  Some ((Z.shiftl allbits 1 mod 2 ^ 16 + c mod 2 ^ 16) mod 2 ^ 16).

(** [func (qt *Quadtree) slowSimulation() *Quadtree] *)
Definition slowSimulation (qt : Quadtree) : option Quadtree :=
  if negb (Level qt =? 2)%nat then None
  else
    allbits ← fold_left (packCell qt) slowCoords (Some 0);
    se ← oneGen allbits; sw ← oneGen (Z.shiftr allbits 1);
    nw ← oneGen (Z.shiftr allbits 5); ne ← oneGen (Z.shiftr allbits 4);
    Some (NewTree (mkChilds se sw nw ne)).

(** [func (qt *Quadtree) NextGeneration() *Quadtree].  The memo [qt.next]
    only returns a result this function computed before for the same
    node, so the value embedding leaves it out.  The recursion goes one
    level down per call; [fuel] is the level of the argument. *)
Fixpoint NextGeneration_aux (fuel : nat) (qt : Quadtree) : option Quadtree :=
  match fuel with
  | O => None
  | S f =>
      if (Level qt =? 2)%nat then slowSimulation qt
      else
        qNW ← NW_of qt; qNE ← NE_of qt; qSW ← SW_of qt; qSE ← SE_of qt;
        n00 ← centeredSubnode qNW;
        n01 ← centeredHorizontal qNW qNE;
        n02 ← centeredSubnode qNE;
        n10 ← centeredVertical qNW qSW;
        n11 ← centeredSubSubnode qt;
        n12 ← centeredVertical qNE qSE;
        n20 ← centeredSubnode qSW;
        n21 ← centeredHorizontal qSW qSE;
        n22 ← centeredSubnode qSE;
        rNW ← NextGeneration_aux f (NewTree {| NW := n00; NE := n01; SW := n10; SE := n11 |});
        rNE ← NextGeneration_aux f (NewTree {| NW := n01; NE := n02; SW := n11; SE := n12 |});
        rSW ← NextGeneration_aux f (NewTree {| NW := n10; NE := n11; SW := n20; SE := n21 |});
        rSE ← NextGeneration_aux f (NewTree {| NW := n11; NE := n12; SW := n21; SE := n22 |});
        Some (NewTree {| NW := rNW; NE := rNE; SW := rSW; SE := rSE |})
  end.

Definition NextGeneration (qt : Quadtree) : option Quadtree :=
  NextGeneration_aux (Level qt) qt.

(** [func (qt *Quadtree) NextGen() *Quadtree]: [qt.grow().NextGeneration()]
    (the lock and the cache discard do not change the value). *)
Definition NextGen (qt : Quadtree) : option Quadtree :=
  g ← grow qt; NextGeneration g.

(** ** Reading the code's results *)

(** Trees built by [NewTree] from children of one level: the level is one
    more than the children's and the population is their sum. *)
Fixpoint wf (qt : Quadtree) : Prop :=
  match qt with
  | Leaf _ => True
  | Node l p se sw nw ne =>
      l = S (Level ne) /\ Level se = Level ne /\ Level sw = Level ne /\ Level nw = Level ne /\
      p = population (mkChilds se sw nw ne) /\ wf se /\ wf sw /\ wf nw /\ wf ne
  end.

(** The coordinate box of a level (the package comment's table): level 0
    is the single cell [(0, 0)]; level [l >= 1] is
    [[-2^(l-1), 2^(l-1) - 1]] on both axes; coordinates are [Dim] values. *)
Definition in_box (l : nat) (x y : Z) : Prop :=
  int64 x /\ int64 y /\
  (if (l =? 0)%nat then x = 0 /\ y = 0
   else - 2 ^ (Z.of_nat l - 1) <= x < 2 ^ (Z.of_nat l - 1) /\
        - 2 ^ (Z.of_nat l - 1) <= y < 2 ^ (Z.of_nat l - 1)).

#[global] Instance in_box_dec (l : nat) (x y : Z) : Decision (in_box l x y).
Proof. unfold in_box, int64. destruct (l =? 0)%nat; apply _. Defined.

(** The coordinates [findLeaf] and [SetCell] accept at a level: [int64]
    values in the box; at a leaf [[-1, 0]]; from level 64 on every
    [int64] value. *)
Definition fits (l : nat) (x : Z) : Prop :=
  int64 x /\
  ((l = 0%nat /\ -1 <= x <= 0) \/
   ((1 <= l <= 64)%nat /\ - 2 ^ (Z.of_nat l - 1) <= x < 2 ^ (Z.of_nat l - 1)) \/
   (65 <= l)%nat).

(** The cell at corner coordinates [(i, j)] of a tree: [i] counts
    columns from the west edge, [j] rows from the north edge ([y] grows
    southwards, as in [findLeaf]); a quadrant is half the node's width. *)
Fixpoint get (qt : Quadtree) (i j : Z) : bool :=
  match qt with
  | Leaf b => b
  | Node _ _ se sw nw ne =>
      let h := 2 ^ Z.of_nat (Level ne) in
      if i <? h then (if j <? h then get nw i j else get sw i (j - h))
      else (if j <? h then get ne (i - h) j else get se (i - h) (j - h))
  end.

(** [qt] is a well-formed tree of level [l] that shows the pattern [F]
    of the plane in the square with north-west corner [(ox, oy)]. *)
Definition rep (qt : Quadtree) (l : nat) (F : Z -> Z -> bool) (ox oy : Z) : Prop :=
  wf qt /\ Level qt = l /\
  forall i j, 0 <= i < 2 ^ Z.of_nat l -> 0 <= j < 2 ^ Z.of_nat l -> get qt i j = F (ox + i) (oy + j).

(** [F] inside the square of level [l] at [(ox, oy)], dead outside. *)
Definition clip (l : nat) (F : Z -> Z -> bool) (ox oy x y : Z) : bool :=
  (ox <=? x) && (x <? ox + 2 ^ Z.of_nat l) && (oy <=? y) && (y <? oy + 2 ^ Z.of_nat l) && F x y.

(** Bits shifted in from the right, first element first. *)
Definition packbits (acc : Z) (bs : list bool) : Z :=
  fold_left (fun a b => 2 * a + Z.b2z b) bs acc.

(** [grow] applied [k] times. *)
Fixpoint grow_n (k : nat) (qt : Quadtree) : option Quadtree :=
  match k with
  | O => Some qt
  | S k' => g ← grow qt; grow_n k' g
  end.

(** The eight neighbours of a cell. *)
Definition neighbour_offsets : list (Z * Z) :=
  [(-1, -1); (0, -1); (1, -1); (-1, 0); (1, 0); (-1, 1); (0, 1); (1, 1)].

(** Conway's rule: birth with exactly 3 live neighbours, survival with
    exactly 2 live neighbours when alive, death otherwise. *)
Definition life (alive : Z -> Z -> bool) (x y : Z) : bool :=
  let n := length (List.filter (fun d => alive (x + d.1) (y + d.2)) neighbour_offsets) in
  (n =? 3)%nat || ((n =? 2)%nat && alive x y).

(** Cell [(x, y)] of [qt] is live; cells outside the box count as dead. *)
Definition alive_in (qt : Quadtree) (x y : Z) : bool :=
  bool_decide (in_box (Level qt) x y) && bool_decide (Cell qt x y = Some 1).

(** The bits of the 3x3 window that [oneGen] counts (mask [0x757]). *)
Definition neighbourBits : list Z := [0; 1; 2; 4; 6; 8; 9; 10].

Definition windowCount (bitmask : Z) : nat :=
  length (List.filter (fun i => Z.testbit bitmask i) neighbourBits).

(** The leaf the Life rule gives for a window: bit 5 is the cell. *)
Definition windowRule (bitmask : Z) : Quadtree :=
  if (windowCount bitmask =? 3)%nat || ((windowCount bitmask =? 2)%nat && Z.testbit bitmask 5)
  then liveLeaf else deadLeaf.

End Tree.

(** ** Finite enumerations, for the finite parts of the rule *)

Module Enum.

(** [check_block k base f] checks [f] on [base, base + 2^k). *)
Fixpoint check_block (k : nat) (base : Z) (f : Z -> bool) : bool :=
  match k with
  | O => f base
  | S k' => check_block k' base f && check_block k' (base + 2 ^ Z.of_nat k') f
  end.

(** [oneGen] against the rule on one 16-bit value. *)
Definition oneGen_agrees (bitmask : Z) : bool :=
  bool_decide (Tree.oneGen bitmask = Some (Tree.windowRule bitmask)).

End Enum.

(** ** Example patterns *)

Module Examples.
Import Tree.

(** Sets the listed cells live, one [SetCell] after the other. *)
Definition set_live (t : Quadtree) (cells : list (Z * Z)) : option Quadtree :=
  fold_left (fun acc c => acc ≫= fun t => SetCell t c.1 c.2 1) cells (Some t).

(** A horizontal blinker in a level-3 tree. *)
Definition blinker : Quadtree :=
  match set_live (EmptyTree 3) [(-1, 0); (0, 0); (1, 0)] with Some t => t | None => deadLeaf end.

End Examples.

(** ** Quadtrees as pointers, with the intern cache *)

Module Heap.

(** A [*Quadtree]: addresses are positive, [nil] is [0]. *)
Abbreviation ptr := N.
Definition nil : ptr := 0%N.

(** [type Childs struct { SE, SW, NW, NE *Quadtree }] *)
Record Childs : Type := mkChilds { SE : ptr; SW : ptr; NW : ptr; NE : ptr }.

#[global] Instance Childs_eq_dec : EqDecision Childs.
Proof. solve_decision. Defined.

#[global] Program Instance Childs_countable : Countable Childs :=
  inj_countable' (fun ch => (SE ch, SW ch, NW ch, NE ch))
                 (fun '(se, sw, nw, ne) => mkChilds se sw nw ne) _.
Next Obligation. intros []. reflexivity. Qed.

(** [type Quadtree struct { Level uint; Childs; Population Dim; next *Quadtree }] *)
Record Quadtree : Type :=
  mkQuadtree { Level : nat; childs : Childs; Population : Z; next : ptr }.

(** [liveLeaf = &Quadtree{Population: 1}], [deadLeaf = &Quadtree{Population: 0}] *)
Definition leafNode (pop : Z) : Quadtree := mkQuadtree 0 (mkChilds nil nil nil nil) pop nil.
Definition liveLeaf : ptr := 1%N.
Definition deadLeaf : ptr := 2%N.

(** [type NodeMap map[Childs]*Quadtree] *)
Abbreviation NodeMap := (gmap Childs ptr).

(** The memory the package works on: the heap of nodes, the global
    [nodeMap] and the next free address.  The counters [cacheHit] and
    [cacheMiss] are only read by [Stats] and are left out; [NextGen]'s
    mutex plays no part in a single thread. *)
Record state : Type := mkState { heap : gmap ptr Quadtree; nodeMap : NodeMap; nextPtr : ptr }.

(** Program start: the two leaves and an empty [nodeMap]. *)
Definition init : state :=
  mkState (<[liveLeaf := leafNode 1]> (<[deadLeaf := leafNode 0]> ∅)) ∅ 3%N.

(** State and panic: [None] is a panic. *)
Definition M (A : Type) : Type := state -> option (A * state).

Definition ret {A : Type} (a : A) : M A := fun s => Some (a, s).
Definition panic {A : Type} : M A := fun _ => None.
Definition bind {A B : Type} (m : M A) (k : A -> M B) : M B :=
  fun s => match m s with Some (a, s') => k a s' | None => None end.

Declare Scope heap_scope.
Notation "'let*' x ':=' m 'in' k" := (bind m (fun x => k))
  (at level 200, x name, m at level 100, k at level 200) : heap_scope.
Notation "m >>= k" := (bind m k) (at level 58, left associativity) : heap_scope.
Open Scope heap_scope.

(** [*p]: a nil (or dangling) pointer panics. *)
Definition load (p : ptr) : M Quadtree :=
  fun s => match heap s !! p with Some n => Some (n, s) | None => None end.

(** [&Quadtree{...}]: a new address. *)
Definition alloc (n : Quadtree) : M ptr :=
  fun s => Some (nextPtr s, mkState (<[nextPtr s := n]> (heap s)) (nodeMap s) (N.succ (nextPtr s))).

(** [nodeMap[childs]] *)
Definition lookupNode (ch : Childs) : M (option ptr) :=
  fun s => Some (nodeMap s !! ch, s).

(** [nodeMap[childs] = qt] *)
Definition register (ch : Childs) (p : ptr) : M unit :=
  fun s => Some (tt, mkState (heap s) (<[ch := p]> (nodeMap s)) (nextPtr s)).

(** [qt.next = q] *)
Definition set_next (p q : ptr) : M unit :=
  fun s => match heap s !! p with
           | Some n => Some (tt, mkState (<[p := mkQuadtree (Level n) (childs n) (Population n) q]> (heap s))
                                         (nodeMap s) (nextPtr s))
           | None => None
           end.

(** [len(nodeMap)] *)
Definition cacheSize : M N := fun s => Some (N.of_nat (size (nodeMap s)), s).

(** [nodeMap = make(NodeMap)] *)
Definition discardCache : M unit := fun s => Some (tt, mkState (heap s) ∅ (nextPtr s)).

(** The field reads [p.SE], [p.SW], [p.NW], [p.NE]. *)
Definition SE_of (p : ptr) : M ptr := let* qt := load p in ret (SE (childs qt)).
Definition SW_of (p : ptr) : M ptr := let* qt := load p in ret (SW (childs qt)).
Definition NW_of (p : ptr) : M ptr := let* qt := load p in ret (NW (childs qt)).
Definition NE_of (p : ptr) : M ptr := let* qt := load p in ret (NE (childs qt)).

(** [func (ch *Childs) population() Dim] *)
Definition population (ch : Childs) : M Z :=
  let* se := load (SE ch) in let* sw := load (SW ch) in
  let* nw := load (NW ch) in let* ne := load (NE ch) in
  ret (wrap64 (Population se + Population sw + Population nw + Population ne)).

(** [func NewTree(childs Childs) *Quadtree] *)
Definition NewTree (ch : Childs) : M ptr :=
  let* hit := lookupNode ch in
  match hit with
  | Some qt => ret qt
  | None =>
      let* ne := load (NE ch) in
      let* pop := population ch in
      let qt := mkQuadtree (S (Level ne)) ch pop nil in
      let* p := alloc qt in
      if (pop =? 0) || (Level qt <=? 16)%nat then (let* _ := register ch p in ret p) else ret p
  end.

(** [func EmptyTree(level uint) *Quadtree] *)
Fixpoint EmptyTree (level : nat) : M ptr :=
  match level with
  | O => ret deadLeaf
  | S l =>
      if uadd_is_zero level 1 || uadd_is_zero level 2 then ret deadLeaf
      else let* child := EmptyTree l in NewTree (mkChilds child child child child)
  end.

(** [func (qt *Quadtree) grow() *Quadtree] *)
Definition grow (p : ptr) : M ptr :=
  let* qt := load p in
  if (63 <=? Level qt)%nat then panic
  else if (Level qt <? 1)%nat then panic
  else
    let* emptyChild := EmptyTree (Level qt - 1) in
    let ch := childs qt in
    let* se := NewTree (mkChilds emptyChild emptyChild (SE ch) emptyChild) in
    let* sw := NewTree (mkChilds emptyChild emptyChild emptyChild (SW ch)) in
    let* nw := NewTree (mkChilds (NW ch) emptyChild emptyChild emptyChild) in
    let* ne := NewTree (mkChilds emptyChild (NE ch) emptyChild emptyChild) in
    NewTree (mkChilds se sw nw ne).

(** [func (qt *Quadtree) GrowToFit(x, y Dim) *Quadtree], the loop on
    [fuel] as in [Tree.GrowToFit_loop]. *)
Fixpoint GrowToFit_loop (fuel : nat) (p : ptr) (x y : Z) : M ptr :=
  match fuel with
  | O => panic
  | S f =>
      let* qt := load p in
      let maxCoordinate := shl1 (usub (Level qt) 1) in
      if (x <=? wrap64 (maxCoordinate - 1)) && (y <=? wrap64 (maxCoordinate - 1))
         && (x >=? wrap64 (- maxCoordinate)) && (y >=? wrap64 (- maxCoordinate))
      then ret p
      else let* p' := grow p in GrowToFit_loop f p' x y
  end.

Definition GrowToFit (p : ptr) (x y : Z) : M ptr := GrowToFit_loop 64 p x y.

(** [func (qt *Quadtree) findLeaf(x, y Dim) *Quadtree]; the recursion
    goes one level down per call and runs on [fuel], one more than the
    level of the root. *)
Fixpoint findLeaf_go (fuel : nat) (p : ptr) (x y : Z) : M ptr :=
  match fuel with
  | O => panic
  | S f =>
      let* qt := load p in
      if (Level qt =? 0)%nat then (if Tree.leaf_ok x y then ret p else panic)
      else
        let distanceToOrigin := shl1 (usub (Level qt) 2) in
        let ch := childs qt in
        if x >=? 0 then
          if y >=? 0 then findLeaf_go f (SE ch) (wrap64 (x - distanceToOrigin)) (wrap64 (y - distanceToOrigin))
          else findLeaf_go f (NE ch) (wrap64 (x - distanceToOrigin)) (wrap64 (y + distanceToOrigin))
        else
          if y >=? 0 then findLeaf_go f (SW ch) (wrap64 (x + distanceToOrigin)) (wrap64 (y - distanceToOrigin))
          else findLeaf_go f (NW ch) (wrap64 (x + distanceToOrigin)) (wrap64 (y + distanceToOrigin))
  end.

Definition findLeaf (p : ptr) (x y : Z) : M ptr :=
  let* qt := load p in findLeaf_go (S (Level qt)) p x y.

(** [func (qt *Quadtree) Cell(x, y Dim) Dim] *)
Definition Cell (p : ptr) (x y : Z) : M Z :=
  let* leaf := findLeaf p x y in let* l := load leaf in ret (Population l).

(** [func (qt *Quadtree) SetCell(x, y Dim, value Dim) *Quadtree], on
    [fuel] as [findLeaf]. *)
Fixpoint SetCell_go (fuel : nat) (p : ptr) (x y value : Z) : M ptr :=
  match fuel with
  | O => panic
  | S f =>
      let* qt := load p in
      if (Level qt =? 0)%nat then
        (if Tree.leaf_ok x y then ret (if value =? 0 then deadLeaf else liveLeaf) else panic)
      else
        let distanceToOrigin := shl1 (usub (Level qt) 2) in
        let ch := childs qt in
        if x >=? 0 then
          if y >=? 0 then
            let* se := SetCell_go f (SE ch) (wrap64 (x - distanceToOrigin)) (wrap64 (y - distanceToOrigin)) value in
            NewTree (mkChilds se (SW ch) (NW ch) (NE ch))
          else
            let* ne := SetCell_go f (NE ch) (wrap64 (x - distanceToOrigin)) (wrap64 (y + distanceToOrigin)) value in
            NewTree (mkChilds (SE ch) (SW ch) (NW ch) ne)
        else
          if y >=? 0 then
            let* sw := SetCell_go f (SW ch) (wrap64 (x + distanceToOrigin)) (wrap64 (y - distanceToOrigin)) value in
            NewTree (mkChilds (SE ch) sw (NW ch) (NE ch))
          else
            let* nw := SetCell_go f (NW ch) (wrap64 (x + distanceToOrigin)) (wrap64 (y + distanceToOrigin)) value in
            NewTree (mkChilds (SE ch) (SW ch) nw (NE ch))
  end.

Definition SetCell (p : ptr) (x y value : Z) : M ptr :=
  let* qt := load p in SetCell_go (S (Level qt)) p x y value.

(** [func (qt *Quadtree) centeredSubnode() *Quadtree] *)
Definition centeredSubnode (p : ptr) : M ptr :=
  let* se := SE_of p >>= NW_of in let* sw := SW_of p >>= NE_of in
  let* nw := NW_of p >>= SE_of in let* ne := NE_of p >>= SW_of in
  NewTree (mkChilds se sw nw ne).

(** [func centeredHorizontal(w, e *Quadtree) *Quadtree] *)
Definition centeredHorizontal (w e : ptr) : M ptr :=
  let* se := SW_of e >>= NW_of in let* ne := NW_of e >>= SW_of in
  let* sw := SE_of w >>= NE_of in let* nw := NE_of w >>= SE_of in
  NewTree (mkChilds se sw nw ne).

(** [func centeredVertical(n, s *Quadtree) *Quadtree] *)
Definition centeredVertical (n s : ptr) : M ptr :=
  let* se := NE_of s >>= NW_of in let* sw := NW_of s >>= NE_of in
  let* nw := SW_of n >>= SE_of in let* ne := SE_of n >>= SW_of in
  NewTree (mkChilds se sw nw ne).

(** [func (qt *Quadtree) centeredSubSubnode() *Quadtree] *)
Definition centeredSubSubnode (p : ptr) : M ptr :=
  let* se := SE_of p >>= NW_of >>= NW_of in let* sw := SW_of p >>= NE_of >>= NE_of in
  let* nw := NW_of p >>= SE_of >>= SE_of in let* ne := NE_of p >>= SW_of >>= SW_of in
  NewTree (mkChilds se sw nw ne).

(** [func oneGen(bitmask uint16) *Quadtree], with the counting loop
    [Tree.countBits]. *)
Definition oneGen (bitmask : Z) : M ptr :=
  if bitmask =? 0 then ret deadLeaf
  else
    let self := Z.land (Z.shiftr bitmask 5) 1 in
    let bitmask := Z.land bitmask 0x757 in
    match Tree.countBits 17 bitmask 0 with
    | Some neighborCount =>
        ret (if (neighborCount =? 3)%nat || ((neighborCount =? 2)%nat && negb (self =? 0))
             then liveLeaf else deadLeaf)
    | None => panic
    end.

(** [allbits = (allbits << 1) + uint16(qt.Cell(x, y))] *)
Definition packCell (p : ptr) (acc : M Z) (xy : Z * Z) : M Z :=
  let* allbits := acc in let* c := Cell p xy.1 xy.2 in
  ret ((Z.shiftl allbits 1 mod 2 ^ 16 + c mod 2 ^ 16) mod 2 ^ 16).

(** [func (qt *Quadtree) slowSimulation() *Quadtree] *)
Definition slowSimulation (p : ptr) : M ptr :=
  let* qt := load p in
  if negb (Level qt =? 2)%nat then panic
  else
    let* allbits := fold_left (packCell p) Tree.slowCoords (ret 0) in
    let* se := oneGen allbits in let* sw := oneGen (Z.shiftr allbits 1) in
    let* nw := oneGen (Z.shiftr allbits 5) in let* ne := oneGen (Z.shiftr allbits 4) in
    NewTree (mkChilds se sw nw ne).

(** [func (qt *Quadtree) NextGeneration() *Quadtree], with the memo
    [qt.next]; [fuel] is the level of the argument. *)
Fixpoint NextGeneration_go (fuel : nat) (p : ptr) : M ptr :=
  match fuel with
  | O => panic
  | S f =>
      let* qt := load p in
      if negb (N.eqb (next qt) nil) then ret (next qt)
      else if (Level qt =? 2)%nat then slowSimulation p
      else
        let ch := childs qt in
        let* n00 := centeredSubnode (NW ch) in
        let* n01 := centeredHorizontal (NW ch) (NE ch) in
        let* n02 := centeredSubnode (NE ch) in
        let* n10 := centeredVertical (NW ch) (SW ch) in
        let* n11 := centeredSubSubnode p in
        let* n12 := centeredVertical (NE ch) (SE ch) in
        let* n20 := centeredSubnode (SW ch) in
        let* n21 := centeredHorizontal (SW ch) (SE ch) in
        let* n22 := centeredSubnode (SE ch) in
        let* t1 := NewTree {| NW := n00; NE := n01; SW := n10; SE := n11 |} in
        let* rNW := NextGeneration_go f t1 in
        let* t2 := NewTree {| NW := n01; NE := n02; SW := n11; SE := n12 |} in
        let* rNE := NextGeneration_go f t2 in
        let* t3 := NewTree {| NW := n10; NE := n11; SW := n20; SE := n21 |} in
        let* rSW := NextGeneration_go f t3 in
        let* t4 := NewTree {| NW := n11; NE := n12; SW := n21; SE := n22 |} in
        let* rSE := NextGeneration_go f t4 in
        let* nextGen := NewTree {| NW := rNW; NE := rNE; SW := rSW; SE := rSE |} in
        let* _ := set_next p nextGen in
        ret nextGen
  end.

Definition NextGeneration (p : ptr) : M ptr :=
  let* qt := load p in NextGeneration_go (Level qt) p.

(** [func (qt *Quadtree) NextGen() *Quadtree]: the cache is emptied once
    it holds more than 13000000 entries. *)
Definition NextGen (p : ptr) : M ptr :=
  let* n := cacheSize in
  let* _ := (if (13000000 <? n)%N then discardCache else ret tt) in
  let* g := grow p in
  NextGeneration g.

(** ** Runs of the public operations *)

Inductive op : Type :=
| OpEmptyTree (level : nat)
| OpSetCell (p : ptr) (x y value : Z)
| OpGrow (p : ptr)
| OpGrowToFit (p : ptr) (x y : Z)
| OpNextGen (p : ptr).

Definition run_op (o : op) : M ptr :=
  match o with
  | OpEmptyTree level => EmptyTree level
  | OpSetCell p x y value => SetCell p x y value
  | OpGrow p => grow p
  | OpGrowToFit p x y => GrowToFit p x y
  | OpNextGen p => NextGen p
  end.

(** [NextGen] does not reach its cache discard. *)
Definition keeps_cache (o : op) (s : state) : Prop :=
  match o with
  | OpNextGen _ => (N.of_nat (size (nodeMap s)) <= 13000000)%N
  | _ => True
  end.

(** The states a program reaches from the start by public operations
    whose [NextGen] calls keep the cache. *)
Inductive reachable : state -> Prop :=
| reach_init : reachable init
| reach_step (s : state) (o : op) (p : ptr) (s' : state) :
    reachable s -> keeps_cache o s -> run_op o s = Some (p, s') -> reachable s'.

#[global] Instance keeps_cache_dec (o : op) (s : state) : Decision (keeps_cache o s).
Proof. destruct o; simpl; apply _. Defined.

(** A run of [ops] from [s], each keeping the cache; the pointers each
    operation returns, in order. *)
Fixpoint run_ops (s : state) (ops : list op) : option (list ptr * state) :=
  match ops with
  | [] => Some ([], s)
  | o :: os =>
      if decide (keeps_cache o s) then
        match run_op o s with
        | Some (p, s1) =>
            match run_ops s1 os with Some (ps, s2) => Some (p :: ps, s2) | None => None end
        | None => None
        end
      else None
  end.

(** The state a run of [ops] from [s] ends in ([s] if it fails). *)
Definition state_after (s : state) (ops : list op) : state :=
  match run_ops s ops with Some (_, s') => s' | None => s end.

(** ** Reading the heap *)

(** Pointer [p] is a node of level [L]. *)
Definition has_level (s : state) (p : ptr) (L : nat) : Prop :=
  exists n, heap s !! p = Some n /\ Level n = L.

(** Pointer [p] is a node of level [L] with children [ch]. *)
Definition node_at (s : state) (p : ptr) (L : nat) (ch : Childs) : Prop :=
  exists n, heap s !! p = Some n /\ Level n = L /\ childs n = ch.

(** [m] does not change the state. *)
Definition readonly {A : Type} (m : M A) : Prop :=
  forall s a s', m s = Some (a, s') -> s' = s.

(** A node as [NewTree] builds it from four children of one level. *)
Definition node_ok (h : gmap ptr Quadtree) (n : Quadtree) : Prop :=
  exists se sw nw ne,
    h !! SE (childs n) = Some se /\ h !! SW (childs n) = Some sw /\
    h !! NW (childs n) = Some nw /\ h !! NE (childs n) = Some ne /\
    Level n = S (Level ne) /\ Level se = Level ne /\ Level sw = Level ne /\ Level nw = Level ne /\
    Population n = wrap64 (Population se + Population sw + Population nw + Population ne).

(** The invariant of the heap and of [nodeMap] that the public
    operations keep as long as the cache is not discarded: the leaves are
    the two leaf nodes; every inner node is well formed and its memo
    [next] is a node one level down; [nodeMap] maps a [Childs] value to
    a node with those children; and every node that [NewTree] registers
    ([Population == 0 || Level <= 16]) is the one registered under its
    children. *)
Record Inv (s : state) : Prop := {
  inv_live : heap s !! liveLeaf = Some (leafNode 1);
  inv_dead : heap s !! deadLeaf = Some (leafNode 0);
  inv_nil : heap s !! nil = None;
  inv_fresh : forall p, (nextPtr s <= p)%N -> heap s !! p = None;
  inv_leaf : forall p n, heap s !! p = Some n -> Level n = 0%nat -> p = liveLeaf \/ p = deadLeaf;
  inv_node : forall p n, heap s !! p = Some n -> Level n <> 0%nat -> node_ok (heap s) n;
  inv_next : forall p n, heap s !! p = Some n -> next n <> nil ->
    exists m, heap s !! next n = Some m /\ S (Level m) = Level n;
  inv_map : forall ch p, nodeMap s !! ch = Some p ->
    exists n, heap s !! p = Some n /\ childs n = ch /\ Level n <> 0%nat;
  inv_interned : forall p n, heap s !! p = Some n -> Level n <> 0%nat ->
    (Population n = 0 \/ (Level n <= 16)%nat) -> nodeMap s !! childs n = Some p
}.

(** [n'] is [n] up to its memo [next]. *)
Definition same_node (n n' : Quadtree) : Prop :=
  Level n' = Level n /\ childs n' = childs n /\ Population n' = Population n.

(** The heap [h'] keeps every node of [h], up to the memos. *)
Definition hext (h h' : gmap ptr Quadtree) : Prop :=
  forall p n, h !! p = Some n -> exists n', h' !! p = Some n' /\ same_node n n'.

(** The value a pointer stands for, read on [fuel] levels. *)
Fixpoint tree_of (h : gmap ptr Quadtree) (fuel : nat) (p : ptr) : option Tree.Quadtree :=
  match fuel with
  | O => None
  | S f =>
      n ← h !! p;
      if (Level n =? 0)%nat then Some (Tree.Leaf (negb (Population n =? 0)))
      else
        se ← tree_of h f (SE (childs n)); sw ← tree_of h f (SW (childs n));
        nw ← tree_of h f (NW (childs n)); ne ← tree_of h f (NE (childs n));
        Some (Tree.Node (Level n) (Population n) se sw nw ne)
  end.

End Heap.

(** ** Example runs *)

Module HeapExamples.
Import Heap.

(** [EmptyTree(1)] is the node [3]. *)
Definition ops_level1 : list op := [OpEmptyTree 1].

(** [EmptyTree(2)] is the node [4]; [SetCell(0, 0, 1)] on it is the node [6]. *)
Definition ops_level2_cell : list op := [OpEmptyTree 2; OpSetCell 4 0 0 1].

(** [EmptyTree(17)] is the node [19]; [SetCell(0, 0, 1)] on it is the
    node [36]; the same call again gives the node [37]. *)
Definition ops_level17 : list op := [OpEmptyTree 17; OpSetCell 19 0 0 1].
Definition ops_level17_twice : list op := [OpEmptyTree 17; OpSetCell 19 0 0 1; OpSetCell 19 0 0 1].

End HeapExamples.


(** ** The rest of the package, on tree values *)

Module TreeOps.
Import Tree.

(** [func (qt *Quadtree) FindLifeCells(x, y Dim, callback func(x, y Dim))]:
    the calls of [callback], in order. *)
Fixpoint FindLifeCells (qt : Quadtree) (x y : Z) : list (Z * Z) :=
  if Population qt =? 0 then []
  else if (Level qt =? 0)%nat then (if Population qt >? 0 then [(x, y)] else [])
  else match qt with
       | Leaf _ => []
       | Node l _ se sw nw ne =>
           let distance := shl1 (usub l 1) in
           FindLifeCells se (wrap64 (x + distance)) (wrap64 (y + distance)) ++
           FindLifeCells sw x (wrap64 (y + distance)) ++
           FindLifeCells nw x y ++
           FindLifeCells ne (wrap64 (x + distance)) y
       end.

(** [func (qt *Quadtree) childs() []*Quadtree]: [None] is [nil]. *)
Definition childs (qt : Quadtree) : list (option Quadtree) :=
  [SE_of qt; SW_of qt; NW_of qt; NE_of qt].

(** [func treeCorrectness(t *testing.T, qt *Quadtree)] of the tests:
    [true] when none of its assertions fails. *)
Fixpoint treeCorrectness (qt : Quadtree) : bool :=
  if (Level qt =? 0)%nat then forallb (fun c => bool_decide (c = None)) (childs qt)
  else match qt with
       | Leaf _ => true
       | Node l _ se sw nw ne =>
           (N.of_nat (Level se) =? usub l 1)%N && treeCorrectness se &&
           (N.of_nat (Level sw) =? usub l 1)%N && treeCorrectness sw &&
           (N.of_nat (Level nw) =? usub l 1)%N && treeCorrectness nw &&
           (N.of_nat (Level ne) =? usub l 1)%N && treeCorrectness ne
       end.

(** A one-character string of a line break. *)
Definition nl : string := String (Ascii.ascii_of_nat 10) EmptyString.

Fixpoint repeat_string (n : nat) (s : string) : string :=
  match n with O => EmptyString | S k => s +:+ repeat_string k s end.

(** [strings.Repeat(s, count)]: [inr] is a panic with its message. *)
Definition Repeat (s : string) (count : Z) : string + string :=
  if count =? 0 then inl EmptyString
  else if count =? 1 then inl s
  else if count <? 0 then inr "strings: negative Repeat count"
  else if 2 ^ 63 <=? Z.of_nat (String.length s) * count then inr "strings: Repeat output length overflow"
  else inl (repeat_string (Z.to_nat count) s).

(** [%v] of a value with a [String] method: [fmt] prints the panic of
    the method instead of passing it on. *)
Definition fmt_v (r : string + string) : string :=
  match r with inl s => s | inr e => "%!v(PANIC=String method: " +:+ e +:+ ")" end.

(** [func (qt *Quadtree) String() string]: [inr] is a panic. *)
Fixpoint String (qt : Quadtree) : string + string :=
  if (Level qt =? 0)%nat then inl ("Leaf " +:+ pretty (Population qt))
  else match qt with
       | Leaf _ => inl ("Leaf " +:+ pretty (Population qt))
       | Node l _ se sw nw ne =>
           match Repeat "  " (wrap64 (10 - Z.of_nat l)) with
           | inr e => inr e
           | inl spaces =>
               inl ("(L: " +:+ pretty l +:+ ")" +:+ nl +:+
                    spaces +:+ "SE: " +:+ fmt_v (String se) +:+ nl +:+
                    spaces +:+ "SW: " +:+ fmt_v (String sw) +:+ nl +:+
                    spaces +:+ "NW: " +:+ fmt_v (String nw) +:+ nl +:+
                    spaces +:+ "NE: " +:+ fmt_v (String ne))
           end
       end.

(** [for x := Dim(0); x < n; x++]. *)
Definition range (n : Z) : list Z := map Z.of_nat (seq 0 (Z.to_nat n)).

(** The two nested loops over [x] (outer) and [y] (inner). *)
Definition grid (n : Z) : list (Z * Z) := flat_map (fun x => map (fun y => (x, y)) (range n)) (range n).

(** [randomNumber.Bit(i)]: a negative index panics. *)
Definition Bit (r i : Z) : option Z := if i <? 0 then None else Some (Z.b2z (Z.testbit r i)).

(** [func (qt *Quadtree) FillTreeWithRandomPattern(start Dim, end Dim) *Quadtree]
    of the test helpers; [r] is the random number it draws. *)
Definition FillTreeWithRandomPattern (qt : Quadtree) (start end_ r : Z) : option Quadtree :=
  let edgeLength := wrap64 (end_ - start) in
  fold_left (fun acc xy =>
      t ← acc;
      let bitPosition := wrap64 (wrap64 (xy.1 * edgeLength) + xy.2) in
      let ux := wrap64 (xy.1 + start) in
      let uy := wrap64 (xy.2 + start) in
      b ← Bit r bitPosition;
      if negb (b =? 0) then SetCell t ux uy 1 else SetCell t ux uy 0)
    (grid edgeLength) (Some qt).

(** [func treeWithRandomPattern(level uint) (qt *Quadtree, randomNumber *big.Int)]
    of the test helpers, for the random number [r] it draws. *)
Definition treeWithRandomPattern (level : nat) (r : Z) : option Quadtree :=
  let qt := fold_left (fun acc (_ : nat) => t ← acc; grow t) (seq 1 (level - 1)) (Some (EmptyTree 1)) in
  let edgeLength := shl1 (N.of_nat level) in
  fold_left (fun acc xy =>
      t ← acc;
      let bitPosition := wrap64 (wrap64 (xy.1 * edgeLength) + xy.2) in
      let ux := wrap64 (xy.1 - Z.quot edgeLength 2) in
      let uy := wrap64 (xy.2 - Z.quot edgeLength 2) in
      b ← Bit r bitPosition;
      if negb (b =? 0) then SetCell t ux uy 1 else Some t)
    (grid edgeLength) qt.

(** [func (qt *Quadtree) assertRandomPattern(t *testing.T, randomNumber *big.Int)]
    of the test helpers: [Some true] when every assertion holds, [None]
    on a panic. *)
Definition assertRandomPattern (qt : Quadtree) (r : Z) : option bool :=
  let edgeLength := shl1 (N.of_nat (Level qt)) in
  fold_left (fun acc xy =>
      ok ← acc;
      let bitPosition := wrap64 (wrap64 (xy.1 * edgeLength) + xy.2) in
      let ux := wrap64 (xy.1 - Z.quot edgeLength 2) in
      let uy := wrap64 (xy.2 - Z.quot edgeLength 2) in
      b ← Bit r bitPosition;
      c ← Cell qt ux uy;
      Some (ok && (b =? c mod 2 ^ 64)))
    (grid edgeLength) (Some true).

End TreeOps.

(** ** [Stats], on the heap *)

Module HeapStats.
Import Heap.

(** [type buckets map[int]uint] *)
Abbreviation buckets := (gmap Z N).

(** One turn of [for _, v := range nodeMap { buckets[int(v.Level)]++ }]. *)
Definition count_level (s : state) (acc : option buckets) (e : Childs * ptr) : option buckets :=
  b ← acc; v ← heap s !! e.2;
  let k := wrap64 (Z.of_nat (Level v)) in
  Some (<[k := ((default 0%N (b !! k)) + 1) mod 2 ^ 64]> b)%N.

(** The loop over [nodeMap]; the counts do not depend on the order of
    the walk. *)
Definition levelBuckets (s : state) : option buckets :=
  fold_left (count_level s) (map_to_list (nodeMap s)) (Some ∅).

(** [func (b *buckets) sortedKeys() []int] *)
Definition sortedKeys (b : buckets) : list Z := merge_sort Z.le (map fst (map_to_list b)).

(** The bucket lines of [Stats]: [for k := range buckets.sortedKeys()]
    ranges over the indices [k] of the slice, and each turn prints
    [fmt.Sprintln(k, buckets[k])]. *)
Definition Stats_buckets (s : state) : option (list (Z * N)) :=
  b ← levelBuckets s;
  Some (map (fun k => (Z.of_nat k, default 0%N (b !! Z.of_nat k))) (seq 0 (length (sortedKeys b)))).

(** The level of the node an entry of [nodeMap] points to. *)
Definition entry_level (s : state) (e : Childs * ptr) : option Z :=
  n ← heap s !! e.2; Some (Z.of_nat (Level n)).

(** The levels of the cached nodes. *)
Definition cached_levels (s : state) : gset Z :=
  list_to_set (omap (entry_level s) (map_to_list (nodeMap s))).

End HeapStats.

(** ** Any sequence of calls on the heap *)

Module HeapCalls.
Import Heap.

(** A call of one of the package's functions on the heap, with any
    arguments: the public operations, [NewTree] and [NextGeneration]
    called directly, and the helpers the tests call. *)
Inductive call : Type :=
| CallNewTree (ch : Childs)
| CallEmptyTree (level : nat)
| CallGrow (p : ptr)
| CallGrowToFit (p : ptr) (x y : Z)
| CallFindLeaf (p : ptr) (x y : Z)
| CallCell (p : ptr) (x y : Z)
| CallSetCell (p : ptr) (x y value : Z)
| CallCenteredSubnode (p : ptr)
| CallCenteredHorizontal (w e : ptr)
| CallCenteredVertical (n s : ptr)
| CallCenteredSubSubnode (p : ptr)
| CallOneGen (bitmask : Z)
| CallSlowSimulation (p : ptr)
| CallNextGeneration (p : ptr)
| CallNextGen (p : ptr).

(** Runs [m] and drops its result. *)
Definition forget {A : Type} (m : M A) : M unit := let* _ := m in ret tt.

Definition run_call (c : call) : M unit :=
  match c with
  | CallNewTree ch => forget (NewTree ch)
  | CallEmptyTree level => forget (EmptyTree level)
  | CallGrow p => forget (grow p)
  | CallGrowToFit p x y => forget (GrowToFit p x y)
  | CallFindLeaf p x y => forget (findLeaf p x y)
  | CallCell p x y => forget (Cell p x y)
  | CallSetCell p x y value => forget (SetCell p x y value)
  | CallCenteredSubnode p => forget (centeredSubnode p)
  | CallCenteredHorizontal w e => forget (centeredHorizontal w e)
  | CallCenteredVertical n s => forget (centeredVertical n s)
  | CallCenteredSubSubnode p => forget (centeredSubSubnode p)
  | CallOneGen bitmask => forget (oneGen bitmask)
  | CallSlowSimulation p => forget (slowSimulation p)
  | CallNextGeneration p => forget (NextGeneration p)
  | CallNextGen p => forget (NextGen p)
  end.

(** The states a program reaches from the start by any sequence of
    calls, whatever [NextGen] does with its cache. *)
Inductive reachable_any : state -> Prop :=
| any_init : reachable_any init
| any_step (s : state) (c : call) (s' : state) :
    reachable_any s -> run_call c s = Some (tt, s') -> reachable_any s'.

(** A run of [cs] from [s]; [None] if a call panics. *)
Fixpoint run_calls (s : state) (cs : list call) : option state :=
  match cs with
  | [] => Some s
  | c :: cs' => match run_call c s with Some (_, s1) => run_calls s1 cs' | None => None end
  end.

(** The state a run of [cs] from [s] ends in ([s] if a call panics). *)
Definition state_after_calls (s : state) (cs : list call) : state :=
  default s (run_calls s cs).

(** [EmptyTree(1)] is the node [3]; [NewTree] called directly on three
    leaves and that level-1 node is the level-2 node [4]. *)
Definition calls_mixed : list call :=
  [CallEmptyTree 1; CallNewTree (mkChilds liveLeaf liveLeaf liveLeaf 3)].

(** [nodeMap] maps a [Childs] value to a node with those children, one
    level above its [NE] child. *)
Definition map_ok (h : gmap ptr Quadtree) (m : NodeMap) : Prop :=
  forall ch p, m !! ch = Some p ->
    exists n ne, h !! p = Some n /\ childs n = ch /\ h !! NE ch = Some ne /\ Level n = S (Level ne).

(** The part of [Inv] that every call keeps, a discarded cache
    included: the addresses from [nextPtr] on are free, and [nodeMap]
    is as [map_ok] says. *)
Record WInv (s : state) : Prop := {
  winv_fresh : forall p, (nextPtr s <= p)%N -> heap s !! p = None;
  winv_map : map_ok (heap s) (nodeMap s)
}.

(** [m] keeps [WInv]. *)
Definition keeps_WInv {A : Type} (m : M A) : Prop :=
  forall s a s', WInv s -> m s = Some (a, s') -> WInv s'.

End HeapCalls.


Module TreeFacts.
Import Tree.

Lemma check_block_spec (k : nat) : forall base f b,
  Enum.check_block k base f = true -> base <= b < base + 2 ^ Z.of_nat k -> f b = true.
Proof.
  induction k as [|k IH]; intros base f b Hc Hb; simpl in Hc.
  - simpl in Hb. assert (b = base) by lia. subst. exact Hc.
  - apply andb_prop in Hc as [H1 H2].
    rewrite Nat2Z.inj_succ, Z.pow_succ_r in Hb by lia.
    destruct (Z.lt_ge_cases b (base + 2 ^ Z.of_nat k)).
    + apply (IH base); [exact H1 | lia].
    + apply (IH (base + 2 ^ Z.of_nat k)); [exact H2 | lia].
Qed.


(** ** Machine arithmetic *)

Lemma wrap64_id (z : Z) : int64 z -> wrap64 z = z.
Proof. unfold wrap64, int64. intros H. rewrite Z.mod_small by lia. lia. Qed.

Lemma wrap64_int64 (z : Z) : int64 (wrap64 z).
Proof. unfold wrap64, int64. pose proof (Z.mod_pos_bound (z + 2 ^ 63) (2 ^ 64)). lia. Qed.

Lemma wrap64_shift_inj (a b d : Z) :
  int64 a -> int64 b -> wrap64 (a + d) = wrap64 (b + d) -> a = b.
Proof.
  unfold wrap64, int64. intros Ha Hb H.
  pose proof (Z.div_mod (a + d + 2 ^ 63) (2 ^ 64)) as E1.
  pose proof (Z.div_mod (b + d + 2 ^ 63) (2 ^ 64)) as E2.
  set (q1 := (a + d + 2 ^ 63) / 2 ^ 64) in *. set (q2 := (b + d + 2 ^ 63) / 2 ^ 64) in *.
  assert (Hq : q1 = q2) by lia. lia.
Qed.

Lemma usub_small (l k : nat) : (k <= l)%nat -> (N.of_nat l < 2 ^ 64)%N -> usub l k = N.of_nat (l - k).
Proof.
  intros Hk Hl. unfold usub.
  replace (N.of_nat l + 2 ^ 64 - N.of_nat k)%N with (N.of_nat (l - k) + 1 * 2 ^ 64)%N by lia.
  rewrite N.Div0.mod_add. apply N.mod_small. lia.
Qed.

(** The distance [Dim(1) << (Level - 2)] for the levels whose box fits
    [int64]. *)
Lemma distance_small (l : nat) : (2 <= l <= 64)%nat -> shl1 (usub l 2) = 2 ^ (Z.of_nat l - 2).
Proof.
  intros Hl. rewrite usub_small by lia. unfold shl1.
  replace (N.of_nat (l - 2) <? 64)%N with true by (symmetry; apply N.ltb_lt; lia).
  rewrite wrap64_id; [f_equal; lia|].
  assert (0 <= 2 ^ Z.of_N (N.of_nat (l - 2)) <= 2 ^ 62).
  { split; [apply Z.pow_nonneg; lia | apply Z.pow_le_mono_r; lia]. }
  unfold int64. lia.
Qed.

Lemma distance_one : shl1 (usub 1 2) = 0.
Proof. reflexivity. Qed.

Lemma pow_half (l : nat) : (1 <= l)%nat -> 2 ^ (Z.of_nat l) = 2 * 2 ^ (Z.of_nat l - 1).
Proof.
  intros Hl. replace (Z.of_nat l) with (Z.of_nat l - 1 + 1) at 1 by lia.
  rewrite Z.pow_add_r by lia. lia.
Qed.

Lemma in_box_fits (l : nat) (x y : Z) : in_box l x y -> fits l x /\ fits l y.
Proof.
  unfold in_box, fits, int64. destruct (Nat.eqb_spec l 0) as [->|Hl]; intros (Hx & Hy & H).
  - lia.
  - destruct (Nat.le_gt_cases l 64%nat); [lia|]. split; split; auto; right; right; lia.
Qed.

Lemma fits_step (l : nat) (x : Z) :
  (1 <= l)%nat -> fits l x ->
  (0 <= x -> fits (l - 1) (wrap64 (x - shl1 (usub l 2)))) /\
  (x < 0 -> fits (l - 1) (wrap64 (x + shl1 (usub l 2)))).
Proof.
  intros Hl [Hx H].
  destruct (Nat.eq_dec l 1%nat) as [->|Hl1].
  - rewrite distance_one, Z.sub_0_r, Z.add_0_r, wrap64_id by exact Hx.
    unfold fits. simpl in H. split; intros; split; auto; left; lia.
  - destruct (Nat.le_gt_cases l 64%nat) as [Hl64|Hl64].
    + rewrite distance_small by lia.
      assert (Hp : 2 ^ (Z.of_nat l - 1) = 2 * 2 ^ (Z.of_nat l - 2)).
      { replace (Z.of_nat l - 1) with (Z.of_nat l - 2 + 1) by lia.
        rewrite Z.pow_add_r by lia. lia. }
      assert (Hb : 1 <= 2 ^ (Z.of_nat l - 2) <= 2 ^ 62).
      { split; [apply Z.pow_le_mono_r with (a := 2) (b := 0); lia | apply Z.pow_le_mono_r; lia]. }
      replace (Z.of_nat (l - 1) - 1) with (Z.of_nat l - 2) by lia.
      destruct H as [H|[H|H]]; [lia| |lia].
      unfold fits; split; intros;
        (rewrite wrap64_id; [|unfold int64 in *; lia]);
        (split; [unfold int64 in *; lia|]); right; left;
        (replace (Z.of_nat (l - 1) - 1) with (Z.of_nat l - 2) by lia); lia.
    + unfold fits. split; intros; (split; [apply wrap64_int64|]);
        (destruct (Nat.eq_dec l 65%nat) as [->|?]; [right; left; split; [lia|] | right; right; lia]);
        pose proof (wrap64_int64 (x - shl1 (usub 65 2)));
        pose proof (wrap64_int64 (x + shl1 (usub 65 2))); unfold int64 in *; simpl; lia.
Qed.


(** ** Cell access *)

Lemma findLeaf_Leaf (b : bool) (x y : Z) :
  findLeaf (Leaf b) x y = if leaf_ok x y then Some (Leaf b) else None.
Proof. reflexivity. Qed.

Lemma findLeaf_Node (l : nat) (p : Z) (se sw nw ne : Quadtree) (x y : Z) :
  findLeaf (Node (S l) p se sw nw ne) x y =
  (let d := shl1 (usub (S l) 2) in
   if x >=? 0 then
     if y >=? 0 then findLeaf se (wrap64 (x - d)) (wrap64 (y - d))
     else findLeaf ne (wrap64 (x - d)) (wrap64 (y + d))
   else
     if y >=? 0 then findLeaf sw (wrap64 (x + d)) (wrap64 (y - d))
     else findLeaf nw (wrap64 (x + d)) (wrap64 (y + d))).
Proof. reflexivity. Qed.

Lemma SetCell_Node (l : nat) (p : Z) (se sw nw ne : Quadtree) (x y v : Z) :
  SetCell (Node (S l) p se sw nw ne) x y v =
  (let d := shl1 (usub (S l) 2) in
   if x >=? 0 then
     if y >=? 0 then
       match SetCell se (wrap64 (x - d)) (wrap64 (y - d)) v with
       | Some se' => Some (NewTree (mkChilds se' sw nw ne)) | None => None end
     else
       match SetCell ne (wrap64 (x - d)) (wrap64 (y + d)) v with
       | Some ne' => Some (NewTree (mkChilds se sw nw ne')) | None => None end
   else
     if y >=? 0 then
       match SetCell sw (wrap64 (x + d)) (wrap64 (y - d)) v with
       | Some sw' => Some (NewTree (mkChilds se sw' nw ne)) | None => None end
     else
       match SetCell nw (wrap64 (x + d)) (wrap64 (y + d)) v with
       | Some nw' => Some (NewTree (mkChilds se sw nw' ne)) | None => None end).
Proof. reflexivity. Qed.

Lemma leaf_ok_fits (x y : Z) : fits 0 x -> fits 0 y -> leaf_ok x y = true.
Proof.
  unfold fits, leaf_ok. intros [_ Hx] [_ Hy]. rewrite !Z.gtb_ltb.
  destruct (Z.ltb_spec x (-1)), (Z.ltb_spec 0 x), (Z.ltb_spec y (-1)), (Z.ltb_spec 0 y);
    simpl; auto; lia.
Qed.

Lemma wf_NewTree (se sw nw ne : Quadtree) :
  Level se = Level ne -> Level sw = Level ne -> Level nw = Level ne ->
  wf se -> wf sw -> wf nw -> wf ne -> wf (NewTree (mkChilds se sw nw ne)).
Proof. intros. simpl. repeat split; auto. Qed.

Lemma SetCell_Level (t : Quadtree) : forall x y v t',
  wf t -> SetCell t x y v = Some t' -> Level t' = Level t /\ wf t'.
Proof.
  induction t as [b|l p se IHse sw IHsw nw IHnw ne IHne]; intros x y v t' Hwf Hset.
  - simpl in Hset. destruct (leaf_ok x y); [|discriminate].
    injection Hset as <-. destruct (v =? 0); split; simpl; auto.
  - destruct Hwf as (-> & Hse & Hsw & Hnw & -> & Wse & Wsw & Wnw & Wne).
    rewrite SetCell_Node in Hset. cbv zeta in Hset.
    destruct (x >=? 0), (y >=? 0); revert Hset;
      match goal with |- match ?m with _ => _ end = _ -> _ => destruct m as [c'|] eqn:E end;
      intros Hset; try discriminate; injection Hset as <-;
      [ destruct (IHse _ _ _ _ Wse E) | destruct (IHne _ _ _ _ Wne E)
      | destruct (IHsw _ _ _ _ Wsw E) | destruct (IHnw _ _ _ _ Wnw E) ];
      split; simpl; try (repeat split; auto; congruence); congruence.
Qed.


(** Writing a cell: [SetCell] succeeds on fitting coordinates, and the
    leaf it reaches is the one [findLeaf] reaches in the result. *)
Lemma SetCell_same (t : Quadtree) : forall x y v,
  wf t -> fits (Level t) x -> fits (Level t) y ->
  exists t', SetCell t x y v = Some t' /\ Cell t' x y = Some (if v =? 0 then 0 else 1).
Proof.
  induction t as [b|l p se IHse sw IHsw nw IHnw ne IHne]; intros x y v Hwf Hx Hy.
  - simpl in Hx, Hy. pose proof (leaf_ok_fits x y Hx Hy) as Hok.
    eexists; split; [simpl; rewrite Hok; reflexivity|].
    unfold Cell, deadLeaf, liveLeaf. destruct (v =? 0); rewrite findLeaf_Leaf, Hok; reflexivity.
  - pose proof Hwf as Hwf'.
    destruct Hwf as (-> & Hse & Hsw & Hnw & -> & Wse & Wsw & Wnw & Wne).
    simpl Level in Hx, Hy.
    destruct (fits_step (S (Level ne)) x ltac:(lia) Hx) as [Hx1 Hx2].
    destruct (fits_step (S (Level ne)) y ltac:(lia) Hy) as [Hy1 Hy2].
    replace (S (Level ne) - 1)%nat with (Level ne) in * by lia.
    rewrite SetCell_Node. unfold Cell. cbv zeta.
    set (d := shl1 (usub (S (Level ne)) 2)) in *.
    rewrite !Z.geb_leb.
    destruct (Z.leb_spec 0 x) as [X|X], (Z.leb_spec 0 y) as [Y|Y].
    + destruct (IHse (wrap64 (x - d)) (wrap64 (y - d)) v Wse) as (c & E & Hc);
        [rewrite Hse; auto .. |].
      rewrite E. eexists; split; [reflexivity|].
      destruct (SetCell_Level _ _ _ _ _ Wse E) as [Lc _].
      unfold NewTree; simpl NE; rewrite findLeaf_Node. cbv zeta. rewrite !Z.geb_leb.
      destruct (Z.leb_spec 0 x), (Z.leb_spec 0 y); try lia. exact Hc.
    + destruct (IHne (wrap64 (x - d)) (wrap64 (y + d)) v Wne) as (c & E & Hc); [auto .. |].
      rewrite E. eexists; split; [reflexivity|].
      destruct (SetCell_Level _ _ _ _ _ Wne E) as [Lc _].
      unfold NewTree; simpl NE; rewrite Lc, findLeaf_Node. cbv zeta. rewrite !Z.geb_leb.
      destruct (Z.leb_spec 0 x), (Z.leb_spec 0 y); try lia. exact Hc.
    + destruct (IHsw (wrap64 (x + d)) (wrap64 (y - d)) v Wsw) as (c & E & Hc);
        [rewrite Hsw; auto .. |].
      rewrite E. eexists; split; [reflexivity|].
      unfold NewTree; simpl NE; rewrite findLeaf_Node. cbv zeta. rewrite !Z.geb_leb.
      destruct (Z.leb_spec 0 x), (Z.leb_spec 0 y); try lia. exact Hc.
    + destruct (IHnw (wrap64 (x + d)) (wrap64 (y + d)) v Wnw) as (c & E & Hc);
        [rewrite Hnw; auto .. |].
      rewrite E. eexists; split; [reflexivity|].
      unfold NewTree; simpl NE; rewrite findLeaf_Node. cbv zeta. rewrite !Z.geb_leb.
      destruct (Z.leb_spec 0 x), (Z.leb_spec 0 y); try lia. exact Hc.
Qed.


Lemma wrap64_sub_inj (a b d : Z) :
  int64 a -> int64 b -> wrap64 (a - d) = wrap64 (b - d) -> a = b.
Proof. unfold Z.sub. apply wrap64_shift_inj. Qed.

Lemma fits_int64 (l : nat) (x : Z) : fits l x -> int64 x.
Proof. intros [H _]. exact H. Qed.

(** Writing a cell leaves every other fitting cell as it was, from level
    1 on (a leaf accepts the four coordinates [[-1, 0]]). *)
Lemma SetCell_other (t : Quadtree) : forall x y x' y' v t',
  wf t -> (1 <= Level t)%nat ->
  fits (Level t) x -> fits (Level t) y -> fits (Level t) x' -> fits (Level t) y' ->
  (x', y') <> (x, y) -> SetCell t x y v = Some t' -> Cell t' x' y' = Cell t x' y'.
Proof.
  induction t as [b|l p se IHse sw IHsw nw IHnw ne IHne];
    intros x y x' y' v t' Hwf Hl Hx Hy Hx' Hy' Hne Hset; [simpl in Hl; lia|].
  destruct Hwf as (-> & Hse & Hsw & Hnw & -> & Wse & Wsw & Wnw & Wne).
  simpl Level in *.
  destruct (fits_step (S (Level ne)) x ltac:(lia) Hx) as [Hx1 Hx2].
  destruct (fits_step (S (Level ne)) y ltac:(lia) Hy) as [Hy1 Hy2].
  destruct (fits_step (S (Level ne)) x' ltac:(lia) Hx') as [Hx1' Hx2'].
  destruct (fits_step (S (Level ne)) y' ltac:(lia) Hy') as [Hy1' Hy2'].
  replace (S (Level ne) - 1)%nat with (Level ne) in * by lia.
  rewrite SetCell_Node in Hset. unfold Cell in *. cbv zeta in Hset.
  set (d := shl1 (usub (S (Level ne)) 2)) in *.
  rewrite !Z.geb_leb in Hset.
  assert (Hsmall : Level ne = 0%nat -> x' = x /\ y' = y ->  False) by (intros _ [-> ->]; congruence).
  destruct (Z.leb_spec 0 x) as [X|X], (Z.leb_spec 0 y) as [Y|Y]; revert Hset;
    match goal with |- match ?m with _ => _ end = _ -> _ => destruct m as [c'|] eqn:E end;
    intros Hset; try discriminate; injection Hset as <-;
    [ destruct (SetCell_Level _ _ _ _ _ Wse E) as [Lc Wc]
    | destruct (SetCell_Level _ _ _ _ _ Wne E) as [Lc Wc]
    | destruct (SetCell_Level _ _ _ _ _ Wsw E) as [Lc Wc]
    | destruct (SetCell_Level _ _ _ _ _ Wnw E) as [Lc Wc] ];
    unfold NewTree; simpl NE; try rewrite Lc; rewrite !findLeaf_Node; cbv zeta; fold d;
    rewrite !Z.geb_leb;
    destruct (Z.leb_spec 0 x') as [X'|X'], (Z.leb_spec 0 y') as [Y'|Y']; try reflexivity;
    (destruct (Nat.eq_dec (Level ne) 0%nat) as [L0|L0];
     [ exfalso; apply Hsmall; [exact L0|]; rewrite L0 in Hx, Hy, Hx', Hy';
       unfold fits in Hx, Hy, Hx', Hy'; simpl in Hx, Hy, Hx', Hy'; lia
     | ]).
  - apply (IHse (wrap64 (x - d)) (wrap64 (y - d)) _ _ v); auto; try congruence;
      try (rewrite Hse; auto); try lia.
    intros Heq; injection Heq as E1 E2. apply Hne.
    apply wrap64_sub_inj in E1, E2; try (apply fits_int64 with (l := S (Level ne)); assumption).
    congruence.
  - apply (IHne (wrap64 (x - d)) (wrap64 (y + d)) _ _ v); auto; try lia.
    intros Heq; injection Heq as E1 E2. apply Hne.
    apply wrap64_sub_inj in E1; apply wrap64_shift_inj in E2;
      try (apply fits_int64 with (l := S (Level ne)); assumption).
    congruence.
  - apply (IHsw (wrap64 (x + d)) (wrap64 (y - d)) _ _ v); auto;
      try (rewrite Hsw; auto); try lia.
    intros Heq; injection Heq as E1 E2. apply Hne.
    apply wrap64_shift_inj in E1; apply wrap64_sub_inj in E2;
      try (apply fits_int64 with (l := S (Level ne)); assumption).
    congruence.
  - apply (IHnw (wrap64 (x + d)) (wrap64 (y + d)) _ _ v); auto;
      try (rewrite Hnw; auto); try lia.
    intros Heq; injection Heq as E1 E2. apply Hne.
    apply wrap64_shift_inj in E1, E2;
      try (apply fits_int64 with (l := S (Level ne)); assumption).
    congruence.
Qed.

(** ** The leaf rule [oneGen] *)

Lemma oneGen_agrees_all : Enum.check_block 16 0 Enum.oneGen_agrees = true.
Proof. vm_compute. reflexivity. Qed.

Lemma oneGen_windowRule (bitmask : Z) :
  0 <= bitmask < 2 ^ 16 -> oneGen bitmask = Some (windowRule bitmask).
Proof.
  intros Hb.
  assert (H : Enum.oneGen_agrees bitmask = true).
  { apply (check_block_spec 16 0 _ bitmask oneGen_agrees_all). simpl. lia. }
  exact (bool_decide_eq_true_1 _ H).
Qed.

(** ** Corner coordinates *)

Lemma pow_S (l : nat) : 2 ^ Z.of_nat (S l) = 2 * 2 ^ Z.of_nat l.
Proof. rewrite Nat2Z.inj_succ, Z.pow_succ_r by lia. lia. Qed.

Lemma pow_pos_nat (l : nat) : 0 < 2 ^ Z.of_nat l.
Proof. apply Z.pow_pos_nonneg; lia. Qed.

Lemma wf_level0 (t : Quadtree) : wf t -> Level t = 0%nat -> exists b, t = Leaf b.
Proof. destruct t as [b|l p se sw nw ne]; simpl; [eauto | intros (-> & _) ?; discriminate]. Qed.

Lemma get_Node (L : nat) (p : Z) (se sw nw ne : Quadtree) (i j : Z) :
  get (Node L p se sw nw ne) i j =
  (if i <? 2 ^ Z.of_nat (Level ne) then (if j <? 2 ^ Z.of_nat (Level ne) then get nw i j
     else get sw i (j - 2 ^ Z.of_nat (Level ne)))
   else (if j <? 2 ^ Z.of_nat (Level ne) then get ne (i - 2 ^ Z.of_nat (Level ne)) j
     else get se (i - 2 ^ Z.of_nat (Level ne)) (j - 2 ^ Z.of_nat (Level ne)))).
Proof. reflexivity. Qed.

Lemma rep_ext (t : Quadtree) (l : nat) (F G : Z -> Z -> bool) (ox oy ox' oy' : Z) :
  rep t l F ox oy ->
  (forall i j, 0 <= i < 2 ^ Z.of_nat l -> 0 <= j < 2 ^ Z.of_nat l ->
     F (ox + i) (oy + j) = G (ox' + i) (oy' + j)) ->
  rep t l G ox' oy'.
Proof.
  intros (W & L & H) E. split; [exact W|]. split; [exact L|].
  intros i j Hi Hj. rewrite H by assumption. apply E; assumption.
Qed.

Lemma rep_node (t : Quadtree) (l : nat) (F : Z -> Z -> bool) (ox oy : Z) :
  rep t (S l) F ox oy ->
  exists p se sw nw ne, t = Node (S l) p se sw nw ne /\
    rep se l F (ox + 2 ^ Z.of_nat l) (oy + 2 ^ Z.of_nat l) /\
    rep sw l F ox (oy + 2 ^ Z.of_nat l) /\
    rep nw l F ox oy /\
    rep ne l F (ox + 2 ^ Z.of_nat l) oy.
Proof.
  intros (W & L & G). destruct t as [b|L' p se sw nw ne]; [discriminate|].
  destruct W as (-> & Hse & Hsw & Hnw & -> & Wse & Wsw & Wnw & Wne).
  simpl in L. injection L as Lne.
  pose proof (pow_pos_nat l) as Hpos.
  exists (population (mkChilds se sw nw ne)), se, sw, nw, ne.
  split; [rewrite Lne; reflexivity|].
  repeat split; try assumption; try congruence; intros i j Hi Hj;
    match goal with
    | |- get ?c _ _ = _ =>
        let a := match c with se => constr:(i + 2 ^ Z.of_nat l) | ne => constr:(i + 2 ^ Z.of_nat l)
                             | _ => constr:(i) end in
        let b := match c with se => constr:(j + 2 ^ Z.of_nat l) | sw => constr:(j + 2 ^ Z.of_nat l)
                             | _ => constr:(j) end in
        pose proof (G a b) as E; rewrite pow_S in E;
        specialize (E ltac:(lia) ltac:(lia)); rewrite get_Node, Lne in E;
        destruct (Z.ltb_spec a (2 ^ Z.of_nat l)), (Z.ltb_spec b (2 ^ Z.of_nat l)); try lia;
        rewrite ?Z.add_simpl_r in E; rewrite E; f_equal; lia
    end.
Qed.

Lemma rep_NewTree (se sw nw ne : Quadtree) (l : nat) (F : Z -> Z -> bool) (ox oy : Z) :
  rep se l F (ox + 2 ^ Z.of_nat l) (oy + 2 ^ Z.of_nat l) ->
  rep sw l F ox (oy + 2 ^ Z.of_nat l) ->
  rep nw l F ox oy ->
  rep ne l F (ox + 2 ^ Z.of_nat l) oy ->
  rep (NewTree (mkChilds se sw nw ne)) (S l) F ox oy.
Proof.
  intros (Wse & Lse & Gse) (Wsw & Lsw & Gsw) (Wnw & Lnw & Gnw) (Wne & Lne & Gne).
  split; [apply wf_NewTree; auto; congruence|]. split; [simpl; congruence|].
  intros i j Hi Hj. rewrite pow_S in Hi, Hj. unfold NewTree; simpl NE.
  rewrite get_Node, Lne.
  destruct (Z.ltb_spec i (2 ^ Z.of_nat l)), (Z.ltb_spec j (2 ^ Z.of_nat l));
    [rewrite Gnw | rewrite Gsw | rewrite Gne | rewrite Gse]; try lia; f_equal; lia.
Qed.

Lemma rep_leaf (b : bool) (F : Z -> Z -> bool) (ox oy : Z) :
  F ox oy = b -> rep (Leaf b) 0 F ox oy.
Proof.
  intros E. split; [exact I|]. split; [reflexivity|].
  simpl. intros i j Hi Hj. replace i with 0 by lia. replace j with 0 by lia.
  rewrite !Z.add_0_r. auto.
Qed.

Lemma rep_level0 (t : Quadtree) (F : Z -> Z -> bool) (ox oy : Z) :
  rep t 0 F ox oy -> t = Leaf (F ox oy).
Proof.
  intros (W & L & G). destruct (wf_level0 t W L) as [b ->].
  specialize (G 0 0 ltac:(simpl; lia) ltac:(simpl; lia)). rewrite !Z.add_0_r in G.
  simpl in G. congruence.
Qed.

(** Cell access in corner coordinates: the cell [(x, y)] of a tree of
    level [S l] is at [(x + 2^l, y + 2^l)] from its north-west corner. *)
Lemma findLeaf_get (t : Quadtree) : forall l x y,
  wf t -> Level t = S l -> (S l <= 64)%nat -> fits (S l) x -> fits (S l) y ->
  findLeaf t x y = Some (Leaf (get t (x + 2 ^ Z.of_nat l) (y + 2 ^ Z.of_nat l))).
Proof.
  induction t as [b|L p se IHse sw IHsw nw IHnw ne IHne]; intros l x y Hwf HL Hl Hx Hy;
    [discriminate|].
  pose proof Hwf as (-> & Hse & Hsw & Hnw & -> & Wse & Wsw & Wnw & Wne).
  simpl in HL. injection HL as Lne.
  destruct (fits_step (S l) x ltac:(lia) Hx) as [Hx1 Hx2].
  destruct (fits_step (S l) y ltac:(lia) Hy) as [Hy1 Hy2].
  replace (S l - 1)%nat with l in * by lia.
  rewrite findLeaf_Node. cbv zeta. rewrite Lne, get_Node, Lne. rewrite !Z.geb_leb.
  destruct l as [|l].
  - change (2 ^ Z.of_nat 0) with 1. rewrite distance_one in *. rewrite !Z.sub_0_r, !Z.add_0_r in *.
    rewrite !wrap64_id in * by (eapply fits_int64; eassumption).
    destruct (wf_level0 se Wse ltac:(congruence)) as [bse ->].
    destruct (wf_level0 sw Wsw ltac:(congruence)) as [bsw ->].
    destruct (wf_level0 nw Wnw ltac:(congruence)) as [bnw ->].
    destruct (wf_level0 ne Wne Lne) as [bne ->].
    unfold fits in Hx, Hy. simpl in Hx, Hy.
    destruct (Z.leb_spec 0 x), (Z.leb_spec 0 y), (Z.ltb_spec (x + 1) 1), (Z.ltb_spec (y + 1) 1);
      try lia; rewrite findLeaf_Leaf, leaf_ok_fits; auto; unfold fits; split; auto; lia.
  - rewrite distance_small in * by lia.
    replace (Z.of_nat (S (S l)) - 2) with (Z.of_nat l) in * by lia.
    pose proof (pow_S l) as P. pose proof (pow_pos_nat l).
    assert (Bx : - 2 ^ Z.of_nat (S l) <= x < 2 ^ Z.of_nat (S l)).
    { destruct Hx as [_ [Hx|[Hx|Hx]]]; [lia| |lia].
      replace (Z.of_nat (S (S l)) - 1) with (Z.of_nat (S l)) in Hx by lia. lia. }
    assert (By : - 2 ^ Z.of_nat (S l) <= y < 2 ^ Z.of_nat (S l)).
    { destruct Hy as [_ [Hy|[Hy|Hy]]]; [lia| |lia].
      replace (Z.of_nat (S (S l)) - 1) with (Z.of_nat (S l)) in Hy by lia. lia. }
    assert (Hb : 2 ^ Z.of_nat (S l) <= 2 ^ 63) by (apply Z.pow_le_mono_r; lia).
    destruct (Z.leb_spec 0 x), (Z.leb_spec 0 y),
      (Z.ltb_spec (x + 2 ^ Z.of_nat (S l)) (2 ^ Z.of_nat (S l))),
      (Z.ltb_spec (y + 2 ^ Z.of_nat (S l)) (2 ^ Z.of_nat (S l))); try lia;
      [ rewrite IHse with (l := l) | rewrite IHne with (l := l)
      | rewrite IHsw with (l := l) | rewrite IHnw with (l := l) ];
      try congruence; auto; try lia;
      do 3 f_equal; rewrite ?wrap64_id by (unfold int64; lia); lia.
Qed.

Lemma Cell_get (t : Quadtree) (l : nat) (x y : Z) :
  wf t -> Level t = S l -> (S l <= 64)%nat -> in_box (S l) x y ->
  Cell t x y = Some (if get t (x + 2 ^ Z.of_nat l) (y + 2 ^ Z.of_nat l) then 1 else 0).
Proof.
  intros W L Hl Hin. destruct (in_box_fits _ _ _ Hin) as [Hx Hy].
  unfold Cell. rewrite (findLeaf_get t l x y W L Hl Hx Hy). reflexivity.
Qed.

Ltac rep_decomp :=
  repeat match goal with
  | H : rep ?t (S _) _ _ _ |- _ =>
      destruct (rep_node _ _ _ _ _ H) as (? & ? & ? & ? & ? & -> & ? & ? & ? & ?); clear H
  end.

Ltac rep_close :=
  match goal with
  | H : rep ?c _ _ _ _ |- rep ?c _ _ _ _ =>
      apply (rep_ext _ _ _ _ _ _ _ _ H); intros; rewrite ?pow_S; f_equal; lia
  end.

Lemma centeredSubnode_rep (t : Quadtree) (l : nat) (F : Z -> Z -> bool) (ox oy : Z) :
  rep t (S (S l)) F ox oy ->
  exists r, centeredSubnode t = Some r /\ rep r (S l) F (ox + 2 ^ Z.of_nat l) (oy + 2 ^ Z.of_nat l).
Proof.
  intros H. rep_decomp. eexists; split; [reflexivity|].
  apply rep_NewTree; rep_close.
Qed.

Lemma centeredHorizontal_rep (w e : Quadtree) (l : nat) (F : Z -> Z -> bool) (ox oy : Z) :
  rep w (S (S l)) F ox oy -> rep e (S (S l)) F (ox + 2 ^ Z.of_nat (S (S l))) oy ->
  exists r, centeredHorizontal w e = Some r /\
    rep r (S l) F (ox + 3 * 2 ^ Z.of_nat l) (oy + 2 ^ Z.of_nat l).
Proof.
  intros Hw He. rep_decomp. eexists; split; [reflexivity|].
  apply rep_NewTree; rep_close.
Qed.

Lemma centeredVertical_rep (n s : Quadtree) (l : nat) (F : Z -> Z -> bool) (ox oy : Z) :
  rep n (S (S l)) F ox oy -> rep s (S (S l)) F ox (oy + 2 ^ Z.of_nat (S (S l))) ->
  exists r, centeredVertical n s = Some r /\
    rep r (S l) F (ox + 2 ^ Z.of_nat l) (oy + 3 * 2 ^ Z.of_nat l).
Proof.
  intros Hn Hs. rep_decomp. eexists; split; [reflexivity|].
  apply rep_NewTree; rep_close.
Qed.

Lemma centeredSubSubnode_rep (t : Quadtree) (l : nat) (F : Z -> Z -> bool) (ox oy : Z) :
  rep t (S (S (S l))) F ox oy ->
  exists r, centeredSubSubnode t = Some r /\
    rep r (S l) F (ox + 3 * 2 ^ Z.of_nat l) (oy + 3 * 2 ^ Z.of_nat l).
Proof.
  intros H. rep_decomp. eexists; split; [reflexivity|].
  apply rep_NewTree; rep_close.
Qed.

(** A tree shows its own corner-coordinate pattern. *)
Lemma rep_self (t : Quadtree) : wf t -> rep t (Level t) (get t) 0 0.
Proof. intros W. split; [exact W|]. split; [reflexivity|]. intros. rewrite !Z.add_0_l. reflexivity. Qed.

(** ** Empty trees *)

Lemma uadd_nonzero (v k : nat) : (0 < v + k)%nat -> (N.of_nat v + N.of_nat k < 2 ^ 64)%N ->
  uadd_is_zero v k = false.
Proof. intros H1 H2. unfold uadd_is_zero. rewrite N.mod_small by lia. apply N.eqb_neq. lia. Qed.

Lemma EmptyTree_props (k : nat) : (k <= 63)%nat ->
  wf (EmptyTree k) /\ Level (EmptyTree k) = k /\ forall i j, get (EmptyTree k) i j = false.
Proof.
  induction k as [|k IH]; intros Hk; [repeat split|].
  destruct (IH ltac:(lia)) as (W & L & G).
  simpl EmptyTree. rewrite !uadd_nonzero by lia. simpl orb. cbv zeta.
  split; [apply wf_NewTree; auto|]. split; [simpl; congruence|].
  intros i j. unfold NewTree; simpl NE. rewrite get_Node.
  destruct (_ <? _), (_ <? _); apply G.
Qed.

Lemma EmptyTree_rep (k : nat) (F : Z -> Z -> bool) (ox oy : Z) : (k <= 62)%nat ->
  (forall i j, 0 <= i < 2 ^ Z.of_nat k -> 0 <= j < 2 ^ Z.of_nat k -> F (ox + i) (oy + j) = false) ->
  rep (EmptyTree k) k F ox oy.
Proof.
  intros Hk HF. destruct (EmptyTree_props k ltac:(lia)) as (W & L & G).
  split; [exact W|]. split; [exact L|]. intros. rewrite G, HF; auto.
Qed.

(** ** Growth *)

Lemma clip_in (l : nat) (F : Z -> Z -> bool) (ox oy x y : Z) :
  ox <= x < ox + 2 ^ Z.of_nat l -> oy <= y < oy + 2 ^ Z.of_nat l -> clip l F ox oy x y = F x y.
Proof.
  intros Hx Hy. unfold clip.
  rewrite (proj2 (Z.leb_le ox x)), (proj2 (Z.ltb_lt x _)), (proj2 (Z.leb_le oy y)), (proj2 (Z.ltb_lt y _))
    by lia. reflexivity.
Qed.

Lemma clip_out (l : nat) (F : Z -> Z -> bool) (ox oy x y : Z) :
  ~ (ox <= x < ox + 2 ^ Z.of_nat l /\ oy <= y < oy + 2 ^ Z.of_nat l) -> clip l F ox oy x y = false.
Proof.
  intros H. unfold clip.
  destruct (Z.leb_spec ox x), (Z.ltb_spec x (ox + 2 ^ Z.of_nat l)),
    (Z.leb_spec oy y), (Z.ltb_spec y (oy + 2 ^ Z.of_nat l)); simpl; auto; lia.
Qed.

(** [grow] puts the tree in the middle of a tree one level up whose
    other cells are dead. *)
Lemma grow_rep (t : Quadtree) (l : nat) (F : Z -> Z -> bool) (ox oy : Z) :
  (S l <= 62)%nat -> rep t (S l) F ox oy ->
  exists g, grow t = Some g /\
    rep g (S (S l)) (clip (S l) F ox oy) (ox - 2 ^ Z.of_nat l) (oy - 2 ^ Z.of_nat l).
Proof.
  intros Hl H. pose proof (pow_pos_nat l) as Hp.
  destruct (rep_node _ _ _ _ _ H) as (p & se & sw & nw & ne & -> & Hse & Hsw & Hnw & Hne).
  unfold grow. simpl Level.
  rewrite (proj2 (Nat.leb_gt 63 (S l))) by lia. rewrite (proj2 (Nat.ltb_ge (S l) 1)) by lia.
  replace (S l - 1)%nat with l by lia. cbv zeta.
  eexists; split; [reflexivity|].
  apply rep_NewTree; apply rep_NewTree;
    first
      [ match goal with
        | H : rep ?c _ _ _ _ |- rep ?c _ _ _ _ =>
            apply (rep_ext _ _ _ _ _ _ _ _ H); intros; rewrite ?pow_S;
            rewrite clip_in by (rewrite ?pow_S; lia); f_equal; lia
        end
      | apply EmptyTree_rep; [lia|]; intros; apply clip_out; rewrite ?pow_S; lia ].
Qed.

Lemma grow_None (u : Quadtree) : grow u = None <-> (Level u < 1 \/ 63 <= Level u)%nat.
Proof.
  unfold grow. destruct (Nat.leb_spec 63 (Level u)); [split; auto|].
  destruct (Nat.ltb_spec (Level u) 1); [split; auto|].
  destruct u as [b|l p se sw nw ne]; simpl in *; [lia|]. split; [discriminate|lia].
Qed.

(** ** The base case [slowSimulation] *)

Lemma b2z_bounds (b : bool) : 0 <= Z.b2z b <= 1.
Proof. destruct b; simpl; lia. Qed.

Lemma packbits_cons (acc : Z) (b : bool) (bs : list bool) :
  packbits acc (b :: bs) = packbits (2 * acc + Z.b2z b) bs.
Proof. reflexivity. Qed.

Lemma packbits_bound (bs : list bool) : forall acc,
  0 <= acc -> 0 <= packbits acc bs < (acc + 1) * 2 ^ Z.of_nat (length bs).
Proof.
  induction bs as [|b bs IH]; intros acc Hacc; [simpl; lia|].
  rewrite packbits_cons. pose proof (b2z_bounds b) as Hb.
  destruct (IH (2 * acc + Z.b2z b) ltac:(lia)) as [H1 H2].
  simpl length. rewrite pow_S. pose proof (pow_pos_nat (length bs)). nia.
Qed.

Lemma testbit_pack0 (a : Z) (b : bool) : Z.testbit (2 * a + Z.b2z b) 0 = b.
Proof. destruct b; simpl Z.b2z; [apply Z.testbit_odd_0 | rewrite Z.add_0_r; apply Z.testbit_even_0]. Qed.

Lemma testbit_packS (a : Z) (b : bool) (n : Z) : 0 <= n -> Z.testbit (2 * a + Z.b2z b) (Z.succ n) = Z.testbit a n.
Proof.
  intros Hn. destruct b; simpl Z.b2z;
    [apply Z.testbit_odd_succ; exact Hn | rewrite Z.add_0_r; apply Z.testbit_even_succ; exact Hn].
Qed.

Lemma packbits_testbit (bs : list bool) : forall acc i,
  0 <= i ->
  Z.testbit (packbits acc bs) i =
  if i <? Z.of_nat (length bs) then nth (Z.to_nat (Z.of_nat (length bs) - 1 - i)) bs false
  else Z.testbit acc (i - Z.of_nat (length bs)).
Proof.
  induction bs as [|b bs IH]; intros acc i Hi.
  - simpl length. change (Z.of_nat 0) with 0.
    destruct (Z.ltb_spec i 0); [lia|]. rewrite Z.sub_0_r. reflexivity.
  - rewrite packbits_cons, IH by exact Hi. simpl length. rewrite Nat2Z.inj_succ.
    destruct (Z.ltb_spec i (Z.of_nat (length bs))), (Z.ltb_spec i (Z.succ (Z.of_nat (length bs))));
      try lia.
    + replace (Z.to_nat (Z.succ (Z.of_nat (length bs)) - 1 - i))
        with (S (Z.to_nat (Z.of_nat (length bs) - 1 - i))) by lia. reflexivity.
    + replace i with (Z.of_nat (length bs)) by lia.
      rewrite Z.sub_diag, testbit_pack0.
      replace (Z.to_nat (Z.succ (Z.of_nat (length bs)) - 1 - Z.of_nat (length bs))) with 0%nat by lia.
      reflexivity.
    + replace (i - Z.of_nat (length bs)) with (Z.succ (i - Z.succ (Z.of_nat (length bs)))) by lia.
      apply testbit_packS. lia.
Qed.

(** The [allbits] loop packs the cells it reads. *)
Lemma packCell_fold (t : Quadtree) (g : Z * Z -> bool) (L : list (Z * Z)) : forall acc,
  (forall xy, In xy L -> Cell t xy.1 xy.2 = Some (Z.b2z (g xy))) ->
  0 <= acc -> (acc + 1) * 2 ^ Z.of_nat (length L) <= 2 ^ 16 ->
  fold_left (packCell t) L (Some acc) = Some (packbits acc (map g L)).
Proof.
  induction L as [|xy L IH]; intros acc HL Hacc Hb; [reflexivity|].
  pose proof (b2z_bounds (g xy)) as Hg. simpl length in Hb. rewrite pow_S in Hb.
  pose proof (pow_pos_nat (length L)) as Hp.
  assert (E : packCell t (Some acc) xy = Some (2 * acc + Z.b2z (g xy))).
  { unfold packCell. rewrite (HL xy (or_introl eq_refl)).
    change (Some (((Z.shiftl acc 1) mod 2 ^ 16 + Z.b2z (g xy) mod 2 ^ 16) mod 2 ^ 16) =
            Some (2 * acc + Z.b2z (g xy))).
    rewrite Z.shiftl_mul_pow2 by lia.
    rewrite (Z.mod_small (acc * 2 ^ 1)), (Z.mod_small (Z.b2z (g xy))), Z.mod_small by nia.
    f_equal. lia. }
  change (fold_left (packCell t) (xy :: L) (Some acc)) with (fold_left (packCell t) L (packCell t (Some acc) xy)).
  rewrite E.
  apply IH; [intros; apply HL; right; assumption | lia | nia].
Qed.

Lemma slowCoords_range (xy : Z * Z) : In xy slowCoords -> -2 <= xy.1 <= 1 /\ -2 <= xy.2 <= 1.
Proof. simpl. intros H. repeat destruct H as [<-|H]; simpl; lia. Qed.

Lemma shiftr_range (a s : Z) : 0 <= a < 2 ^ 16 -> 0 <= s -> 0 <= Z.shiftr a s < 2 ^ 16.
Proof.
  intros Ha Hs. rewrite Z.shiftr_div_pow2 by exact Hs.
  assert (1 <= 2 ^ s) by (apply (Z.pow_le_mono_r 2 0 s); lia).
  split; [apply Z.div_pos; lia|].
  apply Z.le_lt_trans with a; [apply Z.div_le_upper_bound; nia | lia].
Qed.

(** A window of [oneGen]: bit [5 - dx - 4 dy] is the cell at offset
    [(dx, dy)] from the centre. *)
Lemma window_life (F : Z -> Z -> bool) (cx cy w : Z) :
  (forall dx dy, -1 <= dx <= 1 -> -1 <= dy <= 1 -> Z.testbit w (5 - dx - 4 * dy) = F (cx + dx) (cy + dy)) ->
  windowRule w = Leaf (life F cx cy).
Proof.
  intros H.
  assert (E0 : Z.testbit w 0 = F (cx + 1) (cy + 1)) by exact (H 1 1 ltac:(lia) ltac:(lia)).
  assert (E1 : Z.testbit w 1 = F cx (cy + 1))
    by (rewrite <- (Z.add_0_r cx); exact (H 0 1 ltac:(lia) ltac:(lia))).
  assert (E2 : Z.testbit w 2 = F (cx + -1) (cy + 1)) by exact (H (-1) 1 ltac:(lia) ltac:(lia)).
  assert (E4 : Z.testbit w 4 = F (cx + 1) cy)
    by (rewrite <- (Z.add_0_r cy); exact (H 1 0 ltac:(lia) ltac:(lia))).
  assert (E5 : Z.testbit w 5 = F cx cy)
    by (rewrite <- (Z.add_0_r cx), <- (Z.add_0_r cy); exact (H 0 0 ltac:(lia) ltac:(lia))).
  assert (E6 : Z.testbit w 6 = F (cx + -1) cy)
    by (rewrite <- (Z.add_0_r cy); exact (H (-1) 0 ltac:(lia) ltac:(lia))).
  assert (E8 : Z.testbit w 8 = F (cx + 1) (cy + -1)) by exact (H 1 (-1) ltac:(lia) ltac:(lia)).
  assert (E9 : Z.testbit w 9 = F cx (cy + -1))
    by (rewrite <- (Z.add_0_r cx); exact (H 0 (-1) ltac:(lia) ltac:(lia))).
  assert (E10 : Z.testbit w 10 = F (cx + -1) (cy + -1)) by exact (H (-1) (-1) ltac:(lia) ltac:(lia)).
  unfold windowRule, windowCount, neighbourBits, life, neighbour_offsets.
  cbn [List.filter fst snd].
  rewrite !Z.add_0_r.
  rewrite E0, E1, E2, E4, E5, E6, E8, E9, E10.
  destruct (F cx cy), (F (cx + 1) (cy + 1)), (F cx (cy + 1)), (F (cx + -1) (cy + 1)),
    (F (cx + 1) cy), (F (cx + -1) cy), (F (cx + 1) (cy + -1)), (F cx (cy + -1)),
    (F (cx + -1) (cy + -1)); reflexivity.
Qed.

Ltac window_bits :=
  let dx := fresh "dx" in let dy := fresh "dy" in
  intros dx dy ? ?;
  assert (Hx3 : dx = -1 \/ dx = 0 \/ dx = 1) by lia;
  assert (Hy3 : dy = -1 \/ dy = 0 \/ dy = 1) by lia;
  destruct Hx3 as [-> | [-> | ->]]; destruct Hy3 as [-> | [-> | ->]];
  rewrite ?Z.shiftr_spec by lia; rewrite packbits_testbit by lia; simpl.

Lemma bind_Some {A B : Type} (m : option A) (a : A) (f : A -> option B) :
  m = Some a -> (m ≫= f) = f a.
Proof. intros ->. reflexivity. Qed.

Lemma leaf_rule (b : bool) : (if b then liveLeaf else deadLeaf) = Leaf b.
Proof. destruct b; reflexivity. Qed.

(** On a level-2 tree, [slowSimulation] computes the next generation of
    the centre 2x2 square. *)
Lemma slowSimulation_rep (t : Quadtree) (F : Z -> Z -> bool) (ox oy : Z) :
  rep t 2 F ox oy ->
  exists r, slowSimulation t = Some r /\ rep r 1 (life F) (ox + 1) (oy + 1).
Proof.
  intros H. pose proof H as (W & L & G).
  set (g := fun xy : Z * Z => F (ox + (xy.1 + 2)) (oy + (xy.2 + 2))).
  assert (Hc : forall xy, In xy slowCoords -> Cell t xy.1 xy.2 = Some (Z.b2z (g xy))).
  { intros xy Hin. destruct (slowCoords_range xy Hin) as [Hx Hy].
    rewrite (Cell_get t 1 xy.1 xy.2 W L) by (try lia; unfold in_box, int64; simpl; lia).
    change (2 ^ Z.of_nat 1) with 2. rewrite G by (simpl; lia). reflexivity. }
  assert (Hfold : fold_left (packCell t) slowCoords (Some 0) = Some (packbits 0 (map g slowCoords))).
  { apply packCell_fold; [exact Hc | lia | simpl; lia]. }
  set (a := packbits 0 (map g slowCoords)) in *.
  assert (Ha : 0 <= a < 2 ^ 16).
  { pose proof (packbits_bound (map g slowCoords) 0 ltac:(lia)) as B.
    fold a in B. rewrite length_map in B. change (Z.of_nat (length slowCoords)) with 16 in B. lia. }
  assert (Wse : windowRule a = Leaf (life F (ox + 2) (oy + 2))) by (apply window_life; unfold a; window_bits; unfold g; simpl; f_equal; lia).
  assert (Wsw : windowRule (Z.shiftr a 1) = Leaf (life F (ox + 1) (oy + 2)))
    by (apply window_life; unfold a; window_bits; unfold g; simpl; f_equal; lia).
  assert (Wnw : windowRule (Z.shiftr a 5) = Leaf (life F (ox + 1) (oy + 1)))
    by (apply window_life; unfold a; window_bits; unfold g; simpl; f_equal; lia).
  assert (Wne : windowRule (Z.shiftr a 4) = Leaf (life F (ox + 2) (oy + 1)))
    by (apply window_life; unfold a; window_bits; unfold g; simpl; f_equal; lia).
  assert (Ose : oneGen a = Some (Leaf (life F (ox + 2) (oy + 2))))
    by (rewrite oneGen_windowRule, Wse by lia; reflexivity).
  assert (Osw : oneGen (Z.shiftr a 1) = Some (Leaf (life F (ox + 1) (oy + 2))))
    by (rewrite oneGen_windowRule, Wsw by (apply shiftr_range; lia); reflexivity).
  assert (Onw : oneGen (Z.shiftr a 5) = Some (Leaf (life F (ox + 1) (oy + 1))))
    by (rewrite oneGen_windowRule, Wnw by (apply shiftr_range; lia); reflexivity).
  assert (One : oneGen (Z.shiftr a 4) = Some (Leaf (life F (ox + 2) (oy + 1))))
    by (rewrite oneGen_windowRule, Wne by (apply shiftr_range; lia); reflexivity).
  unfold slowSimulation. rewrite L. cbv beta iota. simpl negb. cbv iota.
  rewrite (bind_Some _ _ _ Hfold), (bind_Some _ _ _ Ose), (bind_Some _ _ _ Osw),
    (bind_Some _ _ _ Onw), (bind_Some _ _ _ One).
  eexists; split; [reflexivity|].
  apply rep_NewTree; apply rep_leaf; change (2 ^ Z.of_nat 0) with 1; f_equal; lia.
Qed.

Lemma NextGeneration_aux_step (f : nat) (qt : Quadtree) :
  (Level qt =? 2)%nat = false ->
  NextGeneration_aux (S f) qt =
  (qNW ← NW_of qt; qNE ← NE_of qt; qSW ← SW_of qt; qSE ← SE_of qt;
   n00 ← centeredSubnode qNW;
   n01 ← centeredHorizontal qNW qNE;
   n02 ← centeredSubnode qNE;
   n10 ← centeredVertical qNW qSW;
   n11 ← centeredSubSubnode qt;
   n12 ← centeredVertical qNE qSE;
   n20 ← centeredSubnode qSW;
   n21 ← centeredHorizontal qSW qSE;
   n22 ← centeredSubnode qSE;
   rNW ← NextGeneration_aux f (NewTree {| NW := n00; NE := n01; SW := n10; SE := n11 |});
   rNE ← NextGeneration_aux f (NewTree {| NW := n01; NE := n02; SW := n11; SE := n12 |});
   rSW ← NextGeneration_aux f (NewTree {| NW := n10; NE := n11; SW := n20; SE := n21 |});
   rSE ← NextGeneration_aux f (NewTree {| NW := n11; NE := n12; SW := n21; SE := n22 |});
   Some (NewTree {| NW := rNW; NE := rNE; SW := rSW; SE := rSE |})).
Proof. intros H. simpl NextGeneration_aux at 1. rewrite H. reflexivity. Qed.

(** [NextGeneration] on a tree of level [l + 2] computes the next
    generation of the centre square of level [l + 1]. *)
Lemma NextGeneration_rep (l : nat) : forall t F ox oy,
  rep t (S (S l)) F ox oy ->
  exists r, NextGeneration_aux (S (S l)) t = Some r /\
    rep r (S l) (life F) (ox + 2 ^ Z.of_nat l) (oy + 2 ^ Z.of_nat l).
Proof.
  induction l as [|k IH]; intros t F ox oy H.
  - destruct (slowSimulation_rep t F ox oy H) as (r & E & R).
    exists r. split.
    + simpl NextGeneration_aux. destruct H as (_ & -> & _). exact E.
    + change (2 ^ Z.of_nat 0) with 1. exact R.
  - pose proof H as Ht.
    destruct (rep_node _ _ _ _ _ H) as (p & qSE & qSW & qNW & qNE & -> & RSE & RSW & RNW & RNE).
    rewrite NextGeneration_aux_step by reflexivity.
    cbn [NW_of NE_of SW_of SE_of]. rewrite !(bind_Some _ _ _ eq_refl).
    destruct (centeredSubnode_rep _ _ _ _ _ RNW) as (n00 & E00 & R00).
    destruct (centeredHorizontal_rep _ _ _ _ _ _ RNW RNE) as (n01 & E01 & R01).
    destruct (centeredSubnode_rep _ _ _ _ _ RNE) as (n02 & E02 & R02).
    destruct (centeredVertical_rep _ _ _ _ _ _ RNW RSW) as (n10 & E10 & R10).
    destruct (centeredSubSubnode_rep _ _ _ _ _ Ht) as (n11 & E11 & R11).
    destruct (centeredVertical_rep _ _ _ _ _ _ RNE RSE) as (n12 & E12 & R12).
    destruct (centeredSubnode_rep _ _ _ _ _ RSW) as (n20 & E20 & R20).
    destruct (centeredHorizontal_rep _ _ _ _ _ _ RSW RSE) as (n21 & E21 & R21).
    destruct (centeredSubnode_rep _ _ _ _ _ RSE) as (n22 & E22 & R22).
    rewrite (bind_Some _ _ _ E00), (bind_Some _ _ _ E01), (bind_Some _ _ _ E02),
      (bind_Some _ _ _ E10), (bind_Some _ _ _ E11), (bind_Some _ _ _ E12),
      (bind_Some _ _ _ E20), (bind_Some _ _ _ E21), (bind_Some _ _ _ E22).
    assert (QNW : rep (NewTree {| NW := n00; NE := n01; SW := n10; SE := n11 |}) (S (S k)) F
                      (ox + 2 ^ Z.of_nat k) (oy + 2 ^ Z.of_nat k))
      by (apply rep_NewTree; rep_close).
    assert (QNE : rep (NewTree {| NW := n01; NE := n02; SW := n11; SE := n12 |}) (S (S k)) F
                      (ox + 3 * 2 ^ Z.of_nat k) (oy + 2 ^ Z.of_nat k))
      by (apply rep_NewTree; rep_close).
    assert (QSW : rep (NewTree {| NW := n10; NE := n11; SW := n20; SE := n21 |}) (S (S k)) F
                      (ox + 2 ^ Z.of_nat k) (oy + 3 * 2 ^ Z.of_nat k))
      by (apply rep_NewTree; rep_close).
    assert (QSE : rep (NewTree {| NW := n11; NE := n12; SW := n21; SE := n22 |}) (S (S k)) F
                      (ox + 3 * 2 ^ Z.of_nat k) (oy + 3 * 2 ^ Z.of_nat k))
      by (apply rep_NewTree; rep_close).
    destruct (IH _ _ _ _ QNW) as (rNW & ENW & SNW).
    destruct (IH _ _ _ _ QNE) as (rNE & ENE & SNE).
    destruct (IH _ _ _ _ QSW) as (rSW & ESW & SSW).
    destruct (IH _ _ _ _ QSE) as (rSE & ESE & SSE).
    rewrite (bind_Some _ _ _ ENW), (bind_Some _ _ _ ENE), (bind_Some _ _ _ ESW), (bind_Some _ _ _ ESE).
    eexists; split; [reflexivity|].
    apply rep_NewTree; rep_close.
Qed.

Lemma life_ext (f g : Z -> Z -> bool) (x y : Z) :
  (forall x' y', f x' y' = g x' y') -> life f x y = life g x y.
Proof. intros H. unfold life, neighbour_offsets. cbn [List.filter fst snd]. rewrite !H. reflexivity. Qed.

Lemma in_box_S (l : nat) (x y : Z) :
  in_box (S l) x y <->
  int64 x /\ int64 y /\ - 2 ^ Z.of_nat l <= x < 2 ^ Z.of_nat l /\ - 2 ^ Z.of_nat l <= y < 2 ^ Z.of_nat l.
Proof.
  unfold in_box. simpl Nat.eqb. cbv iota.
  replace (Z.of_nat (S l) - 1) with (Z.of_nat l) by lia. reflexivity.
Qed.

(** The cells of a tree of level [l + 1 <= 62], dead outside its box,
    as a pattern of the plane. *)
Lemma alive_in_clip (t : Quadtree) (l : nat) :
  wf t -> Level t = S l -> (S l <= 63)%nat ->
  forall x y, clip (S l) (fun x y => get t (x + 2 ^ Z.of_nat l) (y + 2 ^ Z.of_nat l))
                (- 2 ^ Z.of_nat l) (- 2 ^ Z.of_nat l) x y = alive_in t x y.
Proof.
  intros W L Hl x y.
  assert (Hh : 2 ^ Z.of_nat l <= 2 ^ 62) by (apply Z.pow_le_mono_r; lia).
  pose proof (pow_pos_nat l). pose proof (pow_S l).
  unfold alive_in. rewrite L.
  destruct (decide (in_box (S l) x y)) as [Hb|Hb].
  - rewrite (bool_decide_eq_true_2 _ Hb). rewrite (Cell_get t l x y W L ltac:(lia) Hb).
    apply in_box_S in Hb.
    rewrite clip_in by lia. simpl andb.
    destruct (get t (x + 2 ^ Z.of_nat l) (y + 2 ^ Z.of_nat l));
      [symmetry; apply bool_decide_eq_true_2; reflexivity
      | symmetry; apply bool_decide_eq_false_2; discriminate].
  - rewrite (bool_decide_eq_false_2 _ Hb). simpl andb. apply clip_out.
    intros C. apply Hb, in_box_S. unfold int64. lia.
Qed.

Lemma blinker_wf : wf Examples.blinker.
Proof. vm_compute. repeat split. Qed.

(** ** [GrowToFit] *)

Lemma GrowToFit_loop_S (f : nat) (qt : Quadtree) (x y : Z) :
  GrowToFit_loop (S f) qt x y =
  (let maxCoordinate := shl1 (usub (Level qt) 1) in
   if (x <=? wrap64 (maxCoordinate - 1)) && (y <=? wrap64 (maxCoordinate - 1))
      && (x >=? wrap64 (- maxCoordinate)) && (y >=? wrap64 (- maxCoordinate))
   then Some qt
   else match grow qt with None => None | Some qt' => GrowToFit_loop f qt' x y end).
Proof. reflexivity. Qed.

Lemma shl1_small (n : nat) : (n <= 62)%nat -> shl1 (N.of_nat n) = 2 ^ Z.of_nat n.
Proof.
  intros Hn. unfold shl1.
  replace (N.of_nat n <? 64)%N with true by (symmetry; apply N.ltb_lt; lia).
  rewrite nat_N_Z. apply wrap64_id.
  assert (0 < 2 ^ Z.of_nat n <= 2 ^ 62) by (split; [apply pow_pos_nat | apply Z.pow_le_mono_r; lia]).
  unfold int64. lia.
Qed.

(** The fit test of [GrowToFit] on levels 1 to 63 is the box. *)
Lemma fit_test (L : nat) (x y : Z) :
  (1 <= L <= 63)%nat -> int64 x -> int64 y ->
  (x <=? wrap64 (shl1 (usub L 1) - 1)) && (y <=? wrap64 (shl1 (usub L 1) - 1))
  && (x >=? wrap64 (- shl1 (usub L 1))) && (y >=? wrap64 (- shl1 (usub L 1)))
  = bool_decide (in_box L x y).
Proof.
  intros HL Hx Hy. rewrite usub_small by lia. rewrite shl1_small by lia.
  assert (0 < 2 ^ Z.of_nat (L - 1) <= 2 ^ 62) by (split; [apply pow_pos_nat | apply Z.pow_le_mono_r; lia]).
  rewrite !wrap64_id by (unfold int64; lia).
  destruct L as [|L]; [lia|]. replace (S L - 1)%nat with L by lia.
  rewrite !Z.geb_leb.
  destruct (decide (in_box (S L) x y)) as [Hb|Hb];
    [rewrite (bool_decide_eq_true_2 _ Hb) | rewrite (bool_decide_eq_false_2 _ Hb)];
    rewrite in_box_S in Hb; unfold int64 in *;
    destruct (Z.leb_spec x (2 ^ Z.of_nat L - 1)), (Z.leb_spec y (2 ^ Z.of_nat L - 1)),
      (Z.leb_spec (- 2 ^ Z.of_nat L) x), (Z.leb_spec (- 2 ^ Z.of_nat L) y); simpl; auto;
    try lia; exfalso; apply Hb; lia.
Qed.

Lemma grow_wf (t g : Quadtree) : wf t -> grow t = Some g -> wf g /\ Level g = S (Level t).
Proof.
  intros W E.
  assert (HL : (1 <= Level t <= 62)%nat).
  { destruct (Nat.lt_ge_cases (Level t) 1); [rewrite (proj2 (grow_None t)) in E by lia; discriminate|].
    destruct (Nat.lt_ge_cases (Level t) 63); [lia|].
    rewrite (proj2 (grow_None t)) in E by lia; discriminate. }
  pose proof (rep_self t W) as R. destruct (Level t) as [|l] eqn:L; [lia|].
  destruct (grow_rep t l _ _ _ ltac:(lia) R) as (g' & E' & (Wg & Lg & _)).
  rewrite E in E'. injection E' as ->. split; [exact Wg | exact Lg].
Qed.

Lemma in_box_mono (L L' : nat) (x y : Z) : in_box L x y -> (L <= L')%nat -> in_box L' x y.
Proof.
  intros H HL. destruct L' as [|L']; [replace L with 0%nat in H by lia; exact H|].
  apply in_box_S. pose proof (pow_pos_nat L').
  destruct L as [|L].
  - destruct H as (Hx & Hy & H). simpl in H. destruct H as [-> ->]. unfold int64. lia.
  - apply in_box_S in H. assert (2 ^ Z.of_nat L <= 2 ^ Z.of_nat L') by (apply Z.pow_le_mono_r; lia).
    unfold int64 in *. lia.
Qed.

(** The loop of [GrowToFit] never runs out of fuel from 64 turns on. *)
Lemma GrowToFit_loop_fuel (n : nat) : forall qt f1 f2 x y,
  wf qt -> (64 - Level qt <= n)%nat -> (n < f1)%nat -> (n < f2)%nat ->
  GrowToFit_loop f1 qt x y = GrowToFit_loop f2 qt x y.
Proof.
  induction n as [|n IH]; intros qt f1 f2 x y W Hn H1 H2;
    destruct f1 as [|f1]; destruct f2 as [|f2]; try lia;
    rewrite !GrowToFit_loop_S; cbv zeta.
  - rewrite (proj2 (grow_None qt)) by lia. reflexivity.
  - destruct (grow qt) as [g|] eqn:E; [|reflexivity].
    destruct (grow_wf qt g W E) as [Wg Lg].
    destruct (_ && _); [reflexivity|]. apply IH; auto; lia.
Qed.

Lemma GrowToFit_enough_fuel (t : Quadtree) (x y : Z) (f : nat) :
  wf t -> (64 <= f)%nat -> GrowToFit_loop f t x y = GrowToFit t x y.
Proof.
  intros W Hf. unfold GrowToFit.
  destruct (Nat.eq_dec (Level t) 0%nat) as [L0|L0].
  - destruct f as [|f]; [lia|]. rewrite !GrowToFit_loop_S. cbv zeta.
    rewrite (proj2 (grow_None t)) by lia. reflexivity.
  - apply (GrowToFit_loop_fuel 63); auto; lia.
Qed.

(** The least number of growth steps that brings [(x, y)] in the box. *)
Lemma least_level (l : nat) (x y : Z) (n : nat) :
  in_box (l + n) x y ->
  exists k, (k <= n)%nat /\ in_box (l + k) x y /\ forall k', (k' < k)%nat -> ~ in_box (l + k') x y.
Proof.
  induction n as [|n IH]; intros H.
  - exists 0%nat. split; [lia|]. split; [exact H|]. intros; lia.
  - destruct (decide (in_box (l + n) x y)) as [Hb|Hb].
    + destruct (IH Hb) as (k & Hk & Bk & Mk). exists k. split; [lia|]. split; assumption.
    + exists (S n). split; [lia|]. split; [exact H|].
      intros k' Hk' Bk'. apply Hb. apply (in_box_mono _ _ _ _ Bk'). lia.
Qed.

Lemma GrowToFit_loop_least (k : nat) : forall qt f x y,
  wf qt -> (1 <= Level qt)%nat -> (Level qt + k <= 63)%nat -> int64 x -> int64 y ->
  in_box (Level qt + k) x y -> (forall k', (k' < k)%nat -> ~ in_box (Level qt + k') x y) ->
  (k < f)%nat ->
  exists g, grow_n k qt = Some g /\ GrowToFit_loop f qt x y = Some g /\ wf g /\ Level g = (Level qt + k)%nat.
Proof.
  induction k as [|k IH]; intros qt f x y W L1 L63 Hx Hy B M Hf;
    destruct f as [|f]; try lia; rewrite GrowToFit_loop_S; cbv zeta;
    rewrite fit_test by (auto; lia).
  - rewrite Nat.add_0_r in B. rewrite (bool_decide_eq_true_2 _ B).
    exists qt. repeat split; auto; lia.
  - assert (B0 : ~ in_box (Level qt) x y) by (rewrite <- (Nat.add_0_r (Level qt)); apply M; lia).
    rewrite (bool_decide_eq_false_2 _ B0).
    destruct (grow qt) as [g|] eqn:E.
    2: { apply grow_None in E. lia. }
    destruct (grow_wf qt g W E) as [Wg Lg].
    destruct (IH g f x y Wg ltac:(lia) ltac:(lia) Hx Hy) as (g' & E1 & E2 & W' & L');
      [rewrite Lg; replace (S (Level qt) + k)%nat with (Level qt + S k)%nat by lia; exact B
      | intros k' Hk'; rewrite Lg; replace (S (Level qt) + k')%nat with (Level qt + S k')%nat by lia;
        apply M; lia
      | lia | ].
    exists g'. simpl grow_n. rewrite E. simpl. repeat split; auto. lia.
Qed.

Lemma GrowToFit_loop_outside (n : nat) : forall qt f x y,
  wf qt -> (1 <= Level qt)%nat -> (Level qt + n = 63)%nat -> int64 x -> int64 y ->
  ~ in_box 63 x y -> GrowToFit_loop f qt x y = None.
Proof.
  induction n as [|n IH]; intros qt f x y W L1 L63 Hx Hy B;
    destruct f as [|f]; try reflexivity; rewrite GrowToFit_loop_S; cbv zeta;
    rewrite fit_test by (auto; lia);
    (rewrite (bool_decide_eq_false_2 (in_box (Level qt) x y));
     [| intros C; apply B; apply (in_box_mono _ _ _ _ C); lia]).
  - rewrite (proj2 (grow_None qt)) by lia. reflexivity.
  - destruct (grow qt) as [g|] eqn:E; [|reflexivity].
    destruct (grow_wf qt g W E) as [Wg Lg]. apply IH; auto; lia.
Qed.

(** Growing keeps the pattern: a tree whose cells are the pattern [A],
    dead outside its box, grows into trees with the same cells. *)
Lemma grow_pattern (g : Quadtree) (m : nat) (A : Z -> Z -> bool) :
  (S m <= 62)%nat -> rep g (S m) A (- 2 ^ Z.of_nat m) (- 2 ^ Z.of_nat m) ->
  (forall x y, A x y = true -> - 2 ^ Z.of_nat m <= x < 2 ^ Z.of_nat m /\ - 2 ^ Z.of_nat m <= y < 2 ^ Z.of_nat m) ->
  exists g', grow g = Some g' /\ rep g' (S (S m)) A (- 2 ^ Z.of_nat (S m)) (- 2 ^ Z.of_nat (S m)).
Proof.
  intros Hm R HA. destruct (grow_rep g m _ _ _ Hm R) as (g' & E & R').
  exists g'. split; [exact E|]. apply (rep_ext _ _ _ _ _ _ _ _ R').
  intros i j _ _. pose proof (pow_S m). pose proof (pow_S (S m)).
  replace (- 2 ^ Z.of_nat m - 2 ^ Z.of_nat m) with (- 2 ^ Z.of_nat (S m)) by lia.
  set (x := - 2 ^ Z.of_nat (S m) + i). set (y := - 2 ^ Z.of_nat (S m) + j).
  destruct (decide (- 2 ^ Z.of_nat m <= x < - 2 ^ Z.of_nat m + 2 ^ Z.of_nat (S m) /\
                    - 2 ^ Z.of_nat m <= y < - 2 ^ Z.of_nat m + 2 ^ Z.of_nat (S m))) as [D|D].
  - apply clip_in; apply D.
  - rewrite clip_out by exact D. destruct (A x y) eqn:Ax; [|reflexivity].
    exfalso. apply D. specialize (HA x y Ax). lia.
Qed.

Lemma grow_n_pattern (k : nat) : forall g m (A : Z -> Z -> bool),
  (S m + k <= 63)%nat -> rep g (S m) A (- 2 ^ Z.of_nat m) (- 2 ^ Z.of_nat m) ->
  (forall x y, A x y = true -> - 2 ^ Z.of_nat m <= x < 2 ^ Z.of_nat m /\ - 2 ^ Z.of_nat m <= y < 2 ^ Z.of_nat m) ->
  exists g', grow_n k g = Some g' /\ rep g' (S m + k) A (- 2 ^ Z.of_nat (m + k)) (- 2 ^ Z.of_nat (m + k)).
Proof.
  induction k as [|k IH]; intros g m A Hk R HA.
  - exists g. rewrite !Nat.add_0_r. split; [reflexivity | exact R].
  - destruct (grow_pattern g m A ltac:(lia) R HA) as (g1 & E1 & R1).
    destruct (IH g1 (S m) A ltac:(lia) R1) as (g' & E' & R').
    + intros x y Ax. specialize (HA x y Ax). pose proof (pow_S m). pose proof (pow_pos_nat m). lia.
    + exists g'. simpl grow_n. rewrite E1. simpl.
      replace (S m + S k)%nat with (S (S m) + k)%nat by lia.
      replace (m + S k)%nat with (S m + k)%nat by lia. split; assumption.
Qed.

(** A tree of level [l + 1 <= 63] shows [alive_in] of itself. *)
Lemma rep_alive_in (t : Quadtree) (l : nat) :
  wf t -> Level t = S l -> (S l <= 63)%nat ->
  rep t (S l) (alive_in t) (- 2 ^ Z.of_nat l) (- 2 ^ Z.of_nat l).
Proof.
  intros W L Hl. split; [exact W|]. split; [exact L|]. intros i j Hi Hj.
  rewrite <- (alive_in_clip t l W L Hl). pose proof (pow_S l).
  rewrite clip_in by lia. f_equal; lia.
Qed.

Lemma alive_in_box (t : Quadtree) (x y : Z) : alive_in t x y = true -> in_box (Level t) x y.
Proof. unfold alive_in. intros H. apply andb_prop in H as [H _]. exact (bool_decide_eq_true_1 _ H). Qed.

End TreeFacts.

Module TreeClaims.
Import Tree TreeFacts.

(** C2: on every 16-bit value, [oneGen] yields the live leaf exactly when
    three of the eight window bits of mask [0x757] (bits 0, 1, 2, 4, 6, 8,
    9, 10) are set, or two of them and bit 5; otherwise the dead leaf. *)
Theorem oneGen_rule (b : Z) :
  0 <= b < 2 ^ 16 ->
  oneGen b = Some (if (length (List.filter (fun i => Z.testbit b i) [0; 1; 2; 4; 6; 8; 9; 10]%Z) =? 3)%nat
                      || ((length (List.filter (fun i => Z.testbit b i) [0; 1; 2; 4; 6; 8; 9; 10]%Z) =? 2)%nat
                          && Z.testbit b 5)
                   then liveLeaf else deadLeaf).
Proof. intros Hb. exact (oneGen_windowRule b Hb). Qed.

Lemma oneGen_rule_witness :
  0 <= 0x320 < 2 ^ 16 /\ oneGen 0x320 = Some liveLeaf.
Proof. split; [lia|]. rewrite (oneGen_rule 0x320); [reflexivity | lia]. Defined.

(** C3: on a well-formed tree, writing [v] in [{0, 1}] at a cell of the
    box succeeds, the cell then reads [v], and every other cell of the box
    reads as before. *)
Theorem SetCell_exact (t : Quadtree) (x y v : Z) :
  wf t -> in_box (Level t) x y -> (v = 0 \/ v = 1) ->
  exists t', SetCell t x y v = Some t' /\ Cell t' x y = Some v /\
    forall x' y', in_box (Level t) x' y' -> (x', y') <> (x, y) -> Cell t' x' y' = Cell t x' y'.
Proof.
  intros Hwf Hin Hv. destruct (in_box_fits _ _ _ Hin) as [Hx Hy].
  destruct (SetCell_same t x y v Hwf Hx Hy) as (t' & E & Hc).
  exists t'. split; [exact E|]. split.
  - rewrite Hc. destruct Hv as [-> | ->]; reflexivity.
  - intros x' y' Hin' Hne. destruct (in_box_fits _ _ _ Hin') as [Hx' Hy'].
    destruct (Nat.eq_dec (Level t) 0%nat) as [L0|L0].
    + exfalso. apply Hne. unfold in_box in Hin, Hin'. rewrite L0 in Hin, Hin'. simpl in Hin, Hin'.
      f_equal; lia.
    + apply (SetCell_other t x y x' y' v t'); auto; lia.
Qed.

Lemma SetCell_exact_witness :
  wf (EmptyTree 2) /\ in_box (Level (EmptyTree 2)) 0 (-1) /\ (1 = 0 \/ 1 = 1) /\
  exists t', SetCell (EmptyTree 2) 0 (-1) 1 = Some t' /\ Cell t' 0 (-1) = Some 1 /\
    forall x' y', in_box (Level (EmptyTree 2)) x' y' -> (x', y') <> (0, -1) ->
      Cell t' x' y' = Cell (EmptyTree 2) x' y'.
Proof.
  assert (W : wf (EmptyTree 2)) by (simpl; repeat split).
  assert (B : in_box (Level (EmptyTree 2)) 0 (-1)) by (unfold in_box, int64; simpl; lia).
  split; [exact W|]. split; [exact B|]. split; [right; reflexivity|].
  apply (SetCell_exact (EmptyTree 2) 0 (-1) 1 W B). right; reflexivity.
Defined.

(** C9: writing any nonzero value stores the live leaf: the cell then
    reads 1, whatever [v] was. *)
Theorem SetCell_nonzero (t : Quadtree) (x y v : Z) :
  wf t -> in_box (Level t) x y -> v <> 0 ->
  exists t', SetCell t x y v = Some t' /\ Cell t' x y = Some 1.
Proof.
  intros Hwf Hin Hv. destruct (in_box_fits _ _ _ Hin) as [Hx Hy].
  destruct (SetCell_same t x y v Hwf Hx Hy) as (t' & E & Hc).
  exists t'. split; [exact E|]. rewrite Hc. apply Z.eqb_neq in Hv. rewrite Hv. reflexivity.
Qed.

Lemma SetCell_nonzero_witness :
  wf (EmptyTree 3) /\ in_box (Level (EmptyTree 3)) 2 (-3) /\ 7 <> 0 /\
  exists t', SetCell (EmptyTree 3) 2 (-3) 7 = Some t' /\ Cell t' 2 (-3) = Some 1.
Proof.
  assert (W : wf (EmptyTree 3)) by (simpl; repeat split).
  assert (B : in_box (Level (EmptyTree 3)) 2 (-3)) by (unfold in_box, int64; simpl; lia).
  assert (V : 7 <> 0) by lia.
  split; [exact W|]. split; [exact B|]. split; [exact V|].
  exact (SetCell_nonzero (EmptyTree 3) 2 (-3) 7 W B V).
Defined.

(** C10: on a level-0 tree [GrowToFit] panics for every coordinate pair
    (its fit test fails since [maxCoordinate] is [1 << (0 - 1)] = 0, and
    [grow] refuses the leaf); [grow] panics exactly on the levels below 1
    and from 63 on. *)
Theorem GrowToFit_level0 (t : Quadtree) (x y : Z) :
  Level t = 0%nat ->
  GrowToFit t x y = None /\ (forall u, grow u = None <-> (Level u < 1 \/ 63 <= Level u)%nat).
Proof.
  intros HL. split; [|exact grow_None].
  unfold GrowToFit, GrowToFit_loop. rewrite HL.
  replace (shl1 (usub 0 1)) with 0 by reflexivity.
  replace (wrap64 (0 - 1)) with (-1) by reflexivity.
  replace (wrap64 (- 0)) with 0 by reflexivity.
  rewrite !Z.geb_leb.
  destruct (Z.leb_spec x (-1)), (Z.leb_spec y (-1)), (Z.leb_spec 0 x), (Z.leb_spec 0 y);
    try lia; simpl;
    (replace (grow t) with (@None Quadtree); [reflexivity | symmetry; apply grow_None; lia]).
Qed.

Lemma GrowToFit_level0_witness :
  Level deadLeaf = 0%nat /\ GrowToFit deadLeaf 0 0 = None.
Proof.
  assert (L : Level deadLeaf = 0%nat) by reflexivity.
  split; [exact L|]. exact (proj1 (GrowToFit_level0 deadLeaf 0 0 L)).
Defined.

(** C1 (counterexample): [grow] refuses level 63, so [NextGen] panics on
    a well-formed tree of that level. *)
Lemma NextGen_level63 :
  wf (EmptyTree 63) /\ Level (EmptyTree 63) = 63%nat /\ NextGen (EmptyTree 63) = None.
Proof.
  destruct (EmptyTree_props 63 ltac:(lia)) as (W & L & _).
  split; [exact W|]. split; [exact L|].
  unfold NextGen. rewrite (proj2 (grow_None _)) by lia. reflexivity.
Qed.

(** C1 (amended): for a well-formed tree [t] of level [l] with
    [1 <= l <= 62], [NextGen t] returns a tree of level [l] whose cell at
    every [(x, y)] of the box is the Life rule applied to the 3x3
    neighbourhood of [(x, y)] in [t], cells outside [t]'s box being dead;
    and [NextGen] panics on every tree of level 63 or more. *)
Theorem NextGen_life (t : Quadtree) (l : nat) :
  wf t -> Level t = l -> (1 <= l <= 62)%nat ->
  (exists r, NextGen t = Some r /\ Level r = l /\
    forall x y, in_box l x y -> Cell r x y = Some (if life (alive_in t) x y then 1 else 0)) /\
  (forall u, (63 <= Level u)%nat -> NextGen u = None).
Proof.
  intros W L Hl.
  split; [|intros u Hu; unfold NextGen; rewrite (proj2 (grow_None u)) by lia; reflexivity].
  destruct l as [|l]; [lia|].
  set (h := 2 ^ Z.of_nat l).
  set (Ft := fun x y => get t (x + h) (y + h)).
  assert (R : rep t (S l) Ft (- h) (- h)).
  { split; [exact W|]. split; [exact L|]. intros i j _ _. unfold Ft. f_equal; lia. }
  destruct (grow_rep t l Ft (- h) (- h) ltac:(lia) R) as (g & Eg & Rg).
  destruct (NextGeneration_rep l g _ _ _ Rg) as (r & Er & Rr).
  assert (Rr' : rep r (S l) (life (clip (S l) Ft (- h) (- h))) (- h) (- h))
    by (apply (rep_ext _ _ _ _ _ _ _ _ Rr); intros; f_equal; lia).
  exists r. split.
  - unfold NextGen. rewrite (bind_Some _ _ _ Eg). unfold NextGeneration.
    destruct Rg as (_ & -> & _). exact Er.
  - destruct Rr' as (Wr & Lr & Gr). split; [exact Lr|].
    intros x y Hin. rewrite (Cell_get r l x y Wr Lr ltac:(lia) Hin).
    pose proof Hin as Hin'. apply in_box_S in Hin'. pose proof (pow_S l).
    rewrite Gr by lia.
    replace (- h + (x + 2 ^ Z.of_nat l)) with x by (unfold h; lia).
    replace (- h + (y + 2 ^ Z.of_nat l)) with y by (unfold h; lia).
    rewrite (life_ext _ (alive_in t) x y); [reflexivity|].
    intros x' y'. apply (alive_in_clip t l W L ltac:(lia)).
Qed.

Lemma NextGen_life_witness :
  wf Examples.blinker /\ Level Examples.blinker = 3%nat /\ (1 <= 3 <= 62)%nat /\
  (exists r, NextGen Examples.blinker = Some r /\ Level r = 3%nat /\
    forall x y, in_box 3 x y -> Cell r x y = Some (if life (alive_in Examples.blinker) x y then 1 else 0)) /\
  (forall u, (63 <= Level u)%nat -> NextGen u = None).
Proof.
  pose proof blinker_wf as W.
  assert (L : Level Examples.blinker = 3%nat) by reflexivity.
  assert (B : (1 <= 3 <= 62)%nat) by lia.
  split; [exact W|]. split; [exact L|]. split; [exact B|].
  exact (NextGen_life Examples.blinker 3 W L B).
Defined.

(** C6 (counterexample): the children of [centeredSubnode t] do not sit
    as the claim places them: on the tree with the single live cell
    [(0, 0)] at level 2, [t.SE.NW] is live but the result's [NE] is dead. *)
Lemma centeredSubnode_orientation :
  exists t r, SetCell (EmptyTree 2) 0 0 1 = Some t /\ centeredSubnode t = Some r /\
    NE_of r = Some deadLeaf /\ (SE_of t ≫= NW_of) = Some liveLeaf.
Proof. do 2 eexists. split; [reflexivity|]. split; [reflexivity|]. split; reflexivity. Qed.

(** C6 (amended): for a well-formed node [t] of level [l + 2],
    [centeredSubnode t] is the node whose [SE], [SW], [NW], [NE] children
    are [t.SE.NW], [t.SW.NE], [t.NW.SE], [t.NE.SW]; it is the centre
    quarter of [t] (corner coordinates shifted by [2^l]) and, when the
    level is at most 64, reads as [t] on every cell of its own box. *)
Theorem centeredSubnode_quarter (t : Quadtree) (l : nat) :
  wf t -> Level t = S (S l) ->
  exists a b c d,
    (SE_of t ≫= NW_of) = Some a /\ (SW_of t ≫= NE_of) = Some b /\
    (NW_of t ≫= SE_of) = Some c /\ (NE_of t ≫= SW_of) = Some d /\
    centeredSubnode t = Some (NewTree (mkChilds a b c d)) /\
    (forall i j, 0 <= i < 2 ^ Z.of_nat (S l) -> 0 <= j < 2 ^ Z.of_nat (S l) ->
       get (NewTree (mkChilds a b c d)) i j = get t (2 ^ Z.of_nat l + i) (2 ^ Z.of_nat l + j)) /\
    ((S (S l) <= 64)%nat -> forall x y, in_box (S l) x y ->
       Cell (NewTree (mkChilds a b c d)) x y = Cell t x y).
Proof.
  intros W L. pose proof (rep_self t W) as R. rewrite L in R.
  destruct (centeredSubnode_rep _ _ _ _ _ R) as (r & E & Rr).
  assert (Cget : forall i j, 0 <= i < 2 ^ Z.of_nat (S l) -> 0 <= j < 2 ^ Z.of_nat (S l) ->
            get r i j = get t (2 ^ Z.of_nat l + i) (2 ^ Z.of_nat l + j)).
  { intros i j Hi Hj. destruct Rr as (_ & _ & G). rewrite G by assumption. rewrite !Z.add_0_l. reflexivity. }
  assert (Ccell : (S (S l) <= 64)%nat -> forall x y, in_box (S l) x y -> Cell r x y = Cell t x y).
  { intros H64 x y Hin. destruct Rr as (Wr & Lr & _).
    pose proof (pow_S l). pose proof (pow_pos_nat l).
    assert (Hin2 : in_box (S (S l)) x y).
    { apply in_box_S in Hin. apply in_box_S. unfold int64 in *. lia. }
    rewrite (Cell_get r l x y Wr Lr ltac:(lia) Hin), (Cell_get t (S l) x y W L H64 Hin2).
    apply in_box_S in Hin. rewrite Cget by lia.
    replace (2 ^ Z.of_nat l + (x + 2 ^ Z.of_nat l)) with (x + 2 ^ Z.of_nat (S l)) by lia.
    replace (2 ^ Z.of_nat l + (y + 2 ^ Z.of_nat l)) with (y + 2 ^ Z.of_nat (S l)) by lia.
    reflexivity. }
  destruct (rep_node _ _ _ _ _ R) as (p & se & sw & nw & ne & -> & Rse & Rsw & Rnw & Rne).
  destruct (rep_node _ _ _ _ _ Rse) as (? & ? & ? & a & ? & -> & _).
  destruct (rep_node _ _ _ _ _ Rsw) as (? & ? & ? & ? & b & -> & _).
  destruct (rep_node _ _ _ _ _ Rnw) as (? & c & ? & ? & ? & -> & _).
  destruct (rep_node _ _ _ _ _ Rne) as (? & ? & d & ? & ? & -> & _).
  cbn in E. injection E as <-.
  exists a, b, c, d. repeat split; first [reflexivity | exact Cget | exact Ccell].
Qed.

Lemma centeredSubnode_quarter_witness :
  wf Examples.blinker /\ Level Examples.blinker = S (S 1) /\
  exists a b c d, centeredSubnode Examples.blinker = Some (NewTree (mkChilds a b c d)).
Proof.
  pose proof blinker_wf as W.
  assert (L : Level Examples.blinker = S (S 1)) by reflexivity.
  split; [exact W|]. split; [exact L|].
  destruct (centeredSubnode_quarter Examples.blinker 1 W L) as (a & b & c & d & _ & _ & _ & _ & E & _).
  exists a, b, c, d. exact E.
Defined.

(** C8 (counterexample): [GrowToFit] does not reach every coordinate
    pair: from the level-1 empty tree, [(2^62, 0)] is outside the box of
    level 63, the largest [grow] builds, and the call panics. *)
Lemma GrowToFit_escape :
  wf (EmptyTree 1) /\ Level (EmptyTree 1) = 1%nat /\ int64 (2 ^ 62) /\
  GrowToFit (EmptyTree 1) (2 ^ 62) 0 = None.
Proof.
  destruct (EmptyTree_props 1 ltac:(lia)) as (W & L & _).
  assert (Hx : int64 (2 ^ 62)) by (unfold int64; split; vm_compute; first [reflexivity | discriminate]).
  split; [exact W|]. split; [exact L|]. split; [exact Hx|].
  assert (Hy : int64 0) by (unfold int64; lia).
  assert (B : ~ in_box 63 (2 ^ 62) 0)
    by (rewrite in_box_S; intros (_ & _ & H & _); change (Z.of_nat 62) with 62 in H; lia).
  apply (GrowToFit_loop_outside 62); auto; rewrite L; lia.
Qed.

(** C8 (amended): let [t] be well formed of level [1 <= L <= 63] and
    [(x, y)] a pair of 64-bit integers. If [(x, y)] lies in the box of
    level 63, [GrowToFit t x y] is [t] grown [k] times, for the least [k]
    such that the box of level [L + k] holds [(x, y)] (so at most [63 - L]
    times); it is [t] itself when [t]'s box already holds [(x, y)]; it
    holds the cells of [t]; and [GrowToFit] returns it unchanged on the
    same pair. Otherwise [GrowToFit t x y] panics. *)
Theorem GrowToFit_spec (t : Quadtree) (x y : Z) :
  wf t -> (1 <= Level t <= 63)%nat -> int64 x -> int64 y ->
  (in_box 63 x y ->
   exists k g, GrowToFit t x y = Some g /\ grow_n k t = Some g /\
     Level g = (Level t + k)%nat /\ in_box (Level g) x y /\
     (forall k', (k' < k)%nat -> ~ in_box (Level t + k') x y) /\
     (in_box (Level t) x y -> g = t) /\
     (forall x' y', in_box (Level g) x' y' -> Cell g x' y' = Some (if alive_in t x' y' then 1 else 0)) /\
     GrowToFit g x y = Some g) /\
  (~ in_box 63 x y -> GrowToFit t x y = None).
Proof.
  intros W HL Hx Hy. split.
  - intros B63.
    destruct (least_level (Level t) x y (63 - Level t)) as (k & Hk & Bk & Mk);
      [replace (Level t + (63 - Level t))%nat with 63%nat by lia; exact B63|].
    destruct (GrowToFit_loop_least k t 64 x y W ltac:(lia) ltac:(lia) Hx Hy Bk Mk ltac:(lia))
      as (g & Eg & Fg & Wg & Lg).
    exists k, g. split; [exact Fg|]. split; [exact Eg|]. split; [exact Lg|].
    split; [rewrite Lg; exact Bk|]. split; [exact Mk|]. split.
    + intros B0. destruct k as [|k].
      * simpl in Eg. injection Eg as ->. reflexivity.
      * exfalso. apply (Mk 0%nat); [lia|]. rewrite Nat.add_0_r. exact B0.
    + split.
      * destruct (Level t) as [|m] eqn:L; [lia|].
        destruct (grow_n_pattern k t m (alive_in t) ltac:(lia)
                    (rep_alive_in t m W L ltac:(lia))) as (g' & Eg' & (_ & _ & Gg)).
        { intros x' y' A. apply alive_in_box in A. rewrite L, in_box_S in A. lia. }
        rewrite Eg in Eg'. injection Eg' as <-.
        intros x' y' B. rewrite Lg in B. simpl Nat.add in B, Gg.
        rewrite (Cell_get g (m + k) x' y' Wg ltac:(rewrite Lg; reflexivity) ltac:(lia) B).
        pose proof B as B'. apply in_box_S in B'. pose proof (pow_S (m + k)).
        rewrite Gg by lia.
        replace (- 2 ^ Z.of_nat (m + k) + (x' + 2 ^ Z.of_nat (m + k))) with x' by lia.
        replace (- 2 ^ Z.of_nat (m + k) + (y' + 2 ^ Z.of_nat (m + k))) with y' by lia.
        reflexivity.
      * unfold GrowToFit.
        destruct (GrowToFit_loop_least 0 g 64 x y Wg ltac:(lia) ltac:(lia) Hx Hy)
          as (g' & E0 & F0 & _ & _); [rewrite Nat.add_0_r, Lg; exact Bk | intros; lia | lia |].
        simpl in E0. injection E0 as <-. exact F0.
  - intros B. apply (GrowToFit_loop_outside (63 - Level t)); auto; lia.
Qed.

Lemma GrowToFit_spec_witness :
  wf Examples.blinker /\ (1 <= Level Examples.blinker <= 63)%nat /\ int64 5 /\ int64 0 /\
  exists k g, GrowToFit Examples.blinker 5 0 = Some g /\ grow_n k Examples.blinker = Some g /\
     Level g = (Level Examples.blinker + k)%nat /\ in_box (Level g) 5 0 /\
     (forall k', (k' < k)%nat -> ~ in_box (Level Examples.blinker + k') 5 0) /\
     (in_box (Level Examples.blinker) 5 0 -> g = Examples.blinker) /\
     (forall x' y', in_box (Level g) x' y' ->
        Cell g x' y' = Some (if alive_in Examples.blinker x' y' then 1 else 0)) /\
     GrowToFit g 5 0 = Some g.
Proof.
  pose proof blinker_wf as W.
  assert (L : (1 <= Level Examples.blinker <= 63)%nat) by (vm_compute; lia).
  assert (Hx : int64 5) by (unfold int64; lia).
  assert (Hy : int64 0) by (unfold int64; lia).
  assert (B : in_box 63 5 0) by (rewrite in_box_S; change (Z.of_nat 62) with 62; unfold int64; lia).
  split; [exact W|]. split; [exact L|]. split; [exact Hx|]. split; [exact Hy|].
  exact (proj1 (GrowToFit_spec Examples.blinker 5 0 W L Hx Hy) B).
Defined.

End TreeClaims.

Module HeapFacts.
Import Heap.

(** ** The monad *)

Lemma bind_Some_inv {A B : Type} (m : M A) (k : A -> M B) (s : state) (b : B) (s' : state) :
  bind m k s = Some (b, s') -> exists a s1, m s = Some (a, s1) /\ k a s1 = Some (b, s').
Proof. unfold bind. destruct (m s) as [[a s1]|]; [intros H; eauto | discriminate]. Qed.

Lemma heap_bind_Some {A B : Type} (m : M A) (k : A -> M B) (s : state) (a : A) (s1 : state) :
  m s = Some (a, s1) -> bind m k s = k a s1.
Proof. unfold bind. intros ->. reflexivity. Qed.

Lemma load_inv (p : ptr) (s s' : state) (n : Quadtree) :
  load p s = Some (n, s') -> heap s !! p = Some n /\ s' = s.
Proof. unfold load. destruct (heap s !! p); [intros H; injection H as -> ->; auto | discriminate]. Qed.

Lemma load_ok (p : ptr) (s : state) (n : Quadtree) : heap s !! p = Some n -> load p s = Some (n, s).
Proof. unfold load. intros ->. reflexivity. Qed.

(** Runs the loads of known nodes in the goal or in [H]. *)
Ltac run_loads :=
  repeat (match goal with E : heap ?s !! ?p = Some ?n |- context [load ?p ?s] =>
            rewrite (load_ok p s n E) end; cbv beta iota).
Ltac run_loads_in H :=
  repeat (match goal with E : heap ?s !! ?p = Some ?n, H' : context [load ?p ?s] |- _ =>
            match H' with H => rewrite (load_ok p s n E) in H end end; cbv beta iota in H).

(** Splits [bind m k s = Some _] at its first action. *)
Ltac split_bind_as H E :=
  let a := fresh "a" in let s1 := fresh "s" in
  apply bind_Some_inv in H; destruct H as (a & s1 & E & H).
Ltac split_bind H :=
  let a := fresh "a" in let s1 := fresh "s" in let E := fresh "E" in
  apply bind_Some_inv in H; destruct H as (a & s1 & E & H).

(** ** Heap extension *)

Lemma same_node_refl (n : Quadtree) : same_node n n.
Proof. split; [|split]; reflexivity. Qed.

Lemma hext_refl (h : gmap ptr Quadtree) : hext h h.
Proof. intros p n H. exists n. split; [exact H | apply same_node_refl]. Qed.

Lemma hext_trans (h1 h2 h3 : gmap ptr Quadtree) : hext h1 h2 -> hext h2 h3 -> hext h1 h3.
Proof.
  intros H12 H23 p n H. destruct (H12 p n H) as (n2 & E2 & (L2 & C2 & P2)).
  destruct (H23 p n2 E2) as (n3 & E3 & (L3 & C3 & P3)).
  exists n3. split; [exact E3|]. split; [congruence|]. split; congruence.
Qed.

Lemma has_level_hext (s s' : state) (p : ptr) (L : nat) :
  hext (heap s) (heap s') -> has_level s p L -> has_level s' p L.
Proof.
  intros Hx (n & E & L'). destruct (Hx p n E) as (n' & E' & (Ln & _ & _)).
  exists n'. split; [exact E' | congruence].
Qed.

Lemma node_ok_hext (h h' : gmap ptr Quadtree) (n : Quadtree) :
  hext h h' -> node_ok h n -> node_ok h' n.
Proof.
  intros Hx (se & sw & nw & ne & Ese & Esw & Enw & Ene & L & Lse & Lsw & Lnw & P).
  destruct (Hx _ _ Ese) as (se' & Ese' & (L1 & _ & P1)).
  destruct (Hx _ _ Esw) as (sw' & Esw' & (L2 & _ & P2)).
  destruct (Hx _ _ Enw) as (nw' & Enw' & (L3 & _ & P3)).
  destruct (Hx _ _ Ene) as (ne' & Ene' & (L4 & _ & P4)).
  exists se', sw', nw', ne'. repeat split; try assumption; congruence.
Qed.

Lemma hext_insert_fresh (h : gmap ptr Quadtree) (p : ptr) (n : Quadtree) :
  h !! p = None -> hext h (<[p := n]> h).
Proof.
  intros Hp q m Hq. exists m. split; [|apply same_node_refl].
  rewrite lookup_insert_ne; [exact Hq|]. intros ->. congruence.
Qed.

(** ** Leaves and nil *)

Lemma Inv_nil_level (s : state) (L : nat) : Inv s -> ~ has_level s nil L.
Proof. intros I (n & E & _). rewrite (inv_nil s I) in E. discriminate. Qed.

Lemma Inv_alloc_ne (s : state) (p : ptr) (n : Quadtree) :
  Inv s -> heap s !! p = Some n -> p <> nextPtr s.
Proof. intros I E ->. rewrite (inv_fresh s I (nextPtr s) ltac:(lia)) in E. discriminate. Qed.

Lemma Inv_leaf_childs (s : state) (p : ptr) (n : Quadtree) :
  Inv s -> heap s !! p = Some n -> Level n = 0%nat -> childs n = mkChilds nil nil nil nil.
Proof.
  intros I E L. destruct (inv_leaf s I p n E L) as [->| ->].
  - rewrite (inv_live s I) in E. injection E as <-. reflexivity.
  - rewrite (inv_dead s I) in E. injection E as <-. reflexivity.
Qed.

(** A field read [p.d] on a node of level [L]: [nil] on a leaf, a node
    one level down otherwise. *)
Lemma child_level (d : Childs -> ptr) (s s' : state) (p q : ptr) (L : nat) :
  (d = SE \/ d = SW \/ d = NW \/ d = NE) -> Inv s -> has_level s p L ->
  (let* qt := load p in ret (d (childs qt))) s = Some (q, s') ->
  s' = s /\ ((L = 0%nat /\ q = nil) \/ exists L', L = S L' /\ has_level s q L').
Proof.
  intros Hd I (n & E & Ln) H. unfold bind in H. rewrite (load_ok _ _ _ E) in H.
  unfold ret in H. injection H as <- <-. split; [reflexivity|].
  destruct (Nat.eq_dec (Level n) 0%nat) as [L0|L0].
  - left. split; [lia|]. rewrite (Inv_leaf_childs s p n I E L0).
    destruct Hd as [->|[->|[->| ->]]]; reflexivity.
  - right. destruct (inv_node s I p n E L0) as (se & sw & nw & ne & Ese & Esw & Enw & Ene & Lv & Lse & Lsw & Lnw & _).
    exists (Level ne). split; [lia|].
    destruct Hd as [->|[->|[->| ->]]]; eexists; split; eauto.
Qed.

(** ** [NewTree] *)

Lemma NewTree_hit (ch : Childs) (s : state) (q : ptr) :
  nodeMap s !! ch = Some q -> NewTree ch s = Some (q, s).
Proof. intros H. unfold NewTree, bind, lookupNode. rewrite H. reflexivity. Qed.

Lemma NewTree_nil (ch : Childs) (s : state) :
  Inv s -> (SE ch = nil \/ SW ch = nil \/ NW ch = nil \/ NE ch = nil) -> NewTree ch s = None.
Proof.
  intros I Hn. unfold NewTree, bind, lookupNode.
  destruct (nodeMap s !! ch) as [q|] eqn:Hm.
  - exfalso. destruct (inv_map s I ch q Hm) as (n & E & <- & L0).
    destruct (inv_node s I q n E L0) as (se & sw & nw & ne & Ese & Esw & Enw & Ene & _).
    pose proof (inv_nil s I) as Hnil. destruct Hn as [Hc|[Hc|[Hc|Hc]]]; rewrite Hc in *; congruence.
  - unfold population, bind, load. pose proof (inv_nil s I) as Hnil.
    destruct Hn as [Hc|[Hc|[Hc|Hc]]]; rewrite Hc;
      repeat first [ rewrite Hnil | match goal with |- context [heap s !! ?k] => destruct (heap s !! k) end ];
      reflexivity.
Qed.

Lemma NewTree_ok (ch : Childs) (s : state) :
  (exists n, heap s !! SE ch = Some n) -> (exists n, heap s !! SW ch = Some n) ->
  (exists n, heap s !! NW ch = Some n) -> (exists n, heap s !! NE ch = Some n) ->
  exists p s', NewTree ch s = Some (p, s').
Proof.
  intros [se Ese] [sw Esw] [nw Enw] [ne Ene]. unfold NewTree, bind, lookupNode.
  destruct (nodeMap s !! ch) as [q|]; [eexists _, _; reflexivity|].
  unfold population, bind. run_loads.
  unfold alloc, register, ret. cbv beta iota zeta.
  match goal with |- context [if ?b then _ else _] => destruct b end; eexists _, _; reflexivity.
Qed.

Lemma NewTree_spec (ch : Childs) (s s' : state) (p : ptr) (L : nat) :
  Inv s -> has_level s (SE ch) L -> has_level s (SW ch) L -> has_level s (NW ch) L -> has_level s (NE ch) L ->
  NewTree ch s = Some (p, s') ->
  Inv s' /\ hext (heap s) (heap s') /\
  exists n, heap s' !! p = Some n /\ Level n = S L /\ childs n = ch.
Proof.
  intros I (se & Ese & Lse) (sw & Esw & Lsw) (nw & Enw & Lnw) (ne & Ene & Lne) H.
  unfold NewTree, bind, lookupNode in H.
  destruct (nodeMap s !! ch) as [q|] eqn:Hm.
  - unfold ret in H. injection H as <- <-. split; [exact I|]. split; [apply hext_refl|].
    destruct (inv_map s I ch q Hm) as (n & E & Ch & L0). exists n. split; [exact E|]. split; [|exact Ch].
    destruct (inv_node s I q n E L0) as (se' & sw' & nw' & ne' & _ & _ & _ & Ene' & Lv & _).
    rewrite Ch, Ene in Ene'. injection Ene' as <-. lia.
  - unfold population, bind, ret in H.
    run_loads_in H.
    unfold alloc in H. cbv beta iota zeta in H.
    set (pop := wrap64 (Population se + Population sw + Population nw + Population ne)) in H.
    set (qt := mkQuadtree (S (Level ne)) ch pop nil) in H.
    set (np := nextPtr s) in H.
    assert (Fresh : heap s !! np = None) by (apply (inv_fresh s I); lia).
    assert (Hx : hext (heap s) (<[np := qt]> (heap s))) by (apply hext_insert_fresh; exact Fresh).
    assert (Nok : node_ok (<[np := qt]> (heap s)) qt).
    { apply (node_ok_hext (heap s)); [exact Hx|].
      exists se, sw, nw, ne. simpl. repeat split; auto; lia. }
    assert (Hnp : np <> nil) by (intros E; pose proof (inv_live s I) as E1;
                                 rewrite (inv_fresh s I liveLeaf) in E1; [discriminate|];
                                 unfold np in E; unfold nil in E; unfold liveLeaf; lia).
    assert (Look : forall q m, heap s !! q = Some m -> q <> np)
      by (intros q m Eq ->; congruence).
    assert (Common : forall nm : NodeMap,
      (forall k r, nm !! k = Some r -> nodeMap s !! k = Some r \/ (k = ch /\ r = np)) ->
      (forall r m, heap s !! r = Some m -> Level m <> 0%nat -> (Population m = 0 \/ (Level m <= 16)%nat) ->
         nm !! childs m = Some r) ->
      ((pop = 0 \/ (S (Level ne) <= 16)%nat) -> nm !! ch = Some np) ->
      Inv (mkState (<[np := qt]> (heap s)) nm (N.succ np))).
    { intros nm Hsub Hold Hnew. constructor; simpl.
      - rewrite lookup_insert_ne; [apply (inv_live s I)|]. apply not_eq_sym, (Look _ _ (inv_live s I)).
      - rewrite lookup_insert_ne; [apply (inv_dead s I)|]. apply not_eq_sym, (Look _ _ (inv_dead s I)).
      - rewrite lookup_insert_ne; [apply (inv_nil s I)|]. exact Hnp.
      - intros r Hr. rewrite lookup_insert_ne by lia. apply (inv_fresh s I). unfold np in Hr. lia.
      - intros r m Er Lm. destruct (decide (r = np)) as [->|Ne].
        + rewrite lookup_insert_eq in Er. injection Er as <-. simpl in Lm. lia.
        + rewrite lookup_insert_ne in Er by congruence. exact (inv_leaf s I r m Er Lm).
      - intros r m Er Lm. destruct (decide (r = np)) as [->|Ne].
        + rewrite lookup_insert_eq in Er. injection Er as <-. exact Nok.
        + rewrite lookup_insert_ne in Er by congruence.
          exact (node_ok_hext _ _ _ Hx (inv_node s I r m Er Lm)).
      - intros r m Er Nn. destruct (decide (r = np)) as [->|Ne].
        + rewrite lookup_insert_eq in Er. injection Er as <-. simpl in Nn. congruence.
        + rewrite lookup_insert_ne in Er by congruence.
          destruct (inv_next s I r m Er Nn) as (m' & Em' & Lm').
          exists m'. split; [|exact Lm']. rewrite lookup_insert_ne; [exact Em'|].
          exact (not_eq_sym (Look _ _ Em')).
      - intros k r Ek. destruct (Hsub k r Ek) as [Ok|[-> ->]].
        + destruct (inv_map s I k r Ok) as (m & Em & Cm & Lm). exists m.
          split; [|split; assumption]. rewrite lookup_insert_ne; [exact Em|].
          exact (not_eq_sym (Look _ _ Em)).
        + exists qt. rewrite lookup_insert_eq. repeat split; simpl; auto.
      - intros r m Er Lm Em. destruct (decide (r = np)) as [->|Ne].
        + rewrite lookup_insert_eq in Er. injection Er as <-. simpl in *. apply Hnew. exact Em.
        + rewrite lookup_insert_ne in Er by congruence. exact (Hold r m Er Lm Em). }
    assert (Post : heap (mkState (<[np := qt]> (heap s)) (nodeMap s) (N.succ np)) !! np = Some qt)
      by (simpl; apply lookup_insert_eq).
    match type of H with context [if ?b then _ else _] => destruct b eqn:Elig end.
    + unfold register, ret in H. cbv beta iota in H. injection H as <- <-. cbn [nodeMap heap nextPtr].
      split; [|split; [exact Hx|]].
      * apply Common.
        -- intros k r Ek. cbn [nodeMap heap nextPtr] in Ek. destruct (decide (k = ch)) as [->|Nk].
           ++ rewrite lookup_insert_eq in Ek. injection Ek as <-. right. auto.
           ++ rewrite lookup_insert_ne in Ek by congruence. left. exact Ek.
        -- intros r m Er Lm Em. pose proof (inv_interned s I r m Er Lm Em) as Ir.
           rewrite lookup_insert_ne; [exact Ir|]. intros Ec. rewrite <- Ec in Ir. congruence.
        -- intros _. apply lookup_insert_eq.
      * exists qt. simpl. rewrite lookup_insert_eq. repeat split. simpl. lia.
    + unfold ret in H. injection H as <- <-.
      split; [|split; [exact Hx|]].
      * apply Common.
        -- intros k r Ek. left. exact Ek.
        -- intros r m Er Lm Em. exact (inv_interned s I r m Er Lm Em).
        -- intros [E0|E16]; exfalso; apply orb_false_iff in Elig as [A B];
             [apply Z.eqb_neq in A; contradiction | apply Nat.leb_nle in B; contradiction].
      * exists qt. exact (conj Post (conj (f_equal S Lne) eq_refl)).
Qed.

End HeapFacts.

Module HeapOpsFacts.
Import Heap HeapFacts.

Lemma node_at_hext (s s' : state) (p : ptr) (L : nat) (ch : Childs) :
  hext (heap s) (heap s') -> node_at s p L ch -> node_at s' p L ch.
Proof.
  intros Hx (n & E & Ln & Cn). destruct (Hx p n E) as (n' & E' & (L' & C' & _)).
  exists n'. split; [exact E'|]. split; congruence.
Qed.

Lemma node_at_level (s : state) (p : ptr) (L : nat) (ch : Childs) :
  node_at s p L ch -> has_level s p L.
Proof. intros (n & E & Ln & _). exists n. auto. Qed.

(** Moves the facts about the state [s] to the state [s1] along [Hx]. *)
Ltac fwd Hx :=
  match type of Hx with
  | hext (heap ?s) (heap ?s1) =>
      repeat match goal with
      | H : has_level s ?p ?L |- _ => apply (has_level_hext s s1 p L Hx) in H
      | H : node_at s ?p ?L ?ch |- _ => apply (node_at_hext s s1 p L ch Hx) in H
      | H : hext (heap ?s0) (heap s) |- _ => pose proof (hext_trans _ _ _ H Hx); clear H
      end; clear Hx
  end.

Lemma readonly_load (p : ptr) : readonly (load p).
Proof. intros s a s' H. exact (proj2 (load_inv _ _ _ _ H)). Qed.

Lemma readonly_ret {A : Type} (a : A) : readonly (ret a).
Proof. intros s b s' H. unfold ret in H. injection H as _ <-. reflexivity. Qed.

Lemma readonly_bind {A B : Type} (m : M A) (k : A -> M B) :
  readonly m -> (forall a, readonly (k a)) -> readonly (bind m k).
Proof.
  intros Hm Hk s b s' H. split_bind H. apply Hm in E. apply Hk in H. congruence.
Qed.

Lemma has_level_ex (s : state) (p : ptr) (n : Quadtree) : heap s !! p = Some n -> has_level s p (Level n).
Proof. intros E. exists n. auto. Qed.

Lemma has_level_leaf (s : state) (p : ptr) : Inv s -> p = liveLeaf \/ p = deadLeaf -> has_level s p 0.
Proof.
  intros I [->| ->]; [exists (leafNode 1); split; [apply (inv_live s I) | reflexivity]
                    | exists (leafNode 0); split; [apply (inv_dead s I) | reflexivity]].
Qed.

Lemma field_nil (d : Childs -> ptr) (s : state) :
  Inv s -> (let* qt := load nil in ret (d (childs qt))) s = None.
Proof. intros I. unfold bind, load. rewrite (inv_nil s I). reflexivity. Qed.

(** ** [EmptyTree] *)

Lemma uadd_is_zero_false (v k : nat) : (N.of_nat v + N.of_nat k < 2 ^ 64)%N -> (0 < k)%nat -> uadd_is_zero v k = false.
Proof.
  intros H Hk. unfold uadd_is_zero. apply N.eqb_neq. rewrite N.mod_small by exact H. lia.
Qed.

Lemma EmptyTree_spec (k : nat) : forall s p s',
  Inv s -> EmptyTree k s = Some (p, s') ->
  Inv s' /\ hext (heap s) (heap s') /\ exists n, heap s' !! p = Some n /\
    ((N.of_nat k + 2 < 2 ^ 64)%N -> Level n = k).
Proof.
  induction k as [|k IH]; intros s p s' I H; simpl in H.
  - unfold ret in H. injection H as <- <-. split; [exact I|]. split; [apply hext_refl|].
    exists (leafNode 0). split; [apply (inv_dead s I) | reflexivity].
  - destruct (uadd_is_zero (S k) 1 || uadd_is_zero (S k) 2) eqn:U.
    + unfold ret in H. injection H as <- <-. split; [exact I|]. split; [apply hext_refl|].
      exists (leafNode 0). split; [apply (inv_dead s I)|]. intros Hk.
      rewrite !uadd_is_zero_false in U by lia. discriminate.
    + split_bind H. destruct (IH s a s0 I E) as (I0 & Hx0 & (nc & Ec & Lc)).
      pose proof (has_level_ex _ _ _ Ec) as Hc.
      destruct (NewTree_spec (mkChilds a a a a) _ _ _ _ I0 Hc Hc Hc Hc H) as (I1 & Hx1 & (n & En & Ln & _)).
      split; [exact I1|]. split; [exact (hext_trans _ _ _ Hx0 Hx1)|].
      exists n. split; [exact En|]. intros Hk. rewrite Ln, Lc by lia. reflexivity.
Qed.

(** ** Field reads *)

Lemma node_children (s : state) (p : ptr) (n : Quadtree) :
  Inv s -> heap s !! p = Some n -> Level n <> 0%nat ->
  exists L, Level n = S L /\ has_level s (SE (childs n)) L /\ has_level s (SW (childs n)) L /\
    has_level s (NW (childs n)) L /\ has_level s (NE (childs n)) L.
Proof.
  intros I E L0. destruct (inv_node s I p n E L0) as (se & sw & nw & ne & Ese & Esw & Enw & Ene & Lv & Lse & Lsw & Lnw & _).
  exists (Level ne). split; [exact Lv|].
  split; [exists se|split; [exists sw|split; [exists nw|exists ne]]]; auto.
Qed.

Lemma grandchild (d1 d2 : Childs -> ptr) (s s' : state) (p q : ptr) (L : nat) :
  (d1 = SE \/ d1 = SW \/ d1 = NW \/ d1 = NE) -> (d2 = SE \/ d2 = SW \/ d2 = NW \/ d2 = NE) ->
  Inv s -> has_level s p L ->
  ((let* qt := load p in ret (d1 (childs qt))) >>= (fun a => let* qt := load a in ret (d2 (childs qt)))) s
    = Some (q, s') ->
  s' = s /\ (q = nil \/ exists L', L = S (S L') /\ has_level s q L').
Proof.
  intros H1 H2 I Hp H. split_bind H.
  destruct (child_level d1 _ _ _ _ _ H1 I Hp E) as [-> [[-> ->]|(L1 & -> & Ha)]].
  - rewrite field_nil in H by exact I. discriminate.
  - destruct (child_level d2 _ _ _ _ _ H2 I Ha H) as [-> [[-> ->]|(L2 & -> & Hq)]].
    + split; [reflexivity|]. left; reflexivity.
    + split; [reflexivity|]. right. eauto.
Qed.

Lemma greatgrandchild (d1 d2 d3 : Childs -> ptr) (s s' : state) (p q : ptr) (L : nat) :
  (d1 = SE \/ d1 = SW \/ d1 = NW \/ d1 = NE) -> (d2 = SE \/ d2 = SW \/ d2 = NW \/ d2 = NE) ->
  (d3 = SE \/ d3 = SW \/ d3 = NW \/ d3 = NE) ->
  Inv s -> has_level s p L ->
  ((let* qt := load p in ret (d1 (childs qt))) >>= (fun a => let* qt := load a in ret (d2 (childs qt)))
     >>= (fun a => let* qt := load a in ret (d3 (childs qt)))) s = Some (q, s') ->
  s' = s /\ (q = nil \/ exists L', L = S (S (S L')) /\ has_level s q L').
Proof.
  intros H1 H2 H3 I Hp H. split_bind H.
  destruct (grandchild d1 d2 _ _ _ _ _ H1 H2 I Hp E) as [-> [->|(L1 & -> & Ha)]].
  - rewrite field_nil in H by exact I. discriminate.
  - destruct (child_level d3 _ _ _ _ _ H3 I Ha H) as [-> [[-> ->]|(L2 & -> & Hq)]].
    + split; [reflexivity|]. left; reflexivity.
    + split; [reflexivity|]. right. eauto.
Qed.

Ltac quad := first [left; reflexivity | right; left; reflexivity | right; right; left; reflexivity
                   | right; right; right; reflexivity].

(** [NewTree] on four reads that are nil or of the levels found. *)
Lemma NewTree_reads (s s' : state) (se sw nw ne q : ptr) (L1 L2 L3 L4 : nat) (L : nat) :
  Inv s ->
  (se = nil \/ exists L', L1 = S L' /\ has_level s se L') ->
  (sw = nil \/ exists L', L2 = S L' /\ has_level s sw L') ->
  (nw = nil \/ exists L', L3 = S L' /\ has_level s nw L') ->
  (ne = nil \/ exists L', L4 = S L' /\ has_level s ne L') ->
  L1 = L -> L2 = L -> L3 = L -> L4 = L ->
  NewTree (mkChilds se sw nw ne) s = Some (q, s') ->
  Inv s' /\ hext (heap s) (heap s') /\ exists L', L = S L' /\ has_level s' q L.
Proof.
  intros I Hse Hsw Hnw Hne -> -> -> E1 H.
  destruct Hse as [->|(La & -> & Ha)]; [rewrite NewTree_nil in H by (auto; simpl; tauto); discriminate|].
  destruct Hsw as [->|(Lb & Eb & Hb)]; [rewrite NewTree_nil in H by (auto; simpl; tauto); discriminate|].
  destruct Hnw as [->|(Lc & Ec & Hc)]; [rewrite NewTree_nil in H by (auto; simpl; tauto); discriminate|].
  destruct Hne as [->|(Ld & Ed & Hd)]; [rewrite NewTree_nil in H by (auto; simpl; tauto); discriminate|].
  assert (Lb = La) by lia. assert (Lc = La) by lia. assert (Ld = La) by lia. subst.
  destruct (NewTree_spec (mkChilds se sw nw ne) _ _ _ La I Ha Hb Hc Hd H) as (I' & Hx & (n & En & Ln & _)).
  split; [exact I'|]. split; [exact Hx|]. exists La. split; [reflexivity|]. exists n. auto.
Qed.

Ltac conv R :=
  let L0 := fresh "L" in let EL0 := fresh "EL" in let HL0 := fresh "HL" in
  destruct R as [?|(L0 & EL0 & HL0)]; [left; assumption | right; exists L0; split; [lia | exact HL0]].

(** ** The centering helpers *)

Lemma centeredSubnode_spec (s s' : state) (p q : ptr) (L : nat) :
  Inv s -> has_level s p L -> centeredSubnode p s = Some (q, s') ->
  Inv s' /\ hext (heap s) (heap s') /\ exists L', L = S (S L') /\ has_level s' q (S L').
Proof.
  intros I Hp H. unfold centeredSubnode in H.
  split_bind H. destruct (grandchild SE NW _ _ _ _ _ ltac:(quad) ltac:(quad) I Hp E) as [-> Ra].
  split_bind H. destruct (grandchild SW NE _ _ _ _ _ ltac:(quad) ltac:(quad) I Hp E0) as [-> Rb].
  split_bind H. destruct (grandchild NW SE _ _ _ _ _ ltac:(quad) ltac:(quad) I Hp E1) as [-> Rc].
  split_bind H. destruct (grandchild NE SW _ _ _ _ _ ltac:(quad) ltac:(quad) I Hp E2) as [-> Rd].
  destruct L as [|L]; [destruct Ra as [->|(? & ? & _)]; [rewrite NewTree_nil in H by (auto; simpl; tauto); discriminate | lia]|].
  destruct (NewTree_reads s s' a a0 a1 a2 q L L L L L I) as (I' & Hx & (L' & EL & Hq));
    [conv Ra | conv Rb | conv Rc | conv Rd | reflexivity | reflexivity | reflexivity | reflexivity | exact H |].
  split; [exact I'|]. split; [exact Hx|]. exists L'. split; [lia|]. rewrite <- EL. exact Hq.
Qed.

Lemma centeredHorizontal_spec (s s' : state) (w e q : ptr) (L : nat) :
  Inv s -> has_level s w L -> has_level s e L -> centeredHorizontal w e s = Some (q, s') ->
  Inv s' /\ hext (heap s) (heap s') /\ exists L', L = S (S L') /\ has_level s' q (S L').
Proof.
  intros I Hw He H. unfold centeredHorizontal in H.
  split_bind H. destruct (grandchild SW NW _ _ _ _ _ ltac:(quad) ltac:(quad) I He E) as [-> Ra].
  split_bind H. destruct (grandchild NW SW _ _ _ _ _ ltac:(quad) ltac:(quad) I He E0) as [-> Rd].
  split_bind H. destruct (grandchild SE NE _ _ _ _ _ ltac:(quad) ltac:(quad) I Hw E1) as [-> Rb].
  split_bind H. destruct (grandchild NE SE _ _ _ _ _ ltac:(quad) ltac:(quad) I Hw E2) as [-> Rc].
  destruct L as [|L]; [destruct Ra as [->|(? & ? & _)]; [rewrite NewTree_nil in H by (auto; simpl; tauto); discriminate | lia]|].
  destruct (NewTree_reads s s' a a1 a2 a0 q L L L L L I) as (I' & Hx & (L' & EL & Hq));
    [conv Ra | conv Rb | conv Rc | conv Rd | reflexivity | reflexivity | reflexivity | reflexivity | exact H |].
  split; [exact I'|]. split; [exact Hx|]. exists L'. split; [lia|]. rewrite <- EL. exact Hq.
Qed.

Lemma centeredVertical_spec (s s' : state) (n so q : ptr) (L : nat) :
  Inv s -> has_level s n L -> has_level s so L -> centeredVertical n so s = Some (q, s') ->
  Inv s' /\ hext (heap s) (heap s') /\ exists L', L = S (S L') /\ has_level s' q (S L').
Proof.
  intros I Hn Hs H. unfold centeredVertical in H.
  split_bind H. destruct (grandchild NE NW _ _ _ _ _ ltac:(quad) ltac:(quad) I Hs E) as [-> Ra].
  split_bind H. destruct (grandchild NW NE _ _ _ _ _ ltac:(quad) ltac:(quad) I Hs E0) as [-> Rb].
  split_bind H. destruct (grandchild SW SE _ _ _ _ _ ltac:(quad) ltac:(quad) I Hn E1) as [-> Rc].
  split_bind H. destruct (grandchild SE SW _ _ _ _ _ ltac:(quad) ltac:(quad) I Hn E2) as [-> Rd].
  destruct L as [|L]; [destruct Ra as [->|(? & ? & _)]; [rewrite NewTree_nil in H by (auto; simpl; tauto); discriminate | lia]|].
  destruct (NewTree_reads s s' a a0 a1 a2 q L L L L L I) as (I' & Hx & (L' & EL & Hq));
    [conv Ra | conv Rb | conv Rc | conv Rd | reflexivity | reflexivity | reflexivity | reflexivity | exact H |].
  split; [exact I'|]. split; [exact Hx|]. exists L'. split; [lia|]. rewrite <- EL. exact Hq.
Qed.

Lemma centeredSubSubnode_spec (s s' : state) (p q : ptr) (L : nat) :
  Inv s -> has_level s p L -> centeredSubSubnode p s = Some (q, s') ->
  Inv s' /\ hext (heap s) (heap s') /\ exists L', L = S (S (S L')) /\ has_level s' q (S L').
Proof.
  intros I Hp H. unfold centeredSubSubnode in H.
  split_bind H. destruct (greatgrandchild SE NW NW _ _ _ _ _ ltac:(quad) ltac:(quad) ltac:(quad) I Hp E) as [-> Ra].
  split_bind H. destruct (greatgrandchild SW NE NE _ _ _ _ _ ltac:(quad) ltac:(quad) ltac:(quad) I Hp E0) as [-> Rb].
  split_bind H. destruct (greatgrandchild NW SE SE _ _ _ _ _ ltac:(quad) ltac:(quad) ltac:(quad) I Hp E1) as [-> Rc].
  split_bind H. destruct (greatgrandchild NE SW SW _ _ _ _ _ ltac:(quad) ltac:(quad) ltac:(quad) I Hp E2) as [-> Rd].
  destruct L as [|[|L]];
    [destruct Ra as [->|(? & ? & _)]; [rewrite NewTree_nil in H by (auto; simpl; tauto); discriminate | lia]
    |destruct Ra as [->|(? & ? & _)]; [rewrite NewTree_nil in H by (auto; simpl; tauto); discriminate | lia]|].
  destruct (NewTree_reads s s' a a0 a1 a2 q L L L L L I) as (I' & Hx & (L' & EL & Hq));
    [conv Ra | conv Rb | conv Rc | conv Rd | reflexivity | reflexivity | reflexivity | reflexivity | exact H |].
  split; [exact I'|]. split; [exact Hx|]. exists L'. split; [lia|]. rewrite <- EL. exact Hq.
Qed.

Lemma centeredSubnode_nil (s : state) : Inv s -> centeredSubnode nil s = None.
Proof. intros I. unfold centeredSubnode, bind at 1, bind at 1, SE_of. rewrite field_nil by exact I. reflexivity. Qed.

(** ** Reading cells *)

Lemma findLeaf_go_readonly (f : nat) : forall p x y, readonly (findLeaf_go f p x y).
Proof.
  induction f as [|f IH]; intros p x y s a s' H; [discriminate|].
  simpl in H. split_bind H. apply load_inv in E as [_ ->].
  destruct (Level a0 =? 0)%nat.
  - destruct (Tree.leaf_ok x y); [exact (readonly_ret _ _ _ _ H) | discriminate].
  - repeat match type of H with context [if ?b then _ else _] => destruct b end; exact (IH _ _ _ _ _ _ H).
Qed.

Lemma Cell_readonly (p : ptr) (x y : Z) : readonly (Cell p x y).
Proof.
  unfold Cell, findLeaf. apply readonly_bind; [apply readonly_bind; [apply readonly_load | intros; apply findLeaf_go_readonly]|].
  intros a. apply readonly_bind; [apply readonly_load | intros; apply readonly_ret].
Qed.

Lemma packCell_fold_readonly (p : ptr) (l : list (Z * Z)) : forall acc,
  readonly acc -> readonly (fold_left (packCell p) l acc).
Proof.
  induction l as [|xy l IH]; intros acc Ha; simpl; [exact Ha|]. apply IH.
  unfold packCell. apply readonly_bind; [exact Ha|]. intros a.
  apply readonly_bind; [apply Cell_readonly | intros; apply readonly_ret].
Qed.

Lemma oneGen_leaf (b : Z) (s s' : state) (q : ptr) :
  oneGen b s = Some (q, s') -> s' = s /\ (q = liveLeaf \/ q = deadLeaf).
Proof.
  unfold oneGen. destruct (b =? 0).
  - unfold ret. intros H. injection H as <- <-. auto.
  - destruct (Tree.countBits _ _ _); [|discriminate]. unfold ret. intros H. injection H as <- <-.
    split; [reflexivity|]. destruct (_ || _); auto.
Qed.

Lemma slowSimulation_spec (s s' : state) (p q : ptr) (L : nat) :
  Inv s -> has_level s p L -> slowSimulation p s = Some (q, s') ->
  Inv s' /\ hext (heap s) (heap s') /\ L = 2%nat /\ has_level s' q 1.
Proof.
  intros I (n & En & Ln) H. unfold slowSimulation in H.
  split_bind H. apply load_inv in E as [E ->]. rewrite En in E. injection E as <-.
  destruct (Level n =? 2)%nat eqn:L2; [|discriminate]. apply Nat.eqb_eq in L2.
  simpl negb in H. cbv iota in H.
  split_bind H. apply (packCell_fold_readonly p Tree.slowCoords (ret 0) (readonly_ret 0)) in E as ->.
  split_bind H. apply oneGen_leaf in E as [-> Ha].
  split_bind H. apply oneGen_leaf in E as [-> Hb].
  split_bind H. apply oneGen_leaf in E as [-> Hc].
  split_bind H. apply oneGen_leaf in E as [-> Hd].
  destruct (NewTree_spec (mkChilds a0 a1 a2 a3) _ _ _ 0 I (has_level_leaf s _ I Ha) (has_level_leaf s _ I Hb)
              (has_level_leaf s _ I Hc) (has_level_leaf s _ I Hd) H) as (I' & Hx & (m & Em & Lm & _)).
  split; [exact I'|]. split; [exact Hx|]. split; [lia|]. exists m. auto.
Qed.

(** ** The memo [next] *)

Lemma set_next_spec (s s' : state) (p q : ptr) (L : nat) (u : unit) :
  Inv s -> has_level s p (S L) -> has_level s q L -> set_next p q s = Some (u, s') ->
  Inv s' /\ hext (heap s) (heap s').
Proof.
  intros I (n & En & Ln) (m & Em & Lm) H. unfold set_next in H. rewrite En in H. injection H as _ <-.
  set (n' := mkQuadtree (Level n) (childs n) (Population n) q).
  assert (Hx : hext (heap s) (<[p := n']> (heap s))).
  { intros r k Er. destruct (decide (r = p)) as [->|Ne].
    - rewrite En in Er. injection Er as <-. exists n'. rewrite lookup_insert_eq. split; [reflexivity|].
      split; [|split]; reflexivity.
    - exists k. rewrite lookup_insert_ne by congruence. split; [exact Er | apply same_node_refl]. }
  assert (Hp1 : p <> liveLeaf) by (intros ->; rewrite (inv_live s I) in En; injection En as <-; simpl in Ln; lia).
  assert (Hp2 : p <> deadLeaf) by (intros ->; rewrite (inv_dead s I) in En; injection En as <-; simpl in Ln; lia).
  split; [|exact Hx]. constructor; simpl.
  - rewrite lookup_insert_ne by congruence. apply (inv_live s I).
  - rewrite lookup_insert_ne by congruence. apply (inv_dead s I).
  - rewrite lookup_insert_ne; [apply (inv_nil s I)|]. intros ->. rewrite (inv_nil s I) in En. discriminate.
  - intros r Hr. rewrite lookup_insert_ne; [apply (inv_fresh s I r Hr)|].
    intros ->. rewrite (inv_fresh s I r Hr) in En. discriminate.
  - intros r k Er Lk. destruct (decide (r = p)) as [->|Ne].
    + rewrite lookup_insert_eq in Er. injection Er as <-. simpl in Lk. lia.
    + rewrite lookup_insert_ne in Er by congruence. exact (inv_leaf s I r k Er Lk).
  - intros r k Er Lk. destruct (decide (r = p)) as [->|Ne].
    + rewrite lookup_insert_eq in Er. injection Er as <-. apply (node_ok_hext _ _ _ Hx).
      exact (inv_node s I p n En Lk).
    + rewrite lookup_insert_ne in Er by congruence. exact (node_ok_hext _ _ _ Hx (inv_node s I r k Er Lk)).
  - intros r k Er Nk. destruct (decide (r = p)) as [->|Ne].
    + rewrite lookup_insert_eq in Er. injection Er as <-. simpl in *.
      destruct (Hx q m Em) as (m' & Em' & (Lm' & _ & _)). exists m'. split; [exact Em'|]. lia.
    + rewrite lookup_insert_ne in Er by congruence. destruct (inv_next s I r k Er Nk) as (m0 & Em0 & Lm0).
      destruct (Hx _ _ Em0) as (m' & Em' & (Lm' & _ & _)). exists m'. split; [exact Em'|]. lia.
  - intros ch r Ech. destruct (inv_map s I ch r Ech) as (k & Ek & Ck & Lk).
    destruct (Hx _ _ Ek) as (k' & Ek' & (Lk' & Ck' & _)). exists k'. split; [exact Ek'|]. split; congruence.
  - intros r k Er Lk Ek. destruct (decide (r = p)) as [->|Ne].
    + rewrite lookup_insert_eq in Er. injection Er as <-. simpl in *. exact (inv_interned s I p n En Lk Ek).
    + rewrite lookup_insert_ne in Er by congruence. exact (inv_interned s I r k Er Lk Ek).
Qed.

(** ** [NextGeneration] *)

Lemma NextGeneration_go_spec (f : nat) : forall s s' p q L,
  Inv s -> has_level s p L -> NextGeneration_go f p s = Some (q, s') ->
  Inv s' /\ hext (heap s) (heap s') /\ exists L', L = S L' /\ has_level s' q L'.
Proof.
  induction f as [|f IH]; intros s s' p q L I Hp H; [discriminate|].
  simpl in H. split_bind H. apply load_inv in E as [En ->].
  destruct Hp as (n0 & En0 & Ln0). rewrite En0 in En. injection En as ->.
  destruct (negb (next a =? nil)%N) eqn:Nx.
  - unfold ret in H. injection H as <- <-. split; [exact I|]. split; [apply hext_refl|].
    apply negb_true_iff, N.eqb_neq in Nx. destruct (inv_next s I p a En0 Nx) as (m & Em & Lm).
    exists (Level m). split; [lia|]. exists m. auto.
  - destruct (Level a =? 2)%nat eqn:Lv2.
    + destruct (slowSimulation_spec s s' p q L I (ex_intro _ a (conj En0 Ln0)) H) as (I' & Hx & -> & Hq).
      split; [exact I'|]. split; [exact Hx|]. exists 1%nat. auto.
    + destruct (Nat.eq_dec (Level a) 0%nat) as [L0|L0].
      { rewrite (Inv_leaf_childs s p a I En0 L0) in H. simpl in H.
        split_bind H. rewrite centeredSubnode_nil in E by exact I. discriminate. }
      destruct (node_children s p a I En0 L0) as (L1 & EL1 & Hse & Hsw & Hnw & Hne).
      assert (Hp : has_level s p L) by (exists a; auto).
      pose proof (hext_refl (heap s)) as H0.
      split_bind H. destruct (centeredSubnode_spec _ _ _ _ _ I Hnw E) as (I1 & Hx & (L2 & EL2 & H00)). fwd Hx.
      split_bind H. destruct (centeredHorizontal_spec _ _ _ _ _ _ I1 Hnw Hne E0) as (I2 & Hx & (L3 & EL3 & H01)). fwd Hx.
      split_bind H. destruct (centeredSubnode_spec _ _ _ _ _ I2 Hne E1) as (I3 & Hx & (L4 & EL4 & H02)). fwd Hx.
      split_bind H. destruct (centeredVertical_spec _ _ _ _ _ _ I3 Hnw Hsw E2) as (I4 & Hx & (L5 & EL5 & H10)). fwd Hx.
      split_bind H. destruct (centeredSubSubnode_spec _ _ _ _ _ I4 Hp E3) as (I5 & Hx & (L6 & EL6 & H11)). fwd Hx.
      split_bind H. destruct (centeredVertical_spec _ _ _ _ _ _ I5 Hne Hse E4) as (I6 & Hx & (L7 & EL7 & H12)). fwd Hx.
      split_bind H. destruct (centeredSubnode_spec _ _ _ _ _ I6 Hsw E5) as (I7 & Hx & (L8 & EL8 & H20)). fwd Hx.
      split_bind H. destruct (centeredHorizontal_spec _ _ _ _ _ _ I7 Hsw Hse E6) as (I8 & Hx & (L9 & EL9 & H21)). fwd Hx.
      split_bind H. destruct (centeredSubnode_spec _ _ _ _ _ I8 Hse E7) as (I9 & Hx & (L10 & EL10 & H22)). fwd Hx.
      assert (L3 = L2) by lia. assert (L4 = L2) by lia. assert (L5 = L2) by lia. assert (L6 = L2) by lia.
      assert (L7 = L2) by lia. assert (L8 = L2) by lia. assert (L9 = L2) by lia. assert (L10 = L2) by lia.
      subst L3 L4 L5 L6 L7 L8 L9 L10.
      split_bind_as H Es1. destruct (NewTree_spec (mkChilds a4 a3 a0 a1) _ _ _ _ I9 H11 H10 H00 H01 Es1) as (I10 & Hx & (m1 & Em1 & Lm1 & _)).
      fwd Hx. assert (Ht1 : has_level s9 a9 (S (S L2))) by (exists m1; auto).
      split_bind_as H Es2. destruct (IH _ _ _ _ _ I10 Ht1 Es2) as (I11 & Hx & (Lr1 & ELr1 & Hr1)). fwd Hx.
      split_bind_as H Es3. destruct (NewTree_spec (mkChilds a5 a4 a1 a2) _ _ _ _ I11 H12 H11 H01 H02 Es3) as (I12 & Hx & (m2 & Em2 & Lm2 & _)).
      fwd Hx. assert (Ht2 : has_level s11 a11 (S (S L2))) by (exists m2; auto).
      split_bind_as H Es4. destruct (IH _ _ _ _ _ I12 Ht2 Es4) as (I13 & Hx & (Lr2 & ELr2 & Hr2)). fwd Hx.
      split_bind_as H Es5. destruct (NewTree_spec (mkChilds a7 a6 a3 a4) _ _ _ _ I13 H21 H20 H10 H11 Es5) as (I14 & Hx & (m3 & Em3 & Lm3 & _)).
      fwd Hx. assert (Ht3 : has_level s13 a13 (S (S L2))) by (exists m3; auto).
      split_bind_as H Es6. destruct (IH _ _ _ _ _ I14 Ht3 Es6) as (I15 & Hx & (Lr3 & ELr3 & Hr3)). fwd Hx.
      split_bind_as H Es7. destruct (NewTree_spec (mkChilds a8 a7 a4 a5) _ _ _ _ I15 H22 H21 H11 H12 Es7) as (I16 & Hx & (m4 & Em4 & Lm4 & _)).
      fwd Hx. assert (Ht4 : has_level s15 a15 (S (S L2))) by (exists m4; auto).
      split_bind_as H Es8. destruct (IH _ _ _ _ _ I16 Ht4 Es8) as (I17 & Hx & (Lr4 & ELr4 & Hr4)). fwd Hx.
      assert (Lr1 = S L2) by lia. assert (Lr2 = S L2) by lia. assert (Lr3 = S L2) by lia. assert (Lr4 = S L2) by lia.
      subst Lr1 Lr2 Lr3 Lr4.
      split_bind_as H Es9. destruct (NewTree_spec (mkChilds a16 a14 a10 a12) _ _ _ _ I17 Hr4 Hr3 Hr1 Hr2 Es9) as (I18 & Hx & (m5 & Em5 & Lm5 & _)).
      fwd Hx.
      split_bind_as H Es10. assert (Hq : has_level s17 a17 (S (S L2))) by (exists m5; auto).
      assert (HpS : has_level s17 p (S (S (S L2)))) by (rewrite <- EL6; exact Hp).
      destruct (set_next_spec _ _ _ _ _ _ I18 HpS Hq Es10) as (I19 & Hx).
      fwd Hx. unfold ret in H. injection H as <- <-.
      split; [exact I19|]. split; [assumption|]. exists (S (S L2)). split; [lia | exact Hq].
Qed.

End HeapOpsFacts.

Module HeapInvariant.
Import Heap HeapFacts HeapOpsFacts.

(** ** Runs that succeed *)

Lemma NewTree_total (ch : Childs) (s : state) (L : nat) :
  Inv s -> has_level s (SE ch) L -> has_level s (SW ch) L -> has_level s (NW ch) L -> has_level s (NE ch) L ->
  exists p s', NewTree ch s = Some (p, s') /\ Inv s' /\ hext (heap s) (heap s') /\ node_at s' p (S L) ch.
Proof.
  intros I Hse Hsw Hnw Hne.
  destruct (NewTree_ok ch s) as (p & s' & E);
    [destruct Hse as (n & ? & _) | destruct Hsw as (n & ? & _) | destruct Hnw as (n & ? & _)
    | destruct Hne as (n & ? & _) |]; eauto.
  destruct (NewTree_spec ch s s' p L I Hse Hsw Hnw Hne E) as (I' & Hx & (n & En & Ln & Cn)).
  exists p, s'. split; [exact E|]. split; [exact I'|]. split; [exact Hx|]. exists n. auto.
Qed.

Lemma EmptyTree_total (k : nat) : forall s,
  Inv s -> (k <= 62)%nat ->
  exists p s', EmptyTree k s = Some (p, s') /\ Inv s' /\ hext (heap s) (heap s') /\ has_level s' p k.
Proof.
  induction k as [|k IH]; intros s I Hk.
  - exists deadLeaf, s. split; [reflexivity|]. split; [exact I|]. split; [apply hext_refl|].
    apply has_level_leaf; auto.
  - destruct (IH s I ltac:(lia)) as (a & s0 & Ea & I0 & Hx0 & Ha).
    destruct (NewTree_total (mkChilds a a a a) s0 k I0 Ha Ha Ha Ha) as (p & s1 & Ep & I1 & Hx1 & Np).
    exists p, s1. split.
    + simpl EmptyTree. rewrite !uadd_is_zero_false by lia. cbn [orb].
      unfold bind. rewrite Ea. exact Ep.
    + split; [exact I1|]. split; [exact (hext_trans _ _ _ Hx0 Hx1)|]. exact (node_at_level _ _ _ _ Np).
Qed.

(** [grow] on a node of level [1 <= S L <= 62]: the new root, its four
    children and the empty filler [e]. *)
Lemma grow_total (s : state) (p : ptr) (n : Quadtree) (L : nat) :
  Inv s -> heap s !! p = Some n -> Level n = S L -> (S L <= 62)%nat ->
  exists g s' e se sw nw ne, grow p s = Some (g, s') /\ Inv s' /\ hext (heap s) (heap s') /\
    has_level s' e L /\
    node_at s' g (S (S L)) (mkChilds se sw nw ne) /\
    node_at s' se (S L) (mkChilds e e (SE (childs n)) e) /\
    node_at s' sw (S L) (mkChilds e e e (SW (childs n))) /\
    node_at s' nw (S L) (mkChilds (NW (childs n)) e e e) /\
    node_at s' ne (S L) (mkChilds e (NE (childs n)) e e).
Proof.
  intros I E Ln HL.
  destruct (node_children s p n I E ltac:(lia)) as (L1 & EL1 & Hse & Hsw & Hnw & Hne).
  assert (L1 = L) by lia. subst L1.
  pose proof (hext_refl (heap s)) as H0.
  destruct (EmptyTree_total L s I ltac:(lia)) as (e & s1 & Ee & I1 & Hx & He). fwd Hx.
  destruct (NewTree_total (mkChilds e e (SE (childs n)) e) s1 L I1 He He Hse He)
    as (se & s2 & E2 & I2 & Hx & Nse). fwd Hx.
  destruct (NewTree_total (mkChilds e e e (SW (childs n))) s2 L I2 He He He Hsw)
    as (sw & s3 & E3 & I3 & Hx & Nsw). fwd Hx.
  destruct (NewTree_total (mkChilds (NW (childs n)) e e e) s3 L I3 Hnw He He He)
    as (nw & s4 & E4 & I4 & Hx & Nnw). fwd Hx.
  destruct (NewTree_total (mkChilds e (NE (childs n)) e e) s4 L I4 He Hne He He)
    as (ne & s5 & E5 & I5 & Hx & Nne). fwd Hx.
  destruct (NewTree_total (mkChilds se sw nw ne) s5 (S L) I5 (node_at_level _ _ _ _ Nse)
              (node_at_level _ _ _ _ Nsw) (node_at_level _ _ _ _ Nnw) (node_at_level _ _ _ _ Nne))
    as (g & s6 & E6 & I6 & Hx & Ng). fwd Hx.
  exists g, s6, e, se, sw, nw, ne. split.
  - unfold grow, bind at 1. rewrite (load_ok _ _ _ E). cbv beta iota. rewrite Ln.
    destruct (63 <=? S L)%nat eqn:B1; [apply Nat.leb_le in B1; lia|].
    destruct (S L <? 1)%nat eqn:B2; [apply Nat.ltb_lt in B2; lia|].
    replace (S L - 1)%nat with L by lia.
    unfold bind. rewrite Ee, E2, E3, E4, E5. exact E6.
  - refine (conj I6 (conj _ (conj He (conj Ng (conj Nse (conj Nsw (conj Nnw Nne))))))). assumption.
Qed.

(** ** Each operation keeps the invariant *)

Lemma grow_spec (s s' : state) (p g : ptr) :
  Inv s -> grow p s = Some (g, s') ->
  Inv s' /\ hext (heap s) (heap s') /\ exists L, has_level s p (S L) /\ has_level s' g (S (S L)).
Proof.
  intros I H. pose proof H as H'. unfold grow in H'. split_bind H'.
  apply load_inv in E as [E ->].
  destruct (63 <=? Level a)%nat eqn:B1; [discriminate|].
  destruct (Level a <? 1)%nat eqn:B2; [discriminate|].
  apply Nat.leb_nle in B1. apply Nat.ltb_nlt in B2.
  destruct (Level a) as [|L] eqn:La; [lia|].
  destruct (grow_total s p a L I E La ltac:(lia)) as (g' & s'' & e & se & sw & nw & ne & Eg & I' & Hx & _ & Ng & _).
  rewrite Eg in H. injection H as <- <-.
  split; [exact I'|]. split; [exact Hx|]. exists L. split; [exists a; auto | exact (node_at_level _ _ _ _ Ng)].
Qed.

Lemma GrowToFit_loop_spec (f : nat) (x y : Z) : forall s s' p q,
  Inv s -> GrowToFit_loop f p x y s = Some (q, s') -> Inv s' /\ hext (heap s) (heap s').
Proof.
  induction f as [|f IH]; intros s s' p q I H; [discriminate|].
  simpl in H. split_bind H. apply load_inv in E as [_ ->].
  match type of H with context [if ?b then _ else _] => destruct b end.
  - unfold ret in H. injection H as _ <-. split; [exact I | apply hext_refl].
  - split_bind H. destruct (grow_spec _ _ _ _ I E) as (I1 & Hx1 & _).
    destruct (IH _ _ _ _ I1 H) as (I2 & Hx2). split; [exact I2 | exact (hext_trans _ _ _ Hx1 Hx2)].
Qed.

Lemma SetCell_go_spec (f : nat) (v : Z) : forall x y s s' p q L,
  Inv s -> has_level s p L -> SetCell_go f p x y v s = Some (q, s') ->
  Inv s' /\ hext (heap s) (heap s') /\ has_level s' q L.
Proof.
  induction f as [|f IH]; intros x y s s' p q L I Hp H; [discriminate|].
  simpl in H. split_bind H. apply load_inv in E as [En ->].
  destruct Hp as (n & En' & Ln). rewrite En' in En. injection En as ->.
  destruct (Level a =? 0)%nat eqn:L0.
  - destruct (Tree.leaf_ok x y); [|discriminate]. unfold ret in H. injection H as <- <-.
    split; [exact I|]. split; [apply hext_refl|]. apply Nat.eqb_eq in L0. rewrite <- Ln, L0.
    apply has_level_leaf; [exact I|]. destruct (v =? 0); auto.
  - apply Nat.eqb_neq in L0.
    destruct (node_children s p a I En' L0) as (L1 & EL1 & Hse & Hsw & Hnw & Hne).
    pose proof (hext_refl (heap s)) as H0.
    repeat match type of H with context [if ?b then _ else _] => destruct b end;
      split_bind_as H Ec;
      [ destruct (IH _ _ _ _ _ _ _ I Hse Ec) as (I1 & Hx & Hc)
      | destruct (IH _ _ _ _ _ _ _ I Hne Ec) as (I1 & Hx & Hc)
      | destruct (IH _ _ _ _ _ _ _ I Hsw Ec) as (I1 & Hx & Hc)
      | destruct (IH _ _ _ _ _ _ _ I Hnw Ec) as (I1 & Hx & Hc) ]; fwd Hx;
      match type of H with NewTree ?ch _ = _ =>
        destruct (NewTree_spec ch _ _ _ L1 I1 ltac:(assumption) ltac:(assumption) ltac:(assumption)
                   ltac:(assumption) H) as (I2 & Hx & (m & Em & Lm & _)) end; fwd Hx;
      (split; [exact I2|]; split; [assumption|]; exists m; split; [exact Em | lia]).
Qed.

Lemma SetCell_spec (s s' : state) (p q : ptr) (x y v : Z) :
  Inv s -> SetCell p x y v s = Some (q, s') -> Inv s' /\ hext (heap s) (heap s').
Proof.
  intros I H. unfold SetCell in H. split_bind H. apply load_inv in E as [E ->].
  destruct (SetCell_go_spec _ v x y s s' p q (Level a) I (has_level_ex _ _ _ E) H) as (I' & Hx & _).
  split; assumption.
Qed.

Lemma NextGen_spec (s s' : state) (p q : ptr) :
  Inv s -> (N.of_nat (size (nodeMap s)) <= 13000000)%N -> NextGen p s = Some (q, s') ->
  Inv s' /\ hext (heap s) (heap s').
Proof.
  intros I Hc H. unfold NextGen in H. split_bind H. unfold cacheSize in E. injection E as <- <-.
  destruct (13000000 <? N.of_nat (size (nodeMap s)))%N eqn:B; [apply N.ltb_lt in B; lia|].
  split_bind H. unfold ret in E. injection E as _ <-.
  split_bind H. destruct (grow_spec _ _ _ _ I E) as (I1 & Hx1 & (L & _ & Hg)).
  unfold NextGeneration in H. split_bind H. apply load_inv in E0 as [Eg ->].
  destruct (NextGeneration_go_spec _ _ _ _ _ _ I1 (has_level_ex _ _ _ Eg) H) as (I2 & Hx2 & _).
  split; [exact I2 | exact (hext_trans _ _ _ Hx1 Hx2)].
Qed.

Lemma run_op_spec (o : op) (s s' : state) (q : ptr) :
  Inv s -> keeps_cache o s -> run_op o s = Some (q, s') -> Inv s' /\ hext (heap s) (heap s').
Proof.
  intros I K H. destruct o as [k|p x y v|p|p x y|p]; simpl in H.
  - destruct (EmptyTree_spec k s q s' I H) as (I' & Hx & _). split; assumption.
  - exact (SetCell_spec _ _ _ _ _ _ _ I H).
  - destruct (grow_spec _ _ _ _ I H) as (I' & Hx & _). split; assumption.
  - exact (GrowToFit_loop_spec _ _ _ _ _ _ _ I H).
  - exact (NextGen_spec _ _ _ _ I K H).
Qed.

Lemma Inv_init : Inv init.
Proof.
  unfold init. constructor; simpl.
  - apply lookup_insert_eq.
  - rewrite lookup_insert_ne by discriminate. apply lookup_insert_eq.
  - rewrite !lookup_insert_ne by discriminate. apply lookup_empty.
  - intros p Hp. rewrite !lookup_insert_ne by (unfold liveLeaf, deadLeaf; lia). apply lookup_empty.
  - intros p n E _. rewrite lookup_insert_Some in E.
    destruct E as [(<- & _)|(_ & E)]; [auto|]. rewrite lookup_insert_Some in E.
    destruct E as [(<- & _)|(_ & E)]; [auto|]. rewrite lookup_empty in E. discriminate.
  - intros p n E L0. exfalso. rewrite lookup_insert_Some in E.
    destruct E as [(_ & <-)|(_ & E)]; [simpl in L0; lia|]. rewrite lookup_insert_Some in E.
    destruct E as [(_ & <-)|(_ & E)]; [simpl in L0; lia|]. rewrite lookup_empty in E. discriminate.
  - intros p n E N0. exfalso. rewrite lookup_insert_Some in E.
    destruct E as [(_ & <-)|(_ & E)]; [simpl in N0; congruence|]. rewrite lookup_insert_Some in E.
    destruct E as [(_ & <-)|(_ & E)]; [simpl in N0; congruence|]. rewrite lookup_empty in E. discriminate.
  - intros ch p E. rewrite lookup_empty in E. discriminate.
  - intros p n E L0. exfalso. rewrite lookup_insert_Some in E.
    destruct E as [(_ & <-)|(_ & E)]; [simpl in L0; lia|]. rewrite lookup_insert_Some in E.
    destruct E as [(_ & <-)|(_ & E)]; [simpl in L0; lia|]. rewrite lookup_empty in E. discriminate.
Qed.

Lemma reachable_Inv (s : state) : reachable s -> Inv s.
Proof.
  induction 1 as [|s o p s' R IH K E]; [exact Inv_init|].
  exact (proj1 (run_op_spec o s s' p IH K E)).
Qed.

End HeapInvariant.

Module HeapCells.
Import Heap HeapFacts HeapOpsFacts HeapInvariant.

(** ** Runs of operations *)

Lemma run_ops_reachable (ops : list op) : forall s ps s',
  reachable s -> run_ops s ops = Some (ps, s') -> reachable s'.
Proof.
  induction ops as [|o os IH]; intros s ps s' R H; simpl in H.
  - injection H as _ <-. exact R.
  - destruct (decide (keeps_cache o s)) as [K|K]; [|discriminate].
    destruct (run_op o s) as [[p s1]|] eqn:E; [|discriminate].
    destruct (run_ops s1 os) as [[ps1 s2]|] eqn:E2; [|discriminate].
    injection H as _ <-. exact (IH s1 ps1 s2 (reach_step s o p s1 R K E) E2).
Qed.

(** ** Reading cells on the heap *)

Lemma Cell_unfold (p : ptr) (x y : Z) (s : state) :
  Cell p x y s = match findLeaf p x y s with
                 | Some (leaf, s1) => (let* l := load leaf in ret (Population l)) s1
                 | None => None
                 end.
Proof. reflexivity. Qed.

Lemma findLeaf_go_S (f : nat) (p : ptr) (x y : Z) :
  findLeaf_go (S f) p x y =
  let* qt := load p in
  if (Level qt =? 0)%nat then (if Tree.leaf_ok x y then ret p else panic)
  else
    let distanceToOrigin := shl1 (usub (Level qt) 2) in
    let ch := childs qt in
    if x >=? 0 then
      if y >=? 0 then findLeaf_go f (SE ch) (wrap64 (x - distanceToOrigin)) (wrap64 (y - distanceToOrigin))
      else findLeaf_go f (NE ch) (wrap64 (x - distanceToOrigin)) (wrap64 (y + distanceToOrigin))
    else
      if y >=? 0 then findLeaf_go f (SW ch) (wrap64 (x + distanceToOrigin)) (wrap64 (y - distanceToOrigin))
      else findLeaf_go f (NW ch) (wrap64 (x + distanceToOrigin)) (wrap64 (y + distanceToOrigin)).
Proof. reflexivity. Qed.

Lemma findLeaf_at (p : ptr) (x y : Z) (s : state) (n : Quadtree) :
  heap s !! p = Some n -> findLeaf p x y s = findLeaf_go (S (Level n)) p x y s.
Proof. intros E. unfold findLeaf, bind at 1. rewrite (load_ok _ _ _ E). reflexivity. Qed.

Lemma findLeaf_level (p : ptr) (x y : Z) (s : state) (L : nat) :
  has_level s p L -> findLeaf p x y s = findLeaf_go (S L) p x y s.
Proof. intros (n & E & <-). exact (findLeaf_at p x y s n E). Qed.

(** [Cell] on an inner node reads the quadrant the coordinates fall in,
    with the coordinates moved to the quadrant's centre. *)
Lemma Cell_node (s : state) (p : ptr) (n : Quadtree) (L : nat) (x y : Z) :
  Inv s -> heap s !! p = Some n -> Level n = S L ->
  Cell p x y s =
  (let d := shl1 (usub (S L) 2) in
   if x >=? 0 then
     if y >=? 0 then Cell (SE (childs n)) (wrap64 (x - d)) (wrap64 (y - d)) s
     else Cell (NE (childs n)) (wrap64 (x - d)) (wrap64 (y + d)) s
   else
     if y >=? 0 then Cell (SW (childs n)) (wrap64 (x + d)) (wrap64 (y - d)) s
     else Cell (NW (childs n)) (wrap64 (x + d)) (wrap64 (y + d)) s).
Proof.
  intros I E Ln.
  destruct (node_children s p n I E ltac:(lia)) as (L1 & EL1 & Hse & Hsw & Hnw & Hne).
  assert (L1 = L) by lia. subst L1.
  cbv zeta. rewrite !Cell_unfold, (findLeaf_at p x y s n E), findLeaf_go_S.
  unfold bind at 1. rewrite (load_ok _ _ _ E). cbv beta iota zeta. rewrite Ln.
  change ((S L =? 0)%nat) with false. cbv iota.
  destruct (x >=? 0), (y >=? 0);
    [rewrite (findLeaf_level _ _ _ _ _ Hse) | rewrite (findLeaf_level _ _ _ _ _ Hne)
    | rewrite (findLeaf_level _ _ _ _ _ Hsw) | rewrite (findLeaf_level _ _ _ _ _ Hnw)]; reflexivity.
Qed.

Lemma Cell_live (s : state) (x y : Z) :
  Inv s -> Tree.leaf_ok x y = true -> Cell liveLeaf x y s = Some (1, s).
Proof.
  intros I Ok. rewrite Cell_unfold, (findLeaf_at _ _ _ _ _ (inv_live s I)), findLeaf_go_S.
  unfold bind. rewrite (load_ok _ _ _ (inv_live s I)). simpl. rewrite Ok. unfold ret.
  rewrite (load_ok _ _ _ (inv_live s I)). reflexivity.
Qed.

Lemma Cell_dead (s : state) (x y : Z) :
  Inv s -> Tree.leaf_ok x y = true -> Cell deadLeaf x y s = Some (0, s).
Proof.
  intros I Ok. rewrite Cell_unfold, (findLeaf_at _ _ _ _ _ (inv_dead s I)), findLeaf_go_S.
  unfold bind. rewrite (load_ok _ _ _ (inv_dead s I)). simpl. rewrite Ok. unfold ret.
  rewrite (load_ok _ _ _ (inv_dead s I)). reflexivity.
Qed.

(** Two leaves with the same cell are the same leaf. *)
Lemma leaf_cell_inj (s : state) (a b : ptr) (x y : Z) :
  Inv s -> has_level s a 0 -> has_level s b 0 -> Tree.leaf_ok x y = true ->
  Cell a x y s = Cell b x y s -> a = b.
Proof.
  intros I (na & Ea & La) (nb & Eb & Lb) Ok H.
  destruct (inv_leaf s I a na Ea La) as [->| ->], (inv_leaf s I b nb Eb Lb) as [->| ->]; try reflexivity;
    rewrite ?(Cell_live s x y I Ok), ?(Cell_dead s x y I Ok) in H; discriminate.
Qed.

Lemma in_box_zero : Tree.in_box 0 0 0.
Proof. unfold Tree.in_box, int64. simpl. lia. Qed.

Lemma pow_le_62 (l : nat) : (l <= 62)%nat -> 0 < 2 ^ Z.of_nat l <= 2 ^ 62.
Proof. intros H. split; [apply Z.pow_pos_nonneg; lia | apply Z.pow_le_mono_r; lia]. Qed.

(** The four quadrants of [Cell_node]. *)
Lemma Cell_SE (s : state) (p : ptr) (n : Quadtree) (L : nat) (x y : Z) :
  Inv s -> heap s !! p = Some n -> Level n = S L -> 0 <= x -> 0 <= y ->
  Cell p x y s = Cell (SE (childs n)) (wrap64 (x - shl1 (usub (S L) 2))) (wrap64 (y - shl1 (usub (S L) 2))) s.
Proof.
  intros I E Ln Hx Hy. rewrite (Cell_node s p n L x y I E Ln). cbv zeta.
  rewrite (proj2 (Z.geb_le x 0) Hx), (proj2 (Z.geb_le y 0) Hy). reflexivity.
Qed.

Lemma Cell_NE (s : state) (p : ptr) (n : Quadtree) (L : nat) (x y : Z) :
  Inv s -> heap s !! p = Some n -> Level n = S L -> 0 <= x -> y < 0 ->
  Cell p x y s = Cell (NE (childs n)) (wrap64 (x - shl1 (usub (S L) 2))) (wrap64 (y + shl1 (usub (S L) 2))) s.
Proof.
  intros I E Ln Hx Hy. rewrite (Cell_node s p n L x y I E Ln). cbv zeta.
  rewrite (proj2 (Z.geb_le x 0) Hx). replace (y >=? 0) with false by (symmetry; rewrite Z.geb_leb; apply Z.leb_gt; lia).
  reflexivity.
Qed.

Lemma Cell_SW (s : state) (p : ptr) (n : Quadtree) (L : nat) (x y : Z) :
  Inv s -> heap s !! p = Some n -> Level n = S L -> x < 0 -> 0 <= y ->
  Cell p x y s = Cell (SW (childs n)) (wrap64 (x + shl1 (usub (S L) 2))) (wrap64 (y - shl1 (usub (S L) 2))) s.
Proof.
  intros I E Ln Hx Hy. rewrite (Cell_node s p n L x y I E Ln). cbv zeta.
  replace (x >=? 0) with false by (symmetry; rewrite Z.geb_leb; apply Z.leb_gt; lia).
  rewrite (proj2 (Z.geb_le y 0) Hy). reflexivity.
Qed.

Lemma Cell_NW (s : state) (p : ptr) (n : Quadtree) (L : nat) (x y : Z) :
  Inv s -> heap s !! p = Some n -> Level n = S L -> x < 0 -> y < 0 ->
  Cell p x y s = Cell (NW (childs n)) (wrap64 (x + shl1 (usub (S L) 2))) (wrap64 (y + shl1 (usub (S L) 2))) s.
Proof.
  intros I E Ln Hx Hy. rewrite (Cell_node s p n L x y I E Ln). cbv zeta.
  replace (x >=? 0) with false by (symmetry; rewrite Z.geb_leb; apply Z.leb_gt; lia).
  replace (y >=? 0) with false by (symmetry; rewrite Z.geb_leb; apply Z.leb_gt; lia).
  reflexivity.
Qed.

(** The cells of a quadrant of level [S L] are cells of the parent at
    the offset [(ox, oy)]. *)
Ltac quadrant_cells H Q a na Ea La b nb Eb Lb I L ox oy :=
  let x' := fresh "x" in let y' := fresh "y" in let Hb := fresh "Hb" in let C := fresh "C" in
  intros x' y' Hb;
  destruct (proj1 (TreeFacts.in_box_S _ x' y') Hb) as (? & ? & ? & ?);
  pose proof (H (x' + ox) (y' + oy) ltac:(apply TreeFacts.in_box_S; rewrite TreeFacts.pow_S; unfold int64 in *; lia)) as C;
  rewrite (Q _ a na (S L) (x' + ox) (y' + oy) I Ea La), (Q _ b nb (S L) (x' + ox) (y' + oy) I Eb Lb) in C
    by lia;
  rewrite TreeFacts.distance_small in C by lia;
  repeat match goal with E : childs _ = _ |- _ => rewrite E in C end; cbn [SE SW NW NE] in C;
  replace (Z.of_nat (S (S L)) - 2) with (Z.of_nat L) in C by lia;
  rewrite !TreeFacts.wrap64_id in C by (unfold int64 in *; lia);
  match type of C with Cell _ ?e1 ?e2 _ = _ => replace e1 with x' in C by lia; replace e2 with y' in C by lia end;
  exact C.

(** A leaf quadrant of a level-1 node, read at [(x, y)]. *)
Ltac leaf_quadrant H Q a na Ea La b nb Eb Lb I Ha Hb x y :=
  let C := fresh "C" in
  pose proof (H x y ltac:(apply TreeFacts.in_box_S; unfold int64; simpl; lia)) as C;
  rewrite (Q _ a na 0%nat x y I Ea La), (Q _ b nb 0%nat x y I Eb Lb) in C by lia;
  rewrite TreeFacts.distance_one, !TreeFacts.wrap64_id in C by (unfold int64; lia);
  repeat match goal with E : childs _ = _ |- _ => rewrite E in C end; cbn [SE SW NW NE] in C;
  eapply (leaf_cell_inj _ _ _ _ _ I Ha Hb); [|exact C]; reflexivity.

(** A node of level [<= 16] is the only node of its level with its
    cells: below the cache limit every such node is interned. *)
Lemma cells_determine (L : nat) : forall s a b,
  Inv s -> (L <= 16)%nat -> has_level s a L -> has_level s b L ->
  (forall x y, Tree.in_box L x y -> Cell a x y s = Cell b x y s) -> a = b.
Proof.
  induction L as [|L IH]; intros s a b I HL Ha Hb H.
  - apply (leaf_cell_inj s a b 0 0 I Ha Hb eq_refl). apply H, in_box_zero.
  - destruct Ha as (na & Ea & La). destruct Hb as (nb & Eb & Lb).
    destruct (node_children s a na I Ea ltac:(lia)) as (L1 & EL1 & Ase & Asw & Anw & Ane).
    destruct (node_children s b nb I Eb ltac:(lia)) as (L2 & EL2 & Bse & Bsw & Bnw & Bne).
    assert (L1 = L) by lia. assert (L2 = L) by lia. subst L1 L2.
    assert (Ch : childs na = childs nb).
    { destruct (childs na) as [sea swa nwa nea] eqn:Ca, (childs nb) as [seb swb nwb neb] eqn:Cb.
      simpl in Ase, Asw, Anw, Ane, Bse, Bsw, Bnw, Bne. f_equal.
      - destruct L as [|L].
        + leaf_quadrant H Cell_SE a na Ea La b nb Eb Lb I Ase Bse 0 0.
        + pose proof (pow_le_62 L ltac:(lia)).
          apply (IH s _ _ I ltac:(lia) Ase Bse).
          quadrant_cells H Cell_SE a na Ea La b nb Eb Lb I L (2 ^ Z.of_nat L) (2 ^ Z.of_nat L).
      - destruct L as [|L].
        + leaf_quadrant H Cell_SW a na Ea La b nb Eb Lb I Asw Bsw (-1) 0.
        + pose proof (pow_le_62 L ltac:(lia)).
          apply (IH s _ _ I ltac:(lia) Asw Bsw).
          quadrant_cells H Cell_SW a na Ea La b nb Eb Lb I L (- 2 ^ Z.of_nat L) (2 ^ Z.of_nat L).
      - destruct L as [|L].
        + leaf_quadrant H Cell_NW a na Ea La b nb Eb Lb I Anw Bnw (-1) (-1).
        + pose proof (pow_le_62 L ltac:(lia)).
          apply (IH s _ _ I ltac:(lia) Anw Bnw).
          quadrant_cells H Cell_NW a na Ea La b nb Eb Lb I L (- 2 ^ Z.of_nat L) (- 2 ^ Z.of_nat L).
      - destruct L as [|L].
        + leaf_quadrant H Cell_NE a na Ea La b nb Eb Lb I Ane Bne 0 (-1).
        + pose proof (pow_le_62 L ltac:(lia)).
          apply (IH s _ _ I ltac:(lia) Ane Bne).
          quadrant_cells H Cell_NE a na Ea La b nb Eb Lb I L (2 ^ Z.of_nat L) (- 2 ^ Z.of_nat L). }
    assert (Lna : Level na <> 0%nat) by lia.
    pose proof (inv_interned s I a na Ea Lna ltac:(right; lia)) as Ia.
    pose proof (inv_interned s I b nb Eb ltac:(lia) ltac:(right; lia)) as Ib.
    rewrite Ch in Ia. congruence.
Qed.

End HeapCells.

Module HeapCentering.
Import Heap HeapFacts HeapOpsFacts HeapInvariant.

(** ** [NewTree] does not look at the levels *)

Lemma NewTree_result (ch : Childs) (s s' : state) (p : ptr) (ne : Quadtree) :
  Inv s -> heap s !! NE ch = Some ne -> NewTree ch s = Some (p, s') ->
  exists n, heap s' !! p = Some n /\ childs n = ch /\ Level n = S (Level ne).
Proof.
  intros I Ene H. unfold NewTree, bind, lookupNode in H.
  destruct (nodeMap s !! ch) as [q|] eqn:Hm.
  - unfold ret in H. injection H as <- <-.
    destruct (inv_map s I ch q Hm) as (n & E & Ch & L0). exists n. split; [exact E|]. split; [exact Ch|].
    destruct (inv_node s I q n E L0) as (se' & sw' & nw' & ne' & _ & _ & _ & Ene' & Lv & _).
    rewrite Ch, Ene in Ene'. injection Ene' as <-. exact Lv.
  - unfold population, bind, ret in H.
    destruct (heap s !! SE ch) as [se|] eqn:Ese; [|unfold load in H; rewrite Ene, Ese in H; discriminate].
    destruct (heap s !! SW ch) as [sw|] eqn:Esw; [|unfold load in H; rewrite Ene, Ese, Esw in H; discriminate].
    destruct (heap s !! NW ch) as [nw|] eqn:Enw; [|unfold load in H; rewrite Ene, Ese, Esw, Enw in H; discriminate].
    run_loads_in H. unfold alloc in H. cbv beta iota zeta in H.
    match type of H with context [if ?b then _ else _] => destruct b end.
    + unfold register, ret in H. cbv beta iota in H. injection H as <- <-. simpl.
      eexists. rewrite lookup_insert_eq. split; [reflexivity|]. split; reflexivity.
    + unfold ret in H. injection H as <- <-. simpl.
      eexists. rewrite lookup_insert_eq. split; [reflexivity|]. split; reflexivity.
Qed.

(** ** Reading the centre *)

Lemma centeredSubnode_read (s : state) (g : ptr) (ng m1 m2 m3 m4 : Quadtree) :
  heap s !! g = Some ng ->
  heap s !! SE (childs ng) = Some m1 -> heap s !! SW (childs ng) = Some m2 ->
  heap s !! NW (childs ng) = Some m3 -> heap s !! NE (childs ng) = Some m4 ->
  centeredSubnode g s =
  NewTree (mkChilds (NW (childs m1)) (NE (childs m2)) (SE (childs m3)) (SW (childs m4))) s.
Proof.
  intros Eg E1 E2 E3 E4. unfold centeredSubnode, SE_of, SW_of, NW_of, NE_of, bind, ret.
  run_loads. reflexivity.
Qed.

Lemma centeredSubSubnode_read (s : state) (g : ptr) (ng m1 m2 m3 m4 k1 k2 k3 k4 : Quadtree) :
  heap s !! g = Some ng ->
  heap s !! SE (childs ng) = Some m1 -> heap s !! SW (childs ng) = Some m2 ->
  heap s !! NW (childs ng) = Some m3 -> heap s !! NE (childs ng) = Some m4 ->
  heap s !! NW (childs m1) = Some k1 -> heap s !! NE (childs m2) = Some k2 ->
  heap s !! SE (childs m3) = Some k3 -> heap s !! SW (childs m4) = Some k4 ->
  centeredSubSubnode g s =
  NewTree (mkChilds (NW (childs k1)) (NE (childs k2)) (SE (childs k3)) (SW (childs k4))) s.
Proof.
  intros Eg E1 E2 E3 E4 F1 F2 F3 F4. unfold centeredSubSubnode, SE_of, SW_of, NW_of, NE_of, bind, ret.
  run_loads. reflexivity.
Qed.

Lemma Childs_eta (ch : Childs) : mkChilds (SE ch) (SW ch) (NW ch) (NE ch) = ch.
Proof. destruct ch; reflexivity. Qed.

(** An interned node is found again by [NewTree] on its children in
    every later state that keeps the invariant. *)
Lemma NewTree_interned (s s' : state) (t : ptr) (n : Quadtree) :
  Inv s -> Inv s' -> hext (heap s) (heap s') -> heap s !! t = Some n -> Level n <> 0%nat ->
  (Population n = 0 \/ (Level n <= 16)%nat) -> NewTree (childs n) s' = Some (t, s').
Proof.
  intros I I' Hx E L0 Hi. destruct (Hx t n E) as (n' & E' & (Ln & Cn & Pn)).
  apply NewTree_hit. rewrite <- Cn. apply (inv_interned s' I' t n' E'); [congruence|].
  rewrite Ln, Pn. exact Hi.
Qed.

Lemma node_at_lookup (s : state) (p : ptr) (L : nat) (ch : Childs) :
  node_at s p L ch -> exists n, heap s !! p = Some n /\ childs n = ch.
Proof. intros (n & E & _ & C). eauto. Qed.

(** [centeredSubnode(grow(t))] reads back the children of [t]. *)
Lemma grow_centeredSubnode_read (s : state) (t : ptr) (n : Quadtree) (L : nat) :
  Inv s -> heap s !! t = Some n -> Level n = S L -> (S L <= 62)%nat ->
  exists s', Inv s' /\ hext (heap s) (heap s') /\
    (grow t >>= centeredSubnode) s = NewTree (childs n) s'.
Proof.
  intros I E Ln HL.
  destruct (grow_total s t n L I E Ln HL) as (g & s1 & e & se & sw & nw & ne & Eg & I1 & Hx & He & Ng & Nse & Nsw & Nnw & Nne).
  exists s1. split; [exact I1|]. split; [exact Hx|].
  rewrite (heap_bind_Some _ _ _ _ _ Eg).
  destruct (node_at_lookup _ _ _ _ Ng) as (ng & Eng & Cg).
  destruct (node_at_lookup _ _ _ _ Nse) as (m1 & E1 & C1).
  destruct (node_at_lookup _ _ _ _ Nsw) as (m2 & E2 & C2).
  destruct (node_at_lookup _ _ _ _ Nnw) as (m3 & E3 & C3).
  destruct (node_at_lookup _ _ _ _ Nne) as (m4 & E4 & C4).
  rewrite (centeredSubnode_read s1 g ng m1 m2 m3 m4 Eng); rewrite ?Cg; try assumption.
  rewrite C1, C2, C3, C4. simpl. rewrite Childs_eta. reflexivity.
Qed.

(** [centeredSubSubnode(grow(grow(t)))] reads back the children of [t]. *)
Lemma grow_grow_centeredSubSubnode_read (s : state) (t : ptr) (n : Quadtree) (L : nat) :
  Inv s -> heap s !! t = Some n -> Level n = S L -> (S (S L) <= 62)%nat ->
  exists s', Inv s' /\ hext (heap s) (heap s') /\
    (grow t >>= grow >>= centeredSubSubnode) s = NewTree (childs n) s'.
Proof.
  intros I E Ln HL.
  destruct (grow_total s t n L I E Ln ltac:(lia)) as (g & s1 & e & se & sw & nw & ne & Eg & I1 & Hx1 & He & Ng & Nse & Nsw & Nnw & Nne).
  destruct (node_at_lookup _ _ _ _ Ng) as (ng & Eng & Cg).
  assert (Lg : Level ng = S (S L)) by (destruct Ng as (ng' & E' & L' & _); congruence).
  destruct (grow_total s1 g ng (S L) I1 Eng Lg ltac:(lia))
    as (g2 & s2 & e2 & se2 & sw2 & nw2 & ne2 & Eg2 & I2 & Hx2 & He2 & Ng2 & Nse2 & Nsw2 & Nnw2 & Nne2).
  pose proof (hext_refl (heap s)) as H0. fwd Hx1. fwd Hx2.
  exists s2. split; [exact I2|]. split; [assumption|].
  assert (Egg : (grow t >>= grow) s = Some (g2, s2)) by (rewrite (heap_bind_Some _ _ _ _ _ Eg); exact Eg2).
  rewrite (heap_bind_Some _ _ _ _ _ Egg).
  rewrite Cg in Nse2, Nsw2, Nnw2, Nne2. simpl in Nse2, Nsw2, Nnw2, Nne2.
  destruct (node_at_lookup _ _ _ _ Ng2) as (k & Ek & Ck).
  destruct (node_at_lookup _ _ _ _ Nse2) as (m1 & E1 & C1).
  destruct (node_at_lookup _ _ _ _ Nsw2) as (m2 & E2 & C2).
  destruct (node_at_lookup _ _ _ _ Nnw2) as (m3 & E3 & C3).
  destruct (node_at_lookup _ _ _ _ Nne2) as (m4 & E4 & C4).
  destruct (node_at_lookup _ _ _ _ Nse) as (k1 & F1 & D1).
  destruct (node_at_lookup _ _ _ _ Nsw) as (k2 & F2 & D2).
  destruct (node_at_lookup _ _ _ _ Nnw) as (k3 & F3 & D3).
  destruct (node_at_lookup _ _ _ _ Nne) as (k4 & F4 & D4).
  rewrite (centeredSubSubnode_read s2 g2 k m1 m2 m3 m4 k1 k2 k3 k4 Ek); rewrite ?Ck, ?C1, ?C2, ?C3, ?C4; try assumption.
  rewrite D1, D2, D3, D4. simpl. rewrite Childs_eta. reflexivity.
Qed.

End HeapCentering.

Module HeapAnyCalls.
Import Heap HeapFacts HeapCalls.

Lemma winv_lt (s : state) (q : ptr) (n : Quadtree) :
  WInv s -> heap s !! q = Some n -> (q < nextPtr s)%N.
Proof.
  intros W E. destruct (N.lt_ge_cases q (nextPtr s)) as [Hlt|Hge]; [exact Hlt|].
  rewrite (winv_fresh s W q Hge) in E. discriminate.
Qed.

Lemma map_ok_ext (h h' : gmap ptr Quadtree) (m : NodeMap) :
  (forall q n, h !! q = Some n -> exists n', h' !! q = Some n' /\ Level n' = Level n /\ childs n' = childs n) ->
  map_ok h m -> map_ok h' m.
Proof.
  intros Hx Hm ch p E. destruct (Hm ch p E) as (n & ne & En & Cn & Ene & Ln).
  destruct (Hx p n En) as (n' & En' & Ln' & Cn'). destruct (Hx _ ne Ene) as (ne' & Ene' & Lne' & _).
  exists n', ne'. split; [exact En'|]. split; [congruence|]. split; [exact Ene'|]. lia.
Qed.

Lemma alloc_ext (s : state) (n : Quadtree) :
  WInv s -> forall q m, heap s !! q = Some m ->
  exists m', <[nextPtr s := n]> (heap s) !! q = Some m' /\ Level m' = Level m /\ childs m' = childs m.
Proof.
  intros W q m E. exists m. pose proof (winv_lt s q m W E).
  rewrite lookup_insert_ne by lia. auto.
Qed.

Lemma keeps_ret {A : Type} (a : A) : keeps_WInv (ret a).
Proof. intros s b s' W H. injection H as _ <-. exact W. Qed.

Lemma keeps_panic {A : Type} : keeps_WInv (@panic A).
Proof. intros s b s' W H. discriminate. Qed.

Lemma keeps_bind {A B : Type} (m : M A) (k : A -> M B) :
  keeps_WInv m -> (forall a, keeps_WInv (k a)) -> keeps_WInv (bind m k).
Proof.
  intros Hm Hk s b s' W H. apply bind_Some_inv in H as (a & s1 & E1 & E2).
  exact (Hk a s1 b s' (Hm s a s1 W E1) E2).
Qed.

Lemma keeps_if {A : Type} (b : bool) (m1 m2 : M A) :
  keeps_WInv m1 -> keeps_WInv m2 -> keeps_WInv (if b then m1 else m2).
Proof. destruct b; auto. Qed.

Lemma keeps_load (p : ptr) : keeps_WInv (load p).
Proof. intros s n s' W H. apply load_inv in H as [_ ->]. exact W. Qed.

Lemma keeps_lookupNode (ch : Childs) : keeps_WInv (lookupNode ch).
Proof. intros s a s' W H. injection H as _ <-. exact W. Qed.

Lemma keeps_cacheSize : keeps_WInv cacheSize.
Proof. intros s a s' W H. injection H as _ <-. exact W. Qed.

Lemma keeps_discardCache : keeps_WInv discardCache.
Proof.
  intros s a s' W H. injection H as _ <-. split; [exact (winv_fresh s W)|].
  intros ch p E. simpl in E. rewrite lookup_empty in E. discriminate.
Qed.

Lemma keeps_set_next (p q : ptr) : keeps_WInv (set_next p q).
Proof.
  intros s u s' W H. unfold set_next in H. destruct (heap s !! p) as [n|] eqn:Ep; [|discriminate].
  injection H as _ <-. pose proof (winv_lt s p n W Ep) as Lp. split; simpl.
  - intros q' Hq. rewrite lookup_insert_ne by lia. apply (winv_fresh s W). exact Hq.
  - apply (map_ok_ext (heap s)); [|exact (winv_map s W)].
    intros q' m E. destruct (decide (p = q')) as [<-|Ne].
    + rewrite lookup_insert_eq. eexists. split; [reflexivity|]. rewrite Ep in E. injection E as <-. auto.
    + rewrite lookup_insert_ne by exact Ne. eauto.
Qed.

Lemma population_same (ch : Childs) (s s' : state) (pop : Z) :
  population ch s = Some (pop, s') -> s' = s.
Proof.
  unfold population. intros H.
  do 4 (split_bind_as H E; apply load_inv in E as [_ ->]).
  injection H as _ <-. reflexivity.
Qed.

(** The steps of [NewTree] on a [Childs] value that is not in [nodeMap]:
    the new node [qt] goes to [nextPtr], registered or not. *)
Lemma NewTree_miss (ch : Childs) (s s' : state) (p : ptr) :
  nodeMap s !! ch = None -> NewTree ch s = Some (p, s') ->
  exists ne pop, heap s !! NE ch = Some ne /\ p = nextPtr s /\
    let h := <[nextPtr s := mkQuadtree (S (Level ne)) ch pop nil]> (heap s) in
    (s' = mkState h (<[ch := nextPtr s]> (nodeMap s)) (N.succ (nextPtr s)) \/
     s' = mkState h (nodeMap s) (N.succ (nextPtr s))).
Proof.
  intros Hm H. unfold NewTree, bind at 1, lookupNode in H. rewrite Hm in H.
  split_bind_as H E1. apply load_inv in E1 as [Ene ->].
  split_bind_as H E2. apply population_same in E2 as ->.
  cbv zeta in H. split_bind_as H E3. unfold alloc in E3. injection E3 as <- <-.
  exists a, a0. split; [exact Ene|].
  match type of H with context [if ?b then _ else _] => destruct b end.
  - split_bind_as H E4. unfold register in E4. injection E4 as <- <-.
    unfold ret in H. injection H as <- <-. split; [reflexivity|]. left. reflexivity.
  - unfold ret in H. injection H as <- <-. split; [reflexivity|]. right. reflexivity.
Qed.

Lemma keeps_NewTree (ch : Childs) : keeps_WInv (NewTree ch).
Proof.
  intros s p s' W H. destruct (nodeMap s !! ch) as [q|] eqn:Hm.
  - unfold NewTree, bind, lookupNode in H. rewrite Hm in H.
    unfold ret in H. injection H as _ <-. exact W.
  - destruct (NewTree_miss ch s s' p Hm H) as (ne & pop & Ene & -> & Es).
    pose proof (winv_lt s _ ne W Ene) as Lne.
    assert (Fr : forall q', (N.succ (nextPtr s) <= q')%N ->
              <[nextPtr s := mkQuadtree (S (Level ne)) ch pop nil]> (heap s) !! q' = None).
    { intros q' Hq. rewrite lookup_insert_ne by lia. apply (winv_fresh s W). lia. }
    destruct Es as [-> | ->]; split; simpl; [exact Fr| |exact Fr|].
    + intros ch' p' E'. destruct (decide (ch' = ch)) as [->|Ne].
      * rewrite lookup_insert_eq in E'. injection E' as <-.
        eexists _, ne. rewrite lookup_insert_eq. split; [reflexivity|]. split; [reflexivity|].
        rewrite lookup_insert_ne by lia. split; [exact Ene | reflexivity].
      * rewrite lookup_insert_ne in E' by congruence.
        exact (map_ok_ext _ _ _ (alloc_ext s _ W) (winv_map s W) ch' p' E').
    + exact (map_ok_ext _ _ _ (alloc_ext s _ W) (winv_map s W)).
Qed.

Create HintDb winv.
#[local] Hint Resolve keeps_ret keeps_panic keeps_load keeps_lookupNode keeps_cacheSize
  keeps_discardCache keeps_set_next keeps_NewTree : winv.

(** Splits a computation into the steps that keep [WInv]. *)
Ltac keeps :=
  repeat first
    [ solve [eauto with winv]
    | apply keeps_bind; [|intros ?]
    | apply keeps_if
    | progress cbv zeta
    | match goal with |- keeps_WInv (match ?x with _ => _ end) => destruct x end ].

Lemma keeps_SE_of (p : ptr) : keeps_WInv (SE_of p).
Proof. unfold SE_of. keeps. Qed.
Lemma keeps_SW_of (p : ptr) : keeps_WInv (SW_of p).
Proof. unfold SW_of. keeps. Qed.
Lemma keeps_NW_of (p : ptr) : keeps_WInv (NW_of p).
Proof. unfold NW_of. keeps. Qed.
Lemma keeps_NE_of (p : ptr) : keeps_WInv (NE_of p).
Proof. unfold NE_of. keeps. Qed.
#[local] Hint Resolve keeps_SE_of keeps_SW_of keeps_NW_of keeps_NE_of : winv.

Lemma keeps_EmptyTree (level : nat) : keeps_WInv (EmptyTree level).
Proof. induction level as [|l IH]; cbn [EmptyTree]; keeps. Qed.
#[local] Hint Resolve keeps_EmptyTree : winv.

Lemma keeps_grow (p : ptr) : keeps_WInv (grow p).
Proof. unfold grow. keeps. Qed.
#[local] Hint Resolve keeps_grow : winv.

Lemma keeps_GrowToFit (p : ptr) (x y : Z) : keeps_WInv (GrowToFit p x y).
Proof.
  unfold GrowToFit. generalize 64%nat as fuel. intros fuel. revert p.
  induction fuel as [|f IH]; intros p; cbn [GrowToFit_loop]; keeps.
Qed.

Lemma keeps_findLeaf_go (fuel : nat) : forall p x y, keeps_WInv (findLeaf_go fuel p x y).
Proof. induction fuel as [|f IH]; intros p x y; cbn [findLeaf_go]; keeps. Qed.
#[local] Hint Resolve keeps_findLeaf_go : winv.

Lemma keeps_findLeaf (p : ptr) (x y : Z) : keeps_WInv (findLeaf p x y).
Proof. unfold findLeaf. keeps. Qed.
#[local] Hint Resolve keeps_findLeaf : winv.

Lemma keeps_Cell (p : ptr) (x y : Z) : keeps_WInv (Cell p x y).
Proof. unfold Cell. keeps. Qed.

Lemma keeps_SetCell_go (fuel : nat) : forall p x y v, keeps_WInv (SetCell_go fuel p x y v).
Proof. induction fuel as [|f IH]; intros p x y v; cbn [SetCell_go]; keeps. Qed.
#[local] Hint Resolve keeps_SetCell_go : winv.

Lemma keeps_SetCell (p : ptr) (x y v : Z) : keeps_WInv (SetCell p x y v).
Proof. unfold SetCell. keeps. Qed.

Lemma keeps_centeredSubnode (p : ptr) : keeps_WInv (centeredSubnode p).
Proof. unfold centeredSubnode. keeps. Qed.
Lemma keeps_centeredHorizontal (w e : ptr) : keeps_WInv (centeredHorizontal w e).
Proof. unfold centeredHorizontal. keeps. Qed.
Lemma keeps_centeredVertical (n s : ptr) : keeps_WInv (centeredVertical n s).
Proof. unfold centeredVertical. keeps. Qed.
Lemma keeps_centeredSubSubnode (p : ptr) : keeps_WInv (centeredSubSubnode p).
Proof. unfold centeredSubSubnode. keeps. Qed.
#[local] Hint Resolve keeps_centeredSubnode keeps_centeredHorizontal keeps_centeredVertical
  keeps_centeredSubSubnode : winv.

Lemma keeps_oneGen (bitmask : Z) : keeps_WInv (oneGen bitmask).
Proof. unfold oneGen. keeps. Qed.
#[local] Hint Resolve keeps_oneGen : winv.

Lemma keeps_fold_packCell (p : ptr) (l : list (Z * Z)) : forall acc,
  keeps_WInv acc -> keeps_WInv (fold_left (packCell p) l acc).
Proof.
  induction l as [|xy l IH]; intros acc Ha; [exact Ha|]. apply IH.
  unfold packCell. apply keeps_bind; [exact Ha|]. intros a. apply keeps_bind; [apply keeps_Cell|].
  intros c. apply keeps_ret.
Qed.

Lemma keeps_slowSimulation (p : ptr) : keeps_WInv (slowSimulation p).
Proof.
  unfold slowSimulation. keeps.
Qed.
#[local] Hint Resolve keeps_slowSimulation : winv.

Lemma keeps_NextGeneration_go (fuel : nat) : forall p, keeps_WInv (NextGeneration_go fuel p).
Proof. induction fuel as [|f IH]; intros p; cbn [NextGeneration_go]; keeps. Qed.
#[local] Hint Resolve keeps_NextGeneration_go : winv.

Lemma keeps_NextGeneration (p : ptr) : keeps_WInv (NextGeneration p).
Proof. unfold NextGeneration. keeps. Qed.
#[local] Hint Resolve keeps_NextGeneration : winv.

Lemma keeps_NextGen (p : ptr) : keeps_WInv (NextGen p).
Proof. unfold NextGen. keeps. Qed.

Lemma keeps_run_call (c : call) : keeps_WInv (run_call c).
Proof.
  destruct c; unfold run_call, forget; apply keeps_bind; try (intros; apply keeps_ret);
    auto using keeps_GrowToFit, keeps_Cell, keeps_SetCell, keeps_NextGen with winv.
Qed.

Lemma WInv_init : WInv init.
Proof.
  split.
  - intros q Hq. simpl in Hq. simpl. rewrite !lookup_insert_ne by (unfold liveLeaf, deadLeaf; lia).
    apply lookup_empty.
  - intros ch p E. simpl in E. rewrite lookup_empty in E. discriminate.
Qed.

(** Every call keeps [WInv], so every state a program reaches has it. *)
Lemma reachable_any_WInv (s : state) : reachable_any s -> WInv s.
Proof.
  induction 1 as [|s c s' R IH E]; [exact WInv_init|].
  exact (keeps_run_call c s tt s' IH E).
Qed.

(** The public operations are calls. *)
Lemma reachable_reachable_any (s : state) : reachable s -> reachable_any s.
Proof.
  induction 1 as [|s o p s' R IH K E]; [exact any_init|].
  destruct o as [level|q x y v|q|q x y|q];
    [ apply (any_step s (CallEmptyTree level) s' IH)
    | apply (any_step s (CallSetCell q x y v) s' IH)
    | apply (any_step s (CallGrow q) s' IH)
    | apply (any_step s (CallGrowToFit q x y) s' IH)
    | apply (any_step s (CallNextGen q) s' IH) ];
    simpl run_op in E; unfold run_call, forget; rewrite (heap_bind_Some _ _ _ _ _ E); reflexivity.
Qed.

Lemma run_calls_reachable (cs : list call) : forall s s',
  reachable_any s -> run_calls s cs = Some s' -> reachable_any s'.
Proof.
  induction cs as [|c cs IH]; intros s s' R E; simpl in E.
  - injection E as <-. exact R.
  - destruct (run_call c s) as [[[] s1]|] eqn:Ec; [|discriminate].
    exact (IH s1 s' (any_step s c s1 R Ec) E).
Qed.

(** [NewTree] on four allocated nodes returns a node with those children,
    one level above the [NE] child. *)
Lemma NewTree_result_any (ch : Childs) (s s' : state) (p : ptr) (ne : Quadtree) :
  WInv s -> heap s !! NE ch = Some ne -> NewTree ch s = Some (p, s') ->
  exists n, heap s' !! p = Some n /\ childs n = ch /\ Level n = S (Level ne).
Proof.
  intros W Ene H. destruct (nodeMap s !! ch) as [q|] eqn:Hm.
  - unfold NewTree, bind, lookupNode in H. rewrite Hm in H. unfold ret in H. injection H as <- <-.
    destruct (winv_map s W ch q Hm) as (n & ne' & E & Ch & Ene' & Lv).
    rewrite Ene in Ene'. injection Ene' as <-. eauto.
  - destruct (NewTree_miss ch s s' p Hm H) as (ne' & pop & Ene' & -> & Es).
    rewrite Ene in Ene'. injection Ene' as <-.
    destruct Es as [-> | ->]; simpl; eexists; rewrite lookup_insert_eq; eauto.
Qed.

End HeapAnyCalls.

Module HeapClaims.
Import Heap HeapExamples HeapFacts HeapOpsFacts HeapInvariant HeapCells HeapCentering HeapCalls HeapAnyCalls.

(** ** Handle identity *)

(** C4 (counterexample): after [EmptyTree(17)] and [SetCell(0, 0, 1)]
    run twice on the empty tree, the two results are distinct handles
    of level 17 with the same cells everywhere: a node of level 17 with
    a live cell is not entered in [nodeMap], so the second call builds
    a second copy. *)
Theorem handle_duplicates :
  exists s a b, reachable s /\ a <> b /\ has_level s a 17 /\ has_level s b 17 /\
    forall x y, Cell a x y s = Cell b x y s.
Proof.
  set (s := state_after init ops_level17_twice).
  assert (R : reachable s).
  { apply (run_ops_reachable ops_level17_twice init [19%N; 36%N; 37%N] s reach_init).
    vm_compute. reflexivity. }
  set (n := mkQuadtree 17 (mkChilds 35 18 18 18) 1 0).
  assert (Ea : heap s !! 36%N = Some n) by (vm_compute; reflexivity).
  assert (Eb : heap s !! 37%N = Some n) by (vm_compute; reflexivity).
  exists s, 36%N, 37%N. split; [exact R|]. split; [discriminate|].
  split; [exists n; split; [exact Ea | reflexivity]|].
  split; [exists n; split; [exact Eb | reflexivity]|].
  intros x y. pose proof (reachable_Inv s R) as I.
  rewrite (Cell_node s 36%N n 16 x y I Ea eq_refl), (Cell_node s 37%N n 16 x y I Eb eq_refl).
  reflexivity.
Qed.

(** C4 (amended): in a state reached by the public operations while
    [NextGen] keeps its cache, two nodes of one level [L <= 16] are the
    same handle if and only if their cells agree at every coordinate of
    the level-[L] box. *)
Theorem handle_identity (s : state) (a b : ptr) (L : nat) :
  reachable s -> has_level s a L -> has_level s b L -> (L <= 16)%nat ->
  (a = b <-> forall x y, Tree.in_box L x y -> Cell a x y s = Cell b x y s).
Proof.
  intros R Ha Hb HL. split.
  - intros ->. reflexivity.
  - apply (cells_determine L s a b (reachable_Inv s R) HL Ha Hb).
Qed.

Lemma handle_identity_witness :
  let s := state_after init ops_level2_cell in
  reachable s /\ has_level s 6%N 2 /\ has_level s 4%N 2 /\
  (6%N = 4%N <-> forall x y, Tree.in_box 2 x y -> Cell 6%N x y s = Cell 4%N x y s).
Proof.
  intros s.
  assert (R : reachable s).
  { apply (run_ops_reachable ops_level2_cell init [4%N; 6%N] s reach_init). vm_compute. reflexivity. }
  assert (H6 : has_level s 6%N 2).
  { exists (mkQuadtree 2 (mkChilds 5 3 3 3) 1 0). split; [vm_compute; reflexivity | reflexivity]. }
  assert (H4 : has_level s 4%N 2).
  { exists (mkQuadtree 2 (mkChilds 3 3 3 3) 0 0). split; [vm_compute; reflexivity | reflexivity]. }
  split; [exact R|]. split; [exact H6|]. split; [exact H4|].
  apply (handle_identity s 6%N 4%N 2 R H6 H4). lia.
Defined.

(** ** [NewTree] and the levels of its children *)

(** C5 (counterexample): [NewTree] on three leaves and a node of level
    1 does not abort: it returns a node of level 2 with those children. *)
Theorem NewTree_mixed_levels :
  exists s, reachable s /\ has_level s liveLeaf 0 /\ has_level s 3%N 1 /\
    exists p s' n, NewTree (mkChilds liveLeaf liveLeaf liveLeaf 3) s = Some (p, s') /\
      heap s' !! p = Some n /\ Level n = 2%nat /\ childs n = mkChilds liveLeaf liveLeaf liveLeaf 3.
Proof.
  set (s := state_after init ops_level1).
  assert (R : reachable s).
  { apply (run_ops_reachable ops_level1 init [3%N] s reach_init). vm_compute. reflexivity. }
  exists s. split; [exact R|].
  split; [exists (leafNode 1); split; [vm_compute; reflexivity | reflexivity]|].
  split; [exists (mkQuadtree 1 (mkChilds 2 2 2 2) 0 0); split; [vm_compute; reflexivity | reflexivity]|].
  set (r := NewTree (mkChilds liveLeaf liveLeaf liveLeaf 3) s).
  exists 4%N, (match r with Some (_, s') => s' | None => s end),
    (mkQuadtree 2 (mkChilds liveLeaf liveLeaf liveLeaf 3) 3 0).
  split; [vm_compute; reflexivity|]. split; [vm_compute; reflexivity|]. split; reflexivity.
Qed.

(** C5 (amended): in every state a program reaches by any sequence of
    calls (a discarded cache, and direct [NewTree] calls on children of
    differing levels, included), [NewTree] on four allocated nodes never
    aborts; it returns a node whose children are the four given ones and
    whose level is one more than that of the [NE] child, whether or not
    the four levels agree. *)
Theorem NewTree_never_fails (s : state) (ch : Childs) :
  reachable_any s ->
  (exists n, heap s !! SE ch = Some n) -> (exists n, heap s !! SW ch = Some n) ->
  (exists n, heap s !! NW ch = Some n) -> (exists n, heap s !! NE ch = Some n) ->
  exists p s' n ne, NewTree ch s = Some (p, s') /\ heap s !! NE ch = Some ne /\
    heap s' !! p = Some n /\ childs n = ch /\ Level n = S (Level ne).
Proof.
  intros R Hse Hsw Hnw Hne. pose proof (reachable_any_WInv s R) as W.
  destruct (NewTree_ok ch s Hse Hsw Hnw Hne) as (p & s' & E).
  destruct Hne as (ne & Ene).
  destruct (NewTree_result_any ch s s' p ne W Ene E) as (n & En & Cn & Ln).
  exists p, s', n, ne. auto.
Qed.

Lemma NewTree_never_fails_witness :
  let s := state_after_calls init calls_mixed in
  reachable_any s /\
  (exists n, heap s !! 4%N = Some n) /\ (exists n, heap s !! liveLeaf = Some n) /\
  (exists n, heap s !! deadLeaf = Some n) /\ (exists n, heap s !! 3%N = Some n) /\
  exists p s' n ne, NewTree (mkChilds 4 liveLeaf deadLeaf 3) s = Some (p, s') /\
    heap s !! 3%N = Some ne /\ heap s' !! p = Some n /\
    childs n = mkChilds 4 liveLeaf deadLeaf 3 /\ Level n = S (Level ne).
Proof.
  intros s.
  assert (R : reachable_any s).
  { apply (run_calls_reachable calls_mixed init s any_init). vm_compute. reflexivity. }
  assert (L4 : exists n, heap s !! 4%N = Some n)
    by (exists (mkQuadtree 2 (mkChilds liveLeaf liveLeaf liveLeaf 3) 3 0); vm_compute; reflexivity).
  assert (L1 : exists n, heap s !! liveLeaf = Some n)
    by (exists (leafNode 1); vm_compute; reflexivity).
  assert (L2 : exists n, heap s !! deadLeaf = Some n)
    by (exists (leafNode 0); vm_compute; reflexivity).
  assert (L3 : exists n, heap s !! 3%N = Some n)
    by (exists (mkQuadtree 1 (mkChilds 2 2 2 2) 0 0); vm_compute; reflexivity).
  split; [exact R|]. split; [exact L4|]. split; [exact L1|]. split; [exact L2|]. split; [exact L3|].
  exact (NewTree_never_fails s (mkChilds 4 liveLeaf deadLeaf 3) R L4 L1 L2 L3).
Defined.

(** ** Growing and centering *)

(** C7 (counterexample): for the node [t] of level 17 with one live cell,
    [centeredSubnode(grow(t))] is a new handle, not [t]: [t] is not in
    [nodeMap], so [NewTree] on its children allocates a copy. *)
Theorem grow_centeredSubnode_fresh :
  exists s t n, reachable s /\ heap s !! t = Some n /\ Level n = 17%nat /\
    exists c s' n', (grow t >>= centeredSubnode) s = Some (c, s') /\ c <> t /\
      heap s' !! c = Some n' /\ childs n' = childs n /\ Level n' = Level n /\ Population n' = Population n.
Proof.
  set (s := state_after init ops_level17).
  assert (R : reachable s).
  { apply (run_ops_reachable ops_level17 init [19%N; 36%N] s reach_init). vm_compute. reflexivity. }
  set (n := mkQuadtree 17 (mkChilds 35 18 18 18) 1 0).
  exists s, 36%N, n. split; [exact R|]. split; [vm_compute; reflexivity|]. split; [reflexivity|].
  set (r := (grow 36%N >>= centeredSubnode) s).
  exists 39%N, (match r with Some (_, s') => s' | None => s end), n.
  split; [vm_compute; reflexivity|]. split; [discriminate|].
  split; [vm_compute; reflexivity|]. split; [reflexivity|]. split; reflexivity.
Qed.

(** C7 (amended): in a reachable state, for a node [t] of level
    [1 <= l <= 62] that [NewTree] enters in [nodeMap] (population 0 or
    level [<= 16]), [centeredSubnode(grow(t))] returns [t] itself; for
    [t] of level 2, [centeredSubSubnode(grow(grow(t)))] returns [t]. *)
Theorem grow_centeredSubnode_identity (s : state) (t : ptr) (n : Quadtree) :
  reachable s -> heap s !! t = Some n -> (1 <= Level n <= 62)%nat ->
  (Population n = 0 \/ (Level n <= 16)%nat) ->
  (exists s', (grow t >>= centeredSubnode) s = Some (t, s')) /\
  (Level n = 2%nat -> exists s', (grow t >>= grow >>= centeredSubSubnode) s = Some (t, s')).
Proof.
  intros R E HL Hi. pose proof (reachable_Inv s R) as I.
  destruct (Level n) as [|L] eqn:Ln; [lia|].
  split.
  - destruct (grow_centeredSubnode_read s t n L I E Ln ltac:(lia)) as (s' & I' & Hx & Eq).
    exists s'. rewrite Eq. apply (NewTree_interned s s' t n I I' Hx E); [lia|]. rewrite Ln. exact Hi.
  - intros L2. injection L2 as ->.
    destruct (grow_grow_centeredSubSubnode_read s t n 1 I E Ln ltac:(lia)) as (s' & I' & Hx & Eq).
    exists s'. rewrite Eq. apply (NewTree_interned s s' t n I I' Hx E); [lia|]. rewrite Ln. right; lia.
Qed.

Lemma grow_centeredSubnode_identity_witness :
  let s := state_after init ops_level2_cell in
  let n := mkQuadtree 2 (mkChilds 5 3 3 3) 1 0 in
  reachable s /\ heap s !! 6%N = Some n /\ (1 <= Level n <= 62)%nat /\
  (Population n = 0 \/ (Level n <= 16)%nat) /\
  (exists s', (grow 6%N >>= centeredSubnode) s = Some (6%N, s')) /\
  (Level n = 2%nat -> exists s', (grow 6%N >>= grow >>= centeredSubSubnode) s = Some (6%N, s')).
Proof.
  intros s n.
  assert (R : reachable s).
  { apply (run_ops_reachable ops_level2_cell init [4%N; 6%N] s reach_init). vm_compute. reflexivity. }
  assert (E : heap s !! 6%N = Some n) by (vm_compute; reflexivity).
  assert (HL : (1 <= Level n <= 62)%nat) by (simpl; lia).
  assert (Hi : Population n = 0 \/ (Level n <= 16)%nat) by (right; simpl; lia).
  split; [exact R|]. split; [exact E|]. split; [exact HL|]. split; [exact Hi|].
  exact (grow_centeredSubnode_identity s 6%N n R E HL Hi).
Defined.

End HeapClaims.

Module TreeOpsFacts.
Import Tree TreeOps TreeFacts.

Lemma pow4_le (m : nat) : (m <= 31)%nat -> 4 ^ Z.of_nat m <= 2 ^ 62.
Proof.
  intros Hm. transitivity (4 ^ 31); [apply Z.pow_le_mono_r; lia | reflexivity].
Qed.

Lemma pow4_S (m : nat) : 4 ^ Z.of_nat (S m) = 4 * 4 ^ Z.of_nat m.
Proof. rewrite Nat2Z.inj_succ, Z.pow_succ_r by lia. lia. Qed.

(** Up to level 31 the population of a tree is the number of its live
    cells, at most [4^l], with no wrap-around; a tree of population 0
    has no live cell. *)
Lemma pop_bound (t : Quadtree) :
  wf t -> (Level t <= 31)%nat ->
  0 <= Population t <= 4 ^ Z.of_nat (Level t) /\ (Population t = 0 -> forall i j, get t i j = false).
Proof.
  induction t as [b|l p se IHse sw IHsw nw IHnw ne IHne]; intros W HL.
  - destruct b; simpl; split; try lia; intros; try discriminate; reflexivity.
  - destruct W as (-> & Hse & Hsw & Hnw & -> & Wse & Wsw & Wnw & Wne). simpl Level in *.
    destruct (IHse Wse ltac:(lia)) as [Bse Zse]. destruct (IHsw Wsw ltac:(lia)) as [Bsw Zsw].
    destruct (IHnw Wnw ltac:(lia)) as [Bnw Znw]. destruct (IHne Wne ltac:(lia)) as [Bne Zne].
    rewrite Hse in Bse. rewrite Hsw in Bsw. rewrite Hnw in Bnw.
    pose proof (pow4_le (S (Level ne)) ltac:(lia)). pose proof (pow4_S (Level ne)).
    unfold population; simpl SE; simpl SW; simpl NW; simpl NE.
    rewrite wrap64_id by (unfold int64; lia).
    cbn [Population]. split; [lia|]. intros HP0 i j. rewrite get_Node.
    destruct (i <? _), (j <? _); [apply Znw | apply Zsw | apply Zne | apply Zse]; lia.
Qed.

Lemma shl1_distance (m : nat) : (m <= 62)%nat -> shl1 (usub (S m) 1) = 2 ^ Z.of_nat m.
Proof.
  intros Hm. rewrite usub_small by lia. replace (S m - 1)%nat with m by lia.
  apply shl1_small; exact Hm.
Qed.

(** The calls [FindLifeCells] makes from the north-west corner
    [(x0, y0)]: each live cell once, at its coordinates. *)
Lemma FindLifeCells_spec (t : Quadtree) :
  wf t -> (Level t <= 31)%nat ->
  forall x0 y0, - 2 ^ 62 <= x0 -> x0 + 2 ^ Z.of_nat (Level t) <= 2 ^ 62 ->
    - 2 ^ 62 <= y0 -> y0 + 2 ^ Z.of_nat (Level t) <= 2 ^ 62 ->
    NoDup (FindLifeCells t x0 y0) /\
    Z.of_nat (length (FindLifeCells t x0 y0)) = Population t /\
    forall x y, In (x, y) (FindLifeCells t x0 y0) <->
      0 <= x - x0 < 2 ^ Z.of_nat (Level t) /\ 0 <= y - y0 < 2 ^ Z.of_nat (Level t) /\
      get t (x - x0) (y - y0) = true.
Proof.
  induction t as [b|l p se IHse sw IHsw nw IHnw ne IHne]; intros W HL x0 y0 Hx0 Hx1 Hy0 Hy1.
  - destruct b; simpl.
    + split; [apply NoDup_singleton|]. split; [reflexivity|].
      intros x y. split.
      * intros [E|[]]. injection E as <- <-. rewrite Z.sub_diag. lia.
      * intros (Hx & Hy & _). left. f_equal; lia.
    + split; [constructor|]. split; [reflexivity|]. intros x y. split; [intros []|intros (_ & _ & [=])].
  - pose proof (pop_bound _ W HL) as [Bp Zp].
    destruct W as (-> & Hse & Hsw & Hnw & -> & Wse & Wsw & Wnw & Wne). simpl Level in *.
    set (m := Level ne) in *.
    set (p := population (mkChilds se sw nw ne)) in *.
    pose proof (pow_S m) as P2. pose proof (pow_pos_nat m) as Pm.
    assert (Hm62 : 2 ^ Z.of_nat m <= 2 ^ 31) by (apply Z.pow_le_mono_r; lia).
    cbn [FindLifeCells]. cbn [Population Level].
    destruct (Z.eqb_spec p 0) as [E0|E0].
    + split; [constructor|]. split; [simpl; lia|]. intros x y. split; [intros []|].
      intros (_ & _ & G). rewrite (Zp E0) in G. discriminate.
    + cbn [Nat.eqb]. rewrite shl1_distance by lia.
      rewrite !wrap64_id by (unfold int64; lia).
      destruct (IHse Wse ltac:(lia) (x0 + 2 ^ Z.of_nat m) (y0 + 2 ^ Z.of_nat m)) as (Dse & Lse & Ise);
        try (rewrite Hse); try lia.
      destruct (IHsw Wsw ltac:(lia) x0 (y0 + 2 ^ Z.of_nat m)) as (Dsw & Lsw & Isw);
        try (rewrite Hsw); try lia.
      destruct (IHnw Wnw ltac:(lia) x0 y0) as (Dnw & Lnw & Inw); try (rewrite Hnw); try lia.
      destruct (IHne Wne ltac:(lia) (x0 + 2 ^ Z.of_nat m) y0) as (Dne & Lne & Ine); try lia.
      rewrite Hse in Ise. rewrite Hsw in Isw. rewrite Hnw in Inw.
      assert (Hin : forall x y, In (x, y)
          (FindLifeCells se (x0 + 2 ^ Z.of_nat m) (y0 + 2 ^ Z.of_nat m) ++
           FindLifeCells sw x0 (y0 + 2 ^ Z.of_nat m) ++ FindLifeCells nw x0 y0 ++
           FindLifeCells ne (x0 + 2 ^ Z.of_nat m) y0) <->
          0 <= x - x0 < 2 ^ Z.of_nat (S m) /\ 0 <= y - y0 < 2 ^ Z.of_nat (S m) /\
          get (Node (S m) p se sw nw ne) (x - x0) (y - y0) = true).
      { intros x y. rewrite !in_app_iff, Ise, Isw, Inw, Ine, P2, get_Node. fold m.
        destruct (Z.ltb_spec (x - x0) (2 ^ Z.of_nat m)), (Z.ltb_spec (y - y0) (2 ^ Z.of_nat m));
          (split; [intros [(? & ? & G)|[(? & ? & G)|[(? & ? & G)|(? & ? & G)]]]; try lia;
                   (split; [lia|]; split; [lia|]);
                   (rewrite <- G; f_equal; lia)
                  |intros (? & ? & G)]);
          [ right; right; left | right; left | right; right; right | left ];
          (split; [lia|]; split; [lia|]);
          (rewrite <- G; f_equal; lia). }
      split; [|split; [|exact Hin]].
      * assert (Disj : forall A B : list (Z * Z), NoDup A -> NoDup B ->
                 (forall a, In a A -> In a B -> False) -> NoDup (A ++ B)).
        { intros A B HA HB HAB. apply NoDup_app. split; [exact HA|]. split; [|exact HB].
          intros a Ha Hb. apply list_elem_of_In in Ha, Hb. exact (HAB a Ha Hb). }
        apply Disj; [exact Dse| |].
        { apply Disj; [exact Dsw| |].
          { apply Disj; [exact Dnw|exact Dne|].
            intros [x y]. rewrite Inw, Ine. lia. }
          intros [x y]. rewrite Isw, !in_app_iff, Inw, Ine. lia. }
        intros [x y]. rewrite Ise, !in_app_iff, Isw, Inw, Ine. lia.
      * rewrite !length_app, !Nat2Z.inj_add, Lse, Lsw, Lnw, Lne.
        cbn [Population]. subst p. unfold population; simpl SE; simpl SW; simpl NW; simpl NE.
        pose proof (pop_bound se Wse ltac:(lia)) as [Bse _].
        pose proof (pop_bound sw Wsw ltac:(lia)) as [Bsw _].
        pose proof (pop_bound nw Wnw ltac:(lia)) as [Bnw _].
        pose proof (pop_bound ne Wne ltac:(lia)) as [Bne _].
        rewrite Hse in Bse. rewrite Hsw in Bsw. rewrite Hnw in Bnw.
        fold m in Bne. pose proof (pow4_le (S m) ltac:(lia)). pose proof (pow4_S m). rewrite wrap64_id by (unfold int64; lia). lia.
Qed.

(** From the root origin [-2^(l-1)]: the calls are exactly the live
    cells of the box, each once. *)
Lemma FindLifeCells_root (t : Quadtree) (l : nat) :
  wf t -> Level t = S l -> (S l <= 31)%nat ->
  NoDup (FindLifeCells t (- 2 ^ Z.of_nat l) (- 2 ^ Z.of_nat l)) /\
  Z.of_nat (length (FindLifeCells t (- 2 ^ Z.of_nat l) (- 2 ^ Z.of_nat l))) = Population t /\
  forall x y, In (x, y) (FindLifeCells t (- 2 ^ Z.of_nat l) (- 2 ^ Z.of_nat l)) <->
    in_box (S l) x y /\ Cell t x y = Some 1.
Proof.
  intros W L Hl. pose proof (pow_S l) as P. pose proof (pow_pos_nat l) as Pl.
  assert (B : 2 ^ Z.of_nat l <= 2 ^ 30) by (apply Z.pow_le_mono_r; lia).
  idtac.
  destruct (FindLifeCells_spec t W ltac:(lia) (- 2 ^ Z.of_nat l) (- 2 ^ Z.of_nat l))
    as (D & Len & I); try (rewrite ?L; lia). rewrite L in I.
  split; [exact D|]. split; [exact Len|]. intros x y. rewrite I.
  split.
  - intros (Hx & Hy & G). assert (Hb : in_box (S l) x y) by (apply in_box_S; unfold int64; lia).
    split; [exact Hb|]. rewrite (Cell_get t l x y W L ltac:(lia) Hb).
    replace (x + 2 ^ Z.of_nat l) with (x - - 2 ^ Z.of_nat l) by lia.
    replace (y + 2 ^ Z.of_nat l) with (y - - 2 ^ Z.of_nat l) by lia. rewrite G. reflexivity.
  - intros [Hb C]. pose proof Hb as Hb'. apply in_box_S in Hb' as (_ & _ & Hx & Hy).
    rewrite (Cell_get t l x y W L ltac:(lia) Hb) in C.
    split; [lia|]. split; [lia|].
    replace (x - - 2 ^ Z.of_nat l) with (x + 2 ^ Z.of_nat l) by lia.
    replace (y - - 2 ^ Z.of_nat l) with (y + 2 ^ Z.of_nat l) by lia.
    destruct (get _ _ _); [reflexivity|discriminate].
Qed.

(** [SetCell] changes the population by the change of the cell it
    writes (no wrap-around up to level 31). *)
Lemma SetCell_Population (t : Quadtree) : forall x y v t',
  wf t -> (Level t <= 31)%nat -> SetCell t x y v = Some t' ->
  exists c, Cell t x y = Some c /\
    Population t' = Population t - c + (if v =? 0 then 0 else 1).
Proof.
  induction t as [b|l p se IHse sw IHsw nw IHnw ne IHne]; intros x y v t' W HL Hset.
  - simpl in Hset. unfold Cell. rewrite findLeaf_Leaf.
    destruct (leaf_ok x y); [|discriminate]. injection Hset as <-.
    eexists; split; [reflexivity|]. destruct b, (v =? 0); simpl; lia.
  - pose proof W as W0.
    destruct W as (-> & Hse & Hsw & Hnw & -> & Wse & Wsw & Wnw & Wne). simpl Level in *.
    pose proof (pop_bound se Wse ltac:(lia)) as [Bse _].
    pose proof (pop_bound sw Wsw ltac:(lia)) as [Bsw _].
    pose proof (pop_bound nw Wnw ltac:(lia)) as [Bnw _].
    pose proof (pop_bound ne Wne ltac:(lia)) as [Bne _].
    rewrite Hse in Bse. rewrite Hsw in Bsw. rewrite Hnw in Bnw.
    pose proof (pow4_le (S (Level ne)) ltac:(lia)). pose proof (pow4_S (Level ne)).
    rewrite SetCell_Node in Hset. unfold Cell. rewrite findLeaf_Node. cbv zeta in *.
    destruct (x >=? 0), (y >=? 0); revert Hset;
      match goal with |- match ?m with _ => _ end = _ -> _ => destruct m as [c'|] eqn:E end;
      intros Hset; try discriminate; injection Hset as <-;
      [ destruct (SetCell_Level _ _ _ _ _ Wse E) as [Lc Wc];
        destruct (IHse _ _ _ _ Wse ltac:(lia) E) as (c & Ec & Pc)
      | destruct (SetCell_Level _ _ _ _ _ Wne E) as [Lc Wc];
        destruct (IHne _ _ _ _ Wne ltac:(lia) E) as (c & Ec & Pc)
      | destruct (SetCell_Level _ _ _ _ _ Wsw E) as [Lc Wc];
        destruct (IHsw _ _ _ _ Wsw ltac:(lia) E) as (c & Ec & Pc)
      | destruct (SetCell_Level _ _ _ _ _ Wnw E) as [Lc Wc];
        destruct (IHnw _ _ _ _ Wnw ltac:(lia) E) as (c & Ec & Pc) ];
      unfold Cell in Ec; (destruct (findLeaf _ _ _) as [lf|]; [|discriminate]);
      injection Ec as <-; eexists; (split; [reflexivity|]);
      pose proof (pop_bound c' Wc ltac:(lia)) as [Bc _]; rewrite Lc in Bc;
      try rewrite Hse in Bc; try rewrite Hsw in Bc; try rewrite Hnw in Bc;
      unfold NewTree, population; cbn [Population SE SW NW NE];
      rewrite !wrap64_id by (unfold int64; destruct (v =? 0); lia);
      destruct (v =? 0); lia.
Qed.

Lemma leaf_ok_iff (x y : Z) :
  int64 x -> int64 y -> leaf_ok x y = true <-> fits 0 x /\ fits 0 y.
Proof.
  intros Hx Hy. split; [|intros [A B]; apply leaf_ok_fits; assumption].
  unfold leaf_ok, fits. rewrite !Z.gtb_ltb.
  destruct (Z.ltb_spec x (-1)), (Z.ltb_spec 0 x), (Z.ltb_spec y (-1)), (Z.ltb_spec 0 y);
    simpl; intros Hok; try discriminate; split; split; auto; left; lia.
Qed.

(** A coordinate outside the accepted range stays outside in the child
    [findLeaf] and [SetCell] descend to. *)
Lemma fits_step_out (l : nat) (x : Z) :
  (1 <= l <= 64)%nat -> int64 x -> ~ fits l x ->
  (0 <= x -> ~ fits (l - 1) (wrap64 (x - shl1 (usub l 2)))) /\
  (x < 0 -> ~ fits (l - 1) (wrap64 (x + shl1 (usub l 2)))).
Proof.
  intros Hl Hx Hn.
  destruct (Nat.eq_dec l 1%nat) as [->|Hl1].
  - rewrite distance_one, Z.sub_0_r, Z.add_0_r, wrap64_id by exact Hx.
    split; intros _ F; apply Hn; destruct F as [_ F]; (split; [exact Hx|]); simpl in F |- *; lia.
  - rewrite distance_small by lia.
    assert (Hp : 2 ^ (Z.of_nat l - 1) = 2 * 2 ^ (Z.of_nat l - 2)).
    { replace (Z.of_nat l - 1) with (Z.of_nat l - 2 + 1) by lia.
      rewrite Z.pow_add_r by lia. lia. }
    assert (Hb : 1 <= 2 ^ (Z.of_nat l - 2) <= 2 ^ 62).
    { split; [apply Z.pow_le_mono_r with (a := 2) (b := 0); lia | apply Z.pow_le_mono_r; lia]. }
    assert (Out : x < - 2 ^ (Z.of_nat l - 1) \/ 2 ^ (Z.of_nat l - 1) <= x).
    { destruct (Z.lt_ge_cases x (- 2 ^ (Z.of_nat l - 1))); [left; exact H|].
      destruct (Z.lt_ge_cases x (2 ^ (Z.of_nat l - 1))); [|right; exact H0].
      exfalso. apply Hn. split; [exact Hx|]. right; left. split; [lia|]. lia. }
    unfold fits. replace (Z.of_nat (l - 1) - 1) with (Z.of_nat l - 2) by lia.
    split; intros Hs; (rewrite wrap64_id; [|unfold int64 in *; lia]);
      intros (_ & [F|[F|F]]); lia.
Qed.

Lemma findLeaf_out (t : Quadtree) : forall x y,
  wf t -> (Level t <= 64)%nat -> int64 x -> int64 y ->
  ~ (fits (Level t) x /\ fits (Level t) y) -> findLeaf t x y = None.
Proof.
  induction t as [b|l p se IHse sw IHsw nw IHnw ne IHne]; intros x y W HL Hx Hy Hn.
  - rewrite findLeaf_Leaf. destruct (leaf_ok x y) eqn:E; [|reflexivity].
    exfalso. apply Hn. apply leaf_ok_iff; assumption.
  - destruct W as (-> & Hse & Hsw & Hnw & -> & Wse & Wsw & Wnw & Wne). simpl Level in *.
    assert (Hor : ~ fits (S (Level ne)) x \/ ~ fits (S (Level ne)) y).
    { assert (D : Decision (fits (S (Level ne)) x)) by (unfold fits, int64; apply _).
      destruct D as [A|A]; [|left; exact A].
      right. intros B. apply Hn. split; assumption. }
    pose proof (fits_step_out (S (Level ne)) x ltac:(lia) Hx) as Ox.
    pose proof (fits_step_out (S (Level ne)) y ltac:(lia) Hy) as Oy.
    replace (S (Level ne) - 1)%nat with (Level ne) in * by lia.
    rewrite findLeaf_Node. cbv zeta. rewrite !Z.geb_leb.
    destruct (Z.leb_spec 0 x), (Z.leb_spec 0 y);
      [ apply IHse | apply IHne | apply IHsw | apply IHnw ]; try assumption;
      try apply wrap64_int64; try lia;
      try rewrite Hse; try rewrite Hsw; try rewrite Hnw;
      (intros [A B]; destruct Hor as [C|C];
       [ apply (proj1 (Ox C)) + apply (proj2 (Ox C)) | apply (proj1 (Oy C)) + apply (proj2 (Oy C)) ];
       assumption).
Qed.

Lemma findLeaf_in (t : Quadtree) (x y : Z) :
  wf t -> (Level t <= 64)%nat -> fits (Level t) x -> fits (Level t) y ->
  exists b, findLeaf t x y = Some (Leaf b).
Proof.
  intros W HL Hx Hy. destruct (Level t) as [|l] eqn:L.
  - destruct (wf_level0 t W L) as [b ->]. exists b.
    rewrite findLeaf_Leaf, leaf_ok_fits by assumption. reflexivity.
  - eexists. apply (findLeaf_get t l x y W L HL Hx Hy).
Qed.

Lemma SetCell_None_iff (t : Quadtree) : forall x y v,
  SetCell t x y v = None <-> findLeaf t x y = None.
Proof.
  induction t as [b|l p se IHse sw IHsw nw IHnw ne IHne]; intros x y v.
  - simpl. destruct (leaf_ok x y); split; congruence.
  - destruct l as [|l].
    + simpl. destruct (leaf_ok x y); split; congruence.
    + rewrite SetCell_Node, findLeaf_Node. cbv zeta.
      destruct (x >=? 0), (y >=? 0);
        [ rewrite <- (IHse _ _ v) | rewrite <- (IHne _ _ v)
        | rewrite <- (IHsw _ _ v) | rewrite <- (IHnw _ _ v) ];
        (destruct (SetCell _ _ _ v); split; congruence).
Qed.

Lemma wf_pop_int64 (t : Quadtree) : wf t -> int64 (Population t).
Proof.
  destruct t as [b|l p se sw nw ne]; simpl.
  - intros _. unfold int64. destruct b; lia.
  - intros (_ & _ & _ & _ & -> & _). apply wrap64_int64.
Qed.

Lemma EmptyTree_Population (k : nat) : Population (EmptyTree k) = 0.
Proof.
  induction k as [|k IH]; [reflexivity|]. simpl.
  destruct (uadd_is_zero (S k) 1 || uadd_is_zero (S k) 2); [reflexivity|].
  unfold NewTree, population; cbn [Population SE SW NW NE]. rewrite IH. reflexivity.
Qed.

(** [grow] keeps the population and the cells of the old box, and the
    new ring reads dead. *)
Lemma grow_value_spec (t : Quadtree) (l : nat) :
  wf t -> Level t = S l -> (S l <= 62)%nat ->
  exists g, grow t = Some g /\ wf g /\ Level g = S (S l) /\ Population g = Population t /\
    forall x y, in_box (S (S l)) x y ->
      Cell g x y = if bool_decide (in_box (S l) x y) then Cell t x y else Some 0.
Proof.
  intros W L Hl.
  destruct (grow_rep t l (get t) 0 0 Hl ltac:(rewrite <- L; apply rep_self; exact W))
    as (g & E & (Wg & Lg & Gg)).
  exists g. split; [exact E|]. split; [exact Wg|]. split; [exact Lg|]. split.
  - destruct t as [b|L' p se sw nw ne]; [discriminate|].
    pose proof W as (-> & Hse & Hsw & Hnw & -> & Wse & Wsw & Wnw & Wne).
    unfold grow in E. simpl Level in E.
    destruct (63 <=? S (Level ne))%nat; [discriminate|].
    destruct (S (Level ne) <? 1)%nat; [discriminate|]. injection E as <-.
    unfold NewTree, population; cbn [Population SE SW NW NE Level].
    rewrite !EmptyTree_Population, !Z.add_0_r, !Z.add_0_l.
    rewrite !(wrap64_id (Population _)) by (apply wf_pop_int64; assumption).
    reflexivity.
  - intros x y B. pose proof (pow_S l) as P. pose proof (pow_pos_nat l) as Pl.
    assert (Hb : 2 ^ Z.of_nat (S l) <= 2 ^ 62) by (apply Z.pow_le_mono_r; lia).
    rewrite (Cell_get g (S l) x y Wg Lg ltac:(lia) B).
    pose proof B as B'. apply in_box_S in B' as (Ix & Iy & Bx & By).
    pose proof (pow_S (S l)) as P2. rewrite Gg by lia.
    replace (0 - 2 ^ Z.of_nat l + (x + 2 ^ Z.of_nat (S l))) with (x + 2 ^ Z.of_nat l) by lia.
    replace (0 - 2 ^ Z.of_nat l + (y + 2 ^ Z.of_nat (S l))) with (y + 2 ^ Z.of_nat l) by lia.
    destruct (bool_decide_reflect (in_box (S l) x y)) as [Bi|Bi].
    + rewrite (Cell_get t l x y W L ltac:(lia) Bi).
      apply in_box_S in Bi as (_ & _ & Bx' & By').
      rewrite clip_in by lia. reflexivity.
    + rewrite clip_out; [reflexivity|]. intros [Cx Cy]. apply Bi, in_box_S.
      split; [exact Ix|]. split; [exact Iy|]. lia.
Qed.

(** ** Canonicity: a well-formed tree is determined by its cells *)

Lemma rep_unique (l : nat) : forall a b F ox oy,
  rep a l F ox oy -> rep b l F ox oy -> a = b.
Proof.
  induction l as [|l IH]; intros a b F ox oy Ha Hb.
  - rewrite (rep_level0 _ _ _ _ Ha), (rep_level0 _ _ _ _ Hb). reflexivity.
  - pose proof Ha as (Wa & _). pose proof Hb as (Wb & _).
    destruct (rep_node _ _ _ _ _ Ha) as (p & se & sw & nw & ne & -> & A1 & A2 & A3 & A4).
    destruct (rep_node _ _ _ _ _ Hb) as (p' & se' & sw' & nw' & ne' & -> & B1 & B2 & B3 & B4).
    rewrite (IH _ _ _ _ _ A1 B1), (IH _ _ _ _ _ A2 B2), (IH _ _ _ _ _ A3 B3), (IH _ _ _ _ _ A4 B4) in *.
    destruct Wa as (_ & _ & _ & _ & -> & _). destruct Wb as (_ & _ & _ & _ & -> & _).
    reflexivity.
Qed.

Lemma Cell_ext (a b : Quadtree) (l : nat) :
  wf a -> wf b -> Level a = S l -> Level b = S l -> (S l <= 64)%nat ->
  (forall x y, in_box (S l) x y -> Cell a x y = Cell b x y) -> a = b.
Proof.
  intros Wa Wb La Lb Hl H.
  apply (rep_unique (S l) a b (get b) 0 0); [|rewrite <- Lb; apply rep_self; exact Wb].
  split; [exact Wa|]. split; [exact La|]. intros i j Hi Hj. rewrite !Z.add_0_l.
  pose proof (pow_S l) as P. pose proof (pow_pos_nat l) as Pl.
  assert (Hb : 2 ^ Z.of_nat l <= 2 ^ 63) by (apply Z.pow_le_mono_r; lia).
  assert (B : in_box (S l) (i - 2 ^ Z.of_nat l) (j - 2 ^ Z.of_nat l)).
  { apply in_box_S. unfold int64. lia. }
  specialize (H _ _ B).
  rewrite (Cell_get a l _ _ Wa La Hl B), (Cell_get b l _ _ Wb Lb Hl B) in H.
  rewrite !Z.sub_add in H.
  destruct (get a i j), (get b i j); congruence.
Qed.

(** ** [SetCell] round trips *)

Lemma SetCell_cells (t t' : Quadtree) (x y v : Z) :
  wf t -> (1 <= Level t <= 64)%nat -> in_box (Level t) x y -> SetCell t x y v = Some t' ->
  wf t' /\ Level t' = Level t /\
  forall x' y', in_box (Level t) x' y' ->
    Cell t' x' y' = if bool_decide ((x', y') = (x, y)) then Some (if v =? 0 then 0 else 1) else Cell t x' y'.
Proof.
  intros W Hl B E. destruct (in_box_fits _ _ _ B) as [Fx Fy].
  destruct (SetCell_Level t x y v t' W E) as [L' W'].
  split; [exact W'|]. split; [exact L'|]. intros x' y' B'.
  destruct (in_box_fits _ _ _ B') as [Fx' Fy'].
  case_bool_decide as Q.
  - injection Q as -> ->. destruct (SetCell_same t x y v W Fx Fy) as (t'' & E' & C).
    rewrite E in E'. injection E' as <-. exact C.
  - apply (SetCell_other t x y x' y' v t'); auto. lia.
Qed.

Lemma SetCell_ok (t : Quadtree) (x y v : Z) :
  wf t -> in_box (Level t) x y -> exists t', SetCell t x y v = Some t'.
Proof.
  intros W B. destruct (in_box_fits _ _ _ B) as [Fx Fy].
  destruct (SetCell_same t x y v W Fx Fy) as (t' & E & _). eauto.
Qed.

Lemma Cell_01 (t : Quadtree) (x y c : Z) :
  wf t -> (1 <= Level t <= 64)%nat -> in_box (Level t) x y -> Cell t x y = Some c ->
  (if c =? 0 then 0 else 1) = c.
Proof.
  intros W Hl B C. destruct (Level t) as [|l] eqn:L; [lia|].
  rewrite (Cell_get t l x y W L ltac:(lia) B) in C. injection C as <-.
  destruct (get _ _ _); reflexivity.
Qed.

Lemma SetCell_write_same (t : Quadtree) (x y c : Z) :
  wf t -> (1 <= Level t <= 64)%nat -> in_box (Level t) x y -> Cell t x y = Some c ->
  SetCell t x y c = Some t.
Proof.
  intros W Hl B C. destruct (SetCell_ok t x y c W B) as (t' & E). rewrite E. f_equal.
  destruct (SetCell_cells t t' x y c W Hl B E) as (W' & L' & Ct').
  destruct (Level t) as [|l] eqn:L; [lia|].
  apply (Cell_ext t' t l W' W L' L ltac:(lia)). intros x' y' B'.
  rewrite (Ct' x' y' B'). case_bool_decide as Q; [|reflexivity].
  injection Q as -> ->. rewrite C. f_equal. apply (Cell_01 t x y c W); rewrite ?L; auto.
Qed.

Lemma SetCell_write_twice (t : Quadtree) (x y v w : Z) :
  wf t -> (1 <= Level t <= 64)%nat -> in_box (Level t) x y ->
  (t1 ← SetCell t x y v; SetCell t1 x y w) = SetCell t x y w.
Proof.
  intros W Hl B.
  destruct (SetCell_ok t x y v W B) as (t1 & E1). rewrite E1. cbn [mbind option_bind].
  destruct (SetCell_cells t t1 x y v W Hl B E1) as (W1 & L1 & C1).
  rewrite <- L1 in B.
  destruct (SetCell_ok t1 x y w W1 B) as (t2 & E2). rewrite E2.
  rewrite L1 in B.
  destruct (SetCell_ok t x y w W B) as (t3 & E3). rewrite E3. f_equal.
  destruct (SetCell_cells t1 t2 x y w W1 ltac:(lia) ltac:(rewrite L1; exact B) E2) as (W2 & L2 & C2).
  destruct (SetCell_cells t t3 x y w W Hl B E3) as (W3 & L3 & C3).
  destruct (Level t) as [|l] eqn:L; [lia|].
  apply (Cell_ext t2 t3 l W2 W3 ltac:(congruence) L3 ltac:(lia)). intros x' y' B'.
  rewrite C2 by congruence. rewrite C3 by exact B'.
  case_bool_decide as Q; [reflexivity|]. rewrite C1 by exact B'.
  rewrite bool_decide_false by exact Q. reflexivity.
Qed.

Lemma SetCell_write_comm (t : Quadtree) (x y x' y' v w : Z) :
  wf t -> (1 <= Level t <= 64)%nat -> in_box (Level t) x y -> in_box (Level t) x' y' ->
  (x, y) <> (x', y') ->
  exists r, (t1 ← SetCell t x y v; SetCell t1 x' y' w) = Some r /\
            (t2 ← SetCell t x' y' w; SetCell t2 x y v) = Some r.
Proof.
  intros W Hl B B' Hne.
  destruct (SetCell_ok t x y v W B) as (t1 & E1). rewrite E1. cbn [mbind option_bind].
  destruct (SetCell_ok t x' y' w W B') as (t2 & E2). rewrite E2. cbn [mbind option_bind].
  destruct (SetCell_cells t t1 x y v W Hl B E1) as (W1 & L1 & C1).
  destruct (SetCell_cells t t2 x' y' w W Hl B' E2) as (W2 & L2 & C2).
  destruct (SetCell_ok t1 x' y' w W1 ltac:(rewrite L1; exact B')) as (t12 & E12).
  destruct (SetCell_ok t2 x y v W2 ltac:(rewrite L2; exact B)) as (t21 & E21).
  rewrite E12, E21. exists t12. split; [reflexivity|]. f_equal.
  destruct (SetCell_cells t1 t12 x' y' w W1 ltac:(lia) ltac:(rewrite L1; exact B') E12) as (W12 & L12 & C12).
  destruct (SetCell_cells t2 t21 x y v W2 ltac:(lia) ltac:(rewrite L2; exact B) E21) as (W21 & L21 & C21).
  rewrite L1 in L12, C12. rewrite L2 in L21, C21.
  destruct (Level t) as [|l] eqn:L; [lia|].
  apply (Cell_ext t21 t12 l W21 W12 L21 L12 ltac:(lia)). intros a b Bab.
  rewrite (C21 a b Bab), (C12 a b Bab), (C1 a b Bab), (C2 a b Bab).
  case_bool_decide as Q1; case_bool_decide as Q2; try reflexivity.
  exfalso. apply Hne. congruence.
Qed.

(** ** Empty trees *)

Lemma EmptyTree_cells (k : nat) :
  (k <= 63)%nat ->
  wf (EmptyTree k) /\ Level (EmptyTree k) = k /\ Population (EmptyTree k) = 0 /\
  forall x y, in_box k x y -> Cell (EmptyTree k) x y = Some 0.
Proof.
  intros Hk. destruct (EmptyTree_props k Hk) as (W & L & G).
  split; [exact W|]. split; [exact L|]. split; [apply EmptyTree_Population|].
  intros x y B. destruct k as [|l].
  - destruct B as (_ & _ & [-> ->]). reflexivity.
  - rewrite (Cell_get (EmptyTree (S l)) l x y W L ltac:(lia) B), G. reflexivity.
Qed.

Lemma clip_false (l : nat) (ox oy x y : Z) : clip l (fun _ _ => false) ox oy x y = false.
Proof. unfold clip. rewrite andb_false_r. reflexivity. Qed.

(** The empty universe stays empty. *)
Lemma NextGen_EmptyTree (k : nat) :
  (1 <= k <= 62)%nat -> NextGen (EmptyTree k) = Some (EmptyTree k).
Proof.
  intros Hk. destruct k as [|l]; [lia|].
  destruct (grow_rep (EmptyTree (S l)) l (fun _ _ => false) 0 0 ltac:(lia)
              (EmptyTree_rep (S l) _ 0 0 ltac:(lia) (fun _ _ _ _ => eq_refl))) as (g & Eg & Rg).
  unfold NextGen. rewrite Eg. cbn [mbind option_bind]. unfold NextGeneration.
  pose proof Rg as (_ & Lg & _). rewrite Lg.
  destruct (NextGeneration_rep l g _ _ _ Rg) as (r & Er & Rr). rewrite Er. f_equal.
  apply (rep_unique (S l) r (EmptyTree (S l)) (fun _ _ => false) (0 - 2 ^ Z.of_nat l + 2 ^ Z.of_nat l) (0 - 2 ^ Z.of_nat l + 2 ^ Z.of_nat l)).
  - apply (rep_ext _ _ _ _ _ _ _ _ Rr). intros i j _ _.
    rewrite (life_ext _ (fun _ _ => false)) by (intros; apply clip_false). reflexivity.
  - apply EmptyTree_rep; [lia|]. reflexivity.
Qed.

(** ** [treeCorrectness] of the tests *)

Lemma treeCorrectness_wf (t : Quadtree) :
  wf t -> (N.of_nat (Level t) < 2 ^ 64)%N -> treeCorrectness t = true.
Proof.
  induction t as [b|l p se IHse sw IHsw nw IHnw ne IHne]; intros W HL; [reflexivity|].
  destruct W as (-> & Hse & Hsw & Hnw & -> & Wse & Wsw & Wnw & Wne). simpl Level in HL.
  cbn [treeCorrectness Level Nat.eqb].
  rewrite usub_small by lia. replace (S (Level ne) - 1)%nat with (Level ne) by lia.
  rewrite Hse, Hsw, Hnw, N.eqb_refl.
  rewrite IHse, IHsw, IHnw, IHne by (try rewrite Hse; try rewrite Hsw; try rewrite Hnw; first [assumption | lia]).
  reflexivity.
Qed.

(** ** [String] *)

Lemma Repeat_nonneg (s : string) (count : Z) :
  0 <= count -> Z.of_nat (String.length s) * count < 2 ^ 63 -> exists r, Repeat s count = inl r.
Proof.
  intros H0 H1. unfold Repeat.
  destruct (count =? 0); [eauto|]. destruct (count =? 1); [eauto|].
  rewrite (proj2 (Z.ltb_ge count 0)) by lia.
  rewrite (proj2 (Z.leb_gt _ _)) by lia. eauto.
Qed.

Lemma String_small (t : Quadtree) : (Level t <= 10)%nat -> exists r, String t = inl r.
Proof.
  destruct t as [b|l p se sw nw ne]; intros HL; [eexists; reflexivity|].
  simpl Level in HL. destruct l as [|l]; [eexists; reflexivity|].
  cbn [String Level Nat.eqb].
  rewrite wrap64_id by (unfold int64; lia).
  destruct (Repeat_nonneg "  " (10 - Z.of_nat (S l)) ltac:(lia) ltac:(simpl String.length; lia)) as (sp & E).
  rewrite E. eexists. reflexivity.
Qed.

Lemma String_large (t : Quadtree) :
  (11 <= Level t)%nat -> Z.of_nat (Level t) <= 2 ^ 63 + 10 ->
  String t = inr "strings: negative Repeat count".
Proof.
  destruct t as [b|l p se sw nw ne]; intros HL HL'; simpl Level in *; [lia|].
  destruct l as [|l]; [lia|].
  cbn [String Level Nat.eqb].
  rewrite wrap64_id by (unfold int64; lia).
  unfold Repeat.
  rewrite (proj2 (Z.eqb_neq _ 0)) by lia. rewrite (proj2 (Z.eqb_neq _ 1)) by lia.
  rewrite (proj2 (Z.ltb_lt _ 0)) by lia. reflexivity.
Qed.

(** ** The loops of the test helpers *)

Lemma in_range (n x : Z) : In x (range n) <-> 0 <= x < n.
Proof.
  unfold range. rewrite in_map_iff. split.
  - intros (k & <- & Hk). apply in_seq in Hk. lia.
  - intros Hx. exists (Z.to_nat x). split; [lia|]. apply in_seq. lia.
Qed.

Lemma NoDup_range (n : Z) : List.NoDup (range n).
Proof.
  unfold range. apply NoDup_map_NoDup_ForallPairs; [|apply seq_NoDup].
  intros a b _ _ E. lia.
Qed.

Lemma in_grid (n x y : Z) : In (x, y) (grid n) <-> 0 <= x < n /\ 0 <= y < n.
Proof.
  unfold grid. rewrite in_flat_map. split.
  - intros (a & Ha & Hin). apply in_map_iff in Hin as (b & E & Hb). injection E as <- <-.
    apply in_range in Ha, Hb. lia.
  - intros [Hx Hy]. exists x. split; [apply in_range; exact Hx|].
    apply in_map_iff. exists y. split; [reflexivity | apply in_range; exact Hy].
Qed.

Lemma NoDup_app_disj {A : Type} (l1 l2 : list A) :
  NoDup l1 -> NoDup l2 -> (forall a, In a l1 -> In a l2 -> False) -> NoDup (l1 ++ l2).
Proof.
  intros H1 H2 H. apply NoDup_app. split; [exact H1|]. split; [|exact H2].
  intros a Ha Hb. apply list_elem_of_In in Ha, Hb. exact (H a Ha Hb).
Qed.

Lemma NoDup_grid (n : Z) : NoDup (grid n).
Proof.
  unfold grid. pose proof (NoDup_range n) as D.
  assert (G : forall xs : list Z, NoDup xs ->
            NoDup (flat_map (fun x : Z => map (fun y : Z => (x, y)) (range n)) xs)).
  { intros xs. induction xs as [|a xs IH]; intros Dx; [constructor|].
    apply NoDup_cons in Dx as [Na Dx]. cbn [flat_map]. apply NoDup_app_disj.
    - apply NoDup_ListNoDup, NoDup_map_NoDup_ForallPairs; [|exact D]. intros b c _ _ E. injection E as E. exact E.
    - apply IH, Dx.
    - intros [x y] H1 H2. apply in_map_iff in H1 as (b & E & _). injection E as <- <-.
      apply in_flat_map in H2 as (a' & Ha' & H2). apply in_map_iff in H2 as (b' & E & _).
      injection E as -> _. apply Na, list_elem_of_In, Ha'. }
  apply G, NoDup_ListNoDup, D.
Qed.

(** A loop of [SetCell] calls at distinct cells of the box: each visited
    cell reads what was written there last, the others are unchanged. *)
Lemma fold_writes (f : Z * Z -> Z * Z) (act : Z * Z -> option Z)
    (step : option Quadtree -> Z * Z -> option Quadtree) (L : list (Z * Z)) :
  (forall t p, In p L -> step (Some t) p =
     match act p with Some w => SetCell t (f p).1 (f p).2 w | None => Some t end) ->
  forall t, wf t -> (1 <= Level t <= 64)%nat ->
  (forall p, In p L -> in_box (Level t) (f p).1 (f p).2) -> NoDup (map f L) ->
  exists t', fold_left step L (Some t) = Some t' /\ wf t' /\ Level t' = Level t /\
    (forall p, In p L -> Cell t' (f p).1 (f p).2 =
       match act p with Some w => Some (if w =? 0 then 0 else 1) | None => Cell t (f p).1 (f p).2 end) /\
    (forall x y, in_box (Level t) x y -> (forall p, In p L -> f p <> (x, y)) -> Cell t' x y = Cell t x y).
Proof.
  intros Hstep. induction L as [|a L IH]; intros t W HL B D.
  - exists t. split; [reflexivity|]. split; [exact W|]. split; [reflexivity|].
    split; [intros p []|]. intros; reflexivity.
  - cbn [map] in D. apply NoDup_cons in D as [Na D].
    assert (Ha : in_box (Level t) (f a).1 (f a).2) by (apply B; left; reflexivity).
    assert (S1 : exists t1, step (Some t) a = Some t1 /\ wf t1 /\ Level t1 = Level t /\
               forall x y, in_box (Level t) x y -> Cell t1 x y =
                 if bool_decide ((x, y) = f a) then
                   (match act a with Some w => Some (if w =? 0 then 0 else 1) | None => Cell t x y end)
                 else Cell t x y).
    { rewrite Hstep by (left; reflexivity). destruct (act a) as [w|].
      - destruct (SetCell_ok t (f a).1 (f a).2 w W Ha) as (t1 & E1).
        destruct (SetCell_cells t t1 (f a).1 (f a).2 w W HL Ha E1) as (W1 & L1 & C1).
        exists t1. split; [exact E1|]. split; [exact W1|]. split; [exact L1|].
        intros x y Bxy. rewrite (C1 x y Bxy). destruct (f a). reflexivity.
      - exists t. split; [reflexivity|]. split; [exact W|]. split; [reflexivity|].
        intros x y _. case_bool_decide; reflexivity. }
    destruct S1 as (t1 & E1 & W1 & L1 & C1).
    destruct (IH (fun t0 p Hp => Hstep t0 p (or_intror Hp)) t1 W1 ltac:(lia)
                 ltac:(intros p Hp; rewrite L1; apply B; right; exact Hp) D)
      as (t' & E' & W' & L' & Cin & Cout).
    exists t'. cbn [fold_left]. rewrite E1. split; [exact E'|]. split; [exact W'|].
    split; [congruence|]. rewrite L1 in Cout. split.
    + intros p [<-|Hp].
      * assert (Nout : forall p, In p L -> f p <> ((f a).1, (f a).2)).
        { intros p Hp E. apply Na, list_elem_of_In, in_map_iff. exists p. split; [|exact Hp].
          rewrite E. destruct (f a); reflexivity. }
        rewrite (Cout _ _ Ha Nout).
        rewrite (C1 _ _ Ha). rewrite bool_decide_true by (destruct (f a); reflexivity).
        reflexivity.
      * rewrite (Cin p Hp). destruct (act p) as [w|]; [reflexivity|].
        rewrite (C1 _ _ (B p (or_intror Hp))). rewrite bool_decide_false; [reflexivity|].
        intros E. apply Na, list_elem_of_In, in_map_iff. exists p. split; [|exact Hp].
        destruct (f p); simpl in E; congruence.
    + intros x y Bxy Hn. rewrite (Cout x y Bxy (fun p Hp => Hn p (or_intror Hp))).
      rewrite (C1 x y Bxy). rewrite bool_decide_false; [reflexivity|].
      intros E. apply (Hn a (or_introl eq_refl)). congruence.
Qed.

Lemma grow_EmptyTree (k : nat) :
  (1 <= k <= 62)%nat -> grow (EmptyTree k) = Some (EmptyTree (S k)).
Proof.
  intros Hk. destruct k as [|l]; [lia|].
  destruct (grow_rep (EmptyTree (S l)) l (fun _ _ => false) 0 0 ltac:(lia)
              (EmptyTree_rep (S l) _ 0 0 ltac:(lia) (fun _ _ _ _ => eq_refl))) as (g & Eg & Rg).
  rewrite Eg. f_equal.
  apply (rep_unique (S (S l)) g (EmptyTree (S (S l))) (fun _ _ => false) (0 - 2 ^ Z.of_nat l) (0 - 2 ^ Z.of_nat l)).
  - apply (rep_ext _ _ _ _ _ _ _ _ Rg). intros. apply clip_false.
  - destruct (EmptyTree_props (S (S l)) ltac:(lia)) as (W2 & L2 & G2).
    split; [exact W2|]. split; [exact L2|]. intros i j _ _. apply G2.
Qed.

Lemma fold_grow_EmptyTree (n : nat) : forall (j k : nat),
  (1 <= k)%nat -> (k + n <= 63)%nat ->
  fold_left (fun acc (_ : nat) => t ← acc; grow t) (seq j n) (Some (EmptyTree k)) = Some (EmptyTree (k + n)).
Proof.
  induction n as [|n IH]; intros j k Hk Hn; [rewrite Nat.add_0_r; reflexivity|].
  cbn [seq fold_left]. cbn [mbind option_bind]. rewrite grow_EmptyTree by lia.
  rewrite IH by lia. do 2 f_equal. lia.
Qed.

Lemma Bit_nonneg (r i : Z) : 0 <= i -> Bit r i = Some (Z.b2z (Z.testbit r i)).
Proof. intros H. unfold Bit. rewrite (proj2 (Z.ltb_ge i 0)) by exact H. reflexivity. Qed.

Lemma b2z_neq0 (b : bool) : negb (Z.b2z b =? 0) = b.
Proof. destruct b; reflexivity. Qed.

(** [assertRandomPattern] holds when every cell of the square reads the
    bit at its position. *)
Lemma assert_fold (qt : Quadtree) (r e h : Z) (L : list (Z * Z)) : forall ok,
  (forall p, In p L ->
     0 <= wrap64 (wrap64 (p.1 * e) + p.2) /\
     Cell qt (wrap64 (p.1 - h)) (wrap64 (p.2 - h)) =
       Some (Z.b2z (Z.testbit r (wrap64 (wrap64 (p.1 * e) + p.2))))) ->
  fold_left (fun acc xy =>
      ok ← acc;
      let bitPosition := wrap64 (wrap64 (xy.1 * e) + xy.2) in
      let ux := wrap64 (xy.1 - h) in
      let uy := wrap64 (xy.2 - h) in
      b ← Bit r bitPosition;
      c ← Cell qt ux uy;
      Some (ok && (b =? c mod 2 ^ 64))) L (Some ok) = Some ok.
Proof.
  induction L as [|a L IH]; intros ok H; [reflexivity|].
  cbn [fold_left]. destruct (H a (or_introl eq_refl)) as [P C]. cbv zeta.
  cbn [mbind option_bind]. rewrite Bit_nonneg by exact P. cbn [mbind option_bind].
  rewrite C. cbn [mbind option_bind].
  replace (Z.b2z _ mod 2 ^ 64) with (Z.b2z (Z.testbit r (wrap64 (wrap64 (a.1 * e) + a.2))))
    by (symmetry; apply Z.mod_small; pose proof (b2z_bounds (Z.testbit r (wrap64 (wrap64 (a.1 * e) + a.2)))); lia).
  rewrite Z.eqb_refl, andb_true_r. apply IH. intros p Hp. apply H. right. exact Hp.
Qed.

(** [treeWithRandomPattern] and [assertRandomPattern], as
    [TestRandomPattern] runs them: the tree has the requested level,
    passes [treeCorrectness], and cell [(x, y)] is the bit
    [(x + 2^(l-1)) * 2^l + (y + 2^(l-1))] of the random number. *)
Lemma treeWithRandomPattern_spec (level : nat) (r : Z) :
  (1 <= level <= 31)%nat ->
  exists qt, treeWithRandomPattern level r = Some qt /\ wf qt /\ Level qt = level /\
    treeCorrectness qt = true /\ assertRandomPattern qt r = Some true /\
    forall x y, in_box level x y ->
      Cell qt x y = Some (Z.b2z (Z.testbit r
        ((x + 2 ^ (Z.of_nat level - 1)) * 2 ^ Z.of_nat level + (y + 2 ^ (Z.of_nat level - 1))))).
Proof.
  intros Hl. destruct level as [|l]; [lia|].
  set (e := shl1 (N.of_nat (S l))).
  assert (Ee : e = 2 * 2 ^ Z.of_nat l) by (unfold e; rewrite shl1_small by lia; apply pow_S).
  replace (Z.of_nat (S l) - 1) with (Z.of_nat l) by lia. rewrite pow_S.
  pose proof (pow_pos_nat l) as Pl.
  assert (Bl : 2 ^ Z.of_nat l <= 2 ^ 30) by (apply Z.pow_le_mono_r; lia).
  assert (Eh : Z.quot e 2 = 2 ^ Z.of_nat l) by (rewrite Ee, Z.mul_comm, Z.quot_mul; lia).
  set (f := fun p : Z * Z => (wrap64 (p.1 - Z.quot e 2), wrap64 (p.2 - Z.quot e 2))).
  set (pos := fun p : Z * Z => wrap64 (wrap64 (p.1 * e) + p.2)).
  assert (Hpos : forall p, In p (grid e) -> pos p = p.1 * e + p.2 /\ 0 <= pos p).
  { intros [x y] Hp. apply in_grid in Hp. unfold pos; simpl.
    assert (x * e <= 2 ^ 62) by (rewrite Ee; nia).
    rewrite (wrap64_id (x * e)) by (unfold int64; nia). rewrite wrap64_id by (unfold int64; nia). nia. }
  assert (Hf : forall p, In p (grid e) -> f p = (p.1 - 2 ^ Z.of_nat l, p.2 - 2 ^ Z.of_nat l)).
  { intros [x y] Hp. apply in_grid in Hp. unfold f; simpl. rewrite Eh, !wrap64_id by (unfold int64; lia).
    reflexivity. }
  destruct (EmptyTree_cells (S l) ltac:(lia)) as (W0 & L0 & _ & C0).
  destruct (fold_writes f (fun p => if Z.testbit r (pos p) then Some 1 else None)
              (fun acc xy => t ← acc;
                 let bitPosition := wrap64 (wrap64 (xy.1 * e) + xy.2) in
                 let ux := wrap64 (xy.1 - Z.quot e 2) in
                 let uy := wrap64 (xy.2 - Z.quot e 2) in
                 b ← Bit r bitPosition;
                 if negb (b =? 0) then SetCell t ux uy 1 else Some t)
              (grid e)) with (t := EmptyTree (S l)) as (qt & Eqt & Wq & Lq & Cin & Cout).
  - intros t p Hp. cbn [mbind option_bind]. cbv zeta.
    rewrite Bit_nonneg by exact (proj2 (Hpos p Hp)). cbn [mbind option_bind]. rewrite b2z_neq0.
    fold (pos p). destruct (Z.testbit r (pos p)); reflexivity.
  - exact W0.
  - rewrite L0. lia.
  - intros p Hp. rewrite L0, Hf by exact Hp. destruct p as [x y]. apply in_grid in Hp. simpl.
    apply in_box_S. unfold int64. rewrite Ee in Hp. lia.
  - apply NoDup_ListNoDup, NoDup_map_NoDup_ForallPairs; [|apply NoDup_ListNoDup, NoDup_grid].
    intros p q Hp Hq E. rewrite (Hf p Hp), (Hf q Hq) in E. destruct p, q. simpl in E.
    injection E as E1 E2. f_equal; lia.
  - rewrite L0 in Lq.
    assert (Cq : forall p, In p (grid e) -> Cell qt (f p).1 (f p).2 = Some (Z.b2z (Z.testbit r (pos p)))).
    { intros p Hp. rewrite (Cin p Hp). destruct (Z.testbit r (pos p)); [reflexivity|].
      apply C0. rewrite Hf by exact Hp. destruct p as [x y]. apply in_grid in Hp. simpl.
      apply in_box_S. unfold int64. rewrite Ee in Hp. lia. }
    exists qt. split.
    { unfold treeWithRandomPattern. replace (S l - 1)%nat with l by lia.
      rewrite (fold_grow_EmptyTree l 1 1) by lia. exact Eqt. }
    split; [exact Wq|]. split; [exact Lq|].
    split; [apply treeCorrectness_wf; [exact Wq | rewrite Lq; lia]|].
    split.
    + unfold assertRandomPattern. rewrite Lq. fold e. apply assert_fold.
      intros p Hp. split; [exact (proj2 (Hpos p Hp))|]. exact (Cq p Hp).
    + intros x y B. apply in_box_S in B as (Ix & Iy & Bx & By).
      assert (Hp : In (x + 2 ^ Z.of_nat l, y + 2 ^ Z.of_nat l) (grid e)) by (apply in_grid; lia).
      pose proof (Cq _ Hp) as C. rewrite Hf in C by exact Hp. simpl in C.
      rewrite !Z.add_simpl_r in C. rewrite C. f_equal. f_equal. f_equal.
      rewrite (proj1 (Hpos _ Hp)). simpl. rewrite Ee. ring.
Qed.

(** [FillTreeWithRandomPattern] on a square [[start, end)] of the box:
    cell [(x, y)] of the square reads bit
    [(x - start) * (end - start) + (y - start)] of the random number, the
    cells outside the square keep their values. *)
Lemma FillTreeWithRandomPattern_spec (qt : Quadtree) (start end_ r : Z) :
  wf qt -> (1 <= Level qt <= 64)%nat -> start < end_ -> end_ - start <= 2 ^ 31 ->
  in_box (Level qt) start start -> in_box (Level qt) (end_ - 1) (end_ - 1) ->
  exists t', FillTreeWithRandomPattern qt start end_ r = Some t' /\ wf t' /\ Level t' = Level qt /\
    forall x y, in_box (Level qt) x y ->
      Cell t' x y = if (start <=? x) && (x <? end_) && (start <=? y) && (y <? end_)
                    then Some (Z.b2z (Z.testbit r ((x - start) * (end_ - start) + (y - start))))
                    else Cell qt x y.
Proof.
  intros W HL Hlt He Bs Be.
  destruct (Level qt) as [|l] eqn:Lq; [lia|].
  apply in_box_S in Bs as (Is & _ & Bs & _). apply in_box_S in Be as (Ie & _ & Be & _).
  pose proof (pow_pos_nat l) as Pl.
  assert (Ee : wrap64 (end_ - start) = end_ - start) by (apply wrap64_id; unfold int64 in *; lia).
  set (e := end_ - start) in *.
  set (f := fun p : Z * Z => (wrap64 (p.1 + start), wrap64 (p.2 + start))).
  set (pos := fun p : Z * Z => wrap64 (wrap64 (p.1 * e) + p.2)).
  assert (Hpos : forall p, In p (grid e) -> pos p = p.1 * e + p.2 /\ 0 <= pos p).
  { intros [x y] Hp. apply in_grid in Hp. unfold pos; simpl.
    assert (x * e <= 2 ^ 62) by nia.
    rewrite (wrap64_id (x * e)) by (unfold int64; nia). rewrite wrap64_id by (unfold int64; nia). nia. }
  assert (Hf : forall p, In p (grid e) -> f p = (p.1 + start, p.2 + start)).
  { intros [x y] Hp. apply in_grid in Hp. unfold f; simpl. rewrite !wrap64_id by (unfold int64 in *; lia).
    reflexivity. }
  assert (Hbox : forall p, In p (grid e) -> in_box (S l) (f p).1 (f p).2).
  { intros p Hp. rewrite Hf by exact Hp. destruct p as [x y]. apply in_grid in Hp. simpl.
    apply in_box_S. unfold int64 in *. lia. }
  destruct (fold_writes f (fun p => Some (Z.b2z (Z.testbit r (pos p))))
              (fun acc xy => t ← acc;
                 let bitPosition := wrap64 (wrap64 (xy.1 * e) + xy.2) in
                 let ux := wrap64 (xy.1 + start) in
                 let uy := wrap64 (xy.2 + start) in
                 b ← Bit r bitPosition;
                 if negb (b =? 0) then SetCell t ux uy 1 else SetCell t ux uy 0)
              (grid e)) with (t := qt) as (t' & Et & Wt & Lt & Cin & Cout).
  - intros t p Hp. cbn [mbind option_bind]. cbv zeta.
    rewrite Bit_nonneg by exact (proj2 (Hpos p Hp)). cbn [mbind option_bind]. rewrite b2z_neq0.
    fold (pos p). destruct (Z.testbit r (pos p)); reflexivity.
  - exact W.
  - rewrite Lq. lia.
  - rewrite Lq. exact Hbox.
  - apply NoDup_ListNoDup, NoDup_map_NoDup_ForallPairs; [|apply NoDup_ListNoDup, NoDup_grid].
    intros p q Hp Hq E. rewrite (Hf p Hp), (Hf q Hq) in E. destruct p, q. simpl in E.
    injection E as E1 E2. f_equal; lia.
  - exists t'. split.
    { unfold FillTreeWithRandomPattern. change (end_ - start) with e. rewrite Ee. exact Et. }
    split; [exact Wt|]. split; [congruence|].
    intros x y B. rewrite Lq in Cout.
    destruct (Z.leb_spec start x), (Z.ltb_spec x end_), (Z.leb_spec start y), (Z.ltb_spec y end_);
      simpl andb; cbv iota;
      try (apply Cout; [exact B|]; intros [a b] Hp E; rewrite (Hf _ Hp) in E; apply in_grid in Hp;
           simpl in E; injection E as E1 E2; lia).
    assert (Hp : In (x - start, y - start) (grid e)) by (apply in_grid; lia).
    pose proof (Cin _ Hp) as C. rewrite (Hf _ Hp) in C. simpl in C. rewrite !Z.sub_add in C.
    rewrite C. rewrite (proj1 (Hpos _ Hp)). simpl.
    destruct (Z.testbit r ((x - start) * e + (y - start))); reflexivity.
Qed.

Lemma FillTreeWithRandomPattern_leaf (qt : Quadtree) (start end_ r : Z) :
  wf qt -> Level qt = 0%nat ->
  in_box 0 start start -> in_box 0 (end_ - 1) (end_ - 1) ->
  exists t', FillTreeWithRandomPattern qt start end_ r = Some t' /\ wf t' /\ Level t' = 0%nat /\
    forall x y, in_box 0 x y ->
      Cell t' x y = if (start <=? x) && (x <? end_) && (start <=? y) && (y <? end_)
                    then Some (Z.b2z (Z.testbit r ((x - start) * (end_ - start) + (y - start))))
                    else Cell qt x y.
Proof.
  intros W L Bs Be.
  destruct qt as [b|l p se sw nw ne]; [|simpl in L; destruct W as (-> & _); discriminate].
  unfold in_box in Bs, Be. simpl in Bs, Be.
  destruct Bs as (_ & _ & -> & _). destruct Be as (_ & _ & Ee & _).
  assert (E1 : end_ = 1) by lia. subst end_.
  exists (Leaf (Z.testbit r 0)).
  split.
  - unfold FillTreeWithRandomPattern. replace (wrap64 (1 - 0)) with 1 by reflexivity.
    simpl. destruct (Z.odd r); reflexivity.
  - split; [exact I|]. split; [reflexivity|].
    intros x y B. unfold in_box in B. simpl in B. destruct B as (_ & _ & -> & ->).
    simpl. destruct (Z.odd r); reflexivity.
Qed.

End TreeOpsFacts.

Module HeapStatsFacts.
Import Heap HeapStats HeapInvariant TreeFacts.

Lemma fold_count_dom (s : state) (l : list (Childs * ptr)) : forall b0,
  (forall e, In e l -> exists n, heap s !! e.2 = Some n /\ Z.of_nat (Level n) < 2 ^ 63) ->
  exists b, fold_left (count_level s) l (Some b0) = Some b /\
    dom b = dom b0 ∪ list_to_set (omap (entry_level s) l).
Proof.
  induction l as [|e l IH]; intros b0 H.
  - exists b0. split; [reflexivity|]. simpl. set_solver.
  - destruct (H e (or_introl eq_refl)) as (n & En & Ln).
    cbn [fold_left]. unfold count_level at 2. rewrite En. cbn [mbind option_bind].
    rewrite (wrap64_id (Z.of_nat (Level n))) by (unfold int64; lia).
    destruct (IH (<[Z.of_nat (Level n) := ((default 0%N (b0 !! Z.of_nat (Level n))) + 1) mod 2 ^ 64]> b0)%N)
      as (b & Eb & Db); [intros e' He'; apply H; right; exact He'|].
    exists b. split; [exact Eb|]. rewrite Db, dom_insert_L.
    assert (Ee : entry_level s e = Some (Z.of_nat (Level n))) by (unfold entry_level; rewrite En; reflexivity).
    simpl omap. rewrite Ee. simpl list_to_set. set_solver.
Qed.

Lemma sortedKeys_length (b : buckets) : length (sortedKeys b) = size (dom b).
Proof.
  unfold sortedKeys. rewrite (Permutation_length (merge_sort_Permutation Z.le _)).
  rewrite length_map, length_map_to_list. symmetry. apply size_dom.
Qed.

(** [n] distinct positive integers include one that is at least [n]. *)
Lemma distinct_positive_large (L : list Z) :
  NoDup L -> L <> [] -> (forall x, In x L -> 1 <= x) ->
  exists m, In m L /\ Z.of_nat (length L) <= m.
Proof.
  intros D Ne Pos.
  destruct (decide (Exists (fun x => Z.of_nat (length L) <= x) L)) as [Ex|Nex].
  - apply Exists_exists in Ex as (m & Hm & Hle). apply list_elem_of_In in Hm. eauto.
  - exfalso.
    assert (Inc : incl L (map Z.of_nat (seq 1 (length L - 1)))).
    { intros x Hx. apply in_map_iff. exists (Z.to_nat x).
      assert (x < Z.of_nat (length L)).
      { destruct (Z.lt_ge_cases x (Z.of_nat (length L))) as [?|Hge]; [assumption|].
        exfalso. apply Nex. apply Exists_exists. exists x. split; [apply list_elem_of_In; exact Hx | exact Hge]. }
      specialize (Pos x Hx). split; [lia|]. apply in_seq. lia. }
    pose proof (NoDup_incl_length (proj1 (NoDup_ListNoDup L) D) Inc) as Len.
    rewrite length_map, length_seq in Len. destruct L; [contradiction|]. simpl in Len. lia.
Qed.

Lemma cached_levels_elem (s : state) (m : Z) :
  m ∈ cached_levels s <->
  exists ch p n, nodeMap s !! ch = Some p /\ heap s !! p = Some n /\ m = Z.of_nat (Level n).
Proof.
  unfold cached_levels. rewrite elem_of_list_to_set, list_elem_of_omap. split.
  - intros ([ch p] & He & Ee). apply elem_of_map_to_list in He. unfold entry_level in Ee. simpl in Ee.
    destruct (heap s !! p) as [n|] eqn:En; [|discriminate]. injection Ee as <-. exists ch, p, n. auto.
  - intros (ch & p & n & Ep & En & ->). exists (ch, p). split; [apply elem_of_map_to_list; exact Ep|].
    unfold entry_level. simpl. rewrite En. reflexivity.
Qed.

(** The bucket lines of [Stats]: their keys are the indices [0 .. n-1]
    of the sorted key slice, [n] the number of distinct cached levels;
    the first line is [0 0] (no leaf is cached), and a cached level is
    never printed. *)
Lemma Stats_buckets_spec (s : state) :
  (forall ch p, nodeMap s !! ch = Some p -> exists n, heap s !! p = Some n /\ Level n <> 0%nat) ->
  (forall ch p n, nodeMap s !! ch = Some p -> heap s !! p = Some n -> Z.of_nat (Level n) < 2 ^ 63) ->
  exists lines, Stats_buckets s = Some lines /\
    map fst lines = map Z.of_nat (seq 0 (size (cached_levels s))) /\
    (nodeMap s <> ∅ -> head lines = Some (0, 0%N) /\
       exists m, m ∈ cached_levels s /\ ~ In m (map fst lines)).
Proof.
  intros I Hlt.
  destruct (fold_count_dom s (map_to_list (nodeMap s)) ∅) as (b & Eb & Db).
  { intros [ch p] He. apply list_elem_of_In, elem_of_map_to_list in He.
    destruct (I ch p He) as (n & En & _). exists n. split; [exact En|].
    exact (Hlt ch p n He En). }
  rewrite dom_empty_L, union_empty_l_L in Db. fold (cached_levels s) in Db.
  unfold Stats_buckets, levelBuckets. rewrite Eb. cbn [mbind option_bind].
  rewrite sortedKeys_length, Db.
  eexists; split; [reflexivity|]. rewrite map_map. cbn [fst]. split; [reflexivity|].
  intros Hne.
  assert (Pos : forall m, m ∈ cached_levels s -> 1 <= m).
  { intros m Hm. apply cached_levels_elem in Hm as (ch & p & n & Ep & En & ->).
    destruct (I ch p Ep) as (n' & En' & L0). rewrite En in En'. injection En' as <-. lia. }
  assert (Nz : cached_levels s <> ∅).
  { intros E. apply Hne. apply map_empty. intros ch. destruct (nodeMap s !! ch) as [p|] eqn:Ep; [|reflexivity].
    exfalso. destruct (I ch p Ep) as (n & En & _).
    assert (Hm : Z.of_nat (Level n) ∈ cached_levels s) by (apply cached_levels_elem; exists ch, p, n; auto).
    rewrite E in Hm. set_solver. }
  split.
  - destruct (size (cached_levels s)) eqn:Sz; [exfalso; apply Nz, leibniz_equiv, size_empty_inv; exact Sz|].
    simpl. change (Z.of_nat 0) with 0.
    assert (N0 : b !! 0 = None).
    { apply not_elem_of_dom. rewrite Db. intros H0. specialize (Pos 0 H0). lia. }
    rewrite N0. reflexivity.
  - destruct (distinct_positive_large (elements (cached_levels s))) as (m & Hm & Hle).
    + first [apply NoDup_elements | apply (proj1 (NoDup_ListNoDup _)); apply NoDup_elements | apply (proj2 (NoDup_ListNoDup _)); apply NoDup_elements].
    + intros E. apply Nz, leibniz_equiv, elements_empty_iff. exact E.
    + intros x Hx. apply Pos. apply elem_of_elements, list_elem_of_In. exact Hx.
    + exists m. split; [apply elem_of_elements, list_elem_of_In; exact Hm|].
      change (length (elements (cached_levels s))) with (size (cached_levels s)) in Hle.
      intros Hin. apply in_map_iff in Hin as (k & <- & Hk). apply in_seq in Hk. lia.
Qed.

End HeapStatsFacts.

(** ** Further properties of the tree operations *)

Module TreeExtras.
Import Tree TreeOps TreeFacts TreeOpsFacts.

(** [FindLifeCells] called from the corner of the root box, as the test
    does ([-(1 << (qt.Level - 1))] on both axes), reports each live cell of
    the tree once and nothing else: the reported pairs have no duplicates,
    their number is the tree's [Population], and [(x, y)] is reported iff
    it lies in the box and [Cell] reads 1 there. *)
Theorem FindLifeCells_live_cells (t : Quadtree) (l : nat) :
  wf t -> Level t = S l -> (S l <= 31)%nat ->
  NoDup (FindLifeCells t (- 2 ^ Z.of_nat l) (- 2 ^ Z.of_nat l)) /\
  Z.of_nat (length (FindLifeCells t (- 2 ^ Z.of_nat l) (- 2 ^ Z.of_nat l))) = Population t /\
  forall x y, In (x, y) (FindLifeCells t (- 2 ^ Z.of_nat l) (- 2 ^ Z.of_nat l)) <->
    in_box (S l) x y /\ Cell t x y = Some 1.
Proof. apply FindLifeCells_root. Qed.

Lemma FindLifeCells_live_cells_witness :
  wf Examples.blinker /\ Level Examples.blinker = 3%nat /\ (3 <= 31)%nat /\
  NoDup (FindLifeCells Examples.blinker (- 2 ^ Z.of_nat 2) (- 2 ^ Z.of_nat 2)) /\
  Z.of_nat (length (FindLifeCells Examples.blinker (- 2 ^ Z.of_nat 2) (- 2 ^ Z.of_nat 2))) =
    Population Examples.blinker /\
  forall x y, In (x, y) (FindLifeCells Examples.blinker (- 2 ^ Z.of_nat 2) (- 2 ^ Z.of_nat 2)) <->
    in_box 3 x y /\ Cell Examples.blinker x y = Some 1.
Proof.
  pose proof blinker_wf as W.
  assert (L : Level Examples.blinker = 3%nat) by reflexivity.
  split; [exact W|]. split; [exact L|]. split; [lia|].
  exact (FindLifeCells_live_cells Examples.blinker 2 W L ltac:(lia)).
Defined.

(** [FindLifeCells] from any origin [(x0, y0)] whose box stays within
    [+-2^62]: no pair twice, as many pairs as the [Population], and the
    pairs are exactly the origin-shifted positions of the live cells. *)
Theorem FindLifeCells_any_origin (t : Quadtree) (x0 y0 : Z) :
  wf t -> (Level t <= 31)%nat ->
  - 2 ^ 62 <= x0 -> x0 + 2 ^ Z.of_nat (Level t) <= 2 ^ 62 ->
  - 2 ^ 62 <= y0 -> y0 + 2 ^ Z.of_nat (Level t) <= 2 ^ 62 ->
  NoDup (FindLifeCells t x0 y0) /\
  Z.of_nat (length (FindLifeCells t x0 y0)) = Population t /\
  forall x y, In (x, y) (FindLifeCells t x0 y0) <->
    0 <= x - x0 < 2 ^ Z.of_nat (Level t) /\ 0 <= y - y0 < 2 ^ Z.of_nat (Level t) /\
    get t (x - x0) (y - y0) = true.
Proof. intros W L H1 H2 H3 H4. exact (FindLifeCells_spec t W L x0 y0 H1 H2 H3 H4). Qed.

Lemma FindLifeCells_any_origin_witness :
  wf Examples.blinker /\ (Level Examples.blinker <= 31)%nat /\
  NoDup (FindLifeCells Examples.blinker 100 (-7)) /\
  Z.of_nat (length (FindLifeCells Examples.blinker 100 (-7))) = Population Examples.blinker /\
  forall x y, In (x, y) (FindLifeCells Examples.blinker 100 (-7)) <->
    0 <= x - 100 < 2 ^ Z.of_nat (Level Examples.blinker) /\
    0 <= y - (-7) < 2 ^ Z.of_nat (Level Examples.blinker) /\
    get Examples.blinker (x - 100) (y - (-7)) = true.
Proof.
  pose proof blinker_wf as W.
  assert (L : (Level Examples.blinker <= 31)%nat) by (vm_compute; lia).
  split; [exact W|]. split; [exact L|].
  apply (FindLifeCells_any_origin Examples.blinker 100 (-7) W L); vm_compute; discriminate.
Defined.

(** [SetCell] keeps the [Population] up to date: after writing [v] at
    [(x, y)], it has lost the old cell value and gained 1 if [v] is
    nonzero. *)
Theorem SetCell_Population_update (t t' : Quadtree) (x y v : Z) :
  wf t -> (Level t <= 31)%nat -> SetCell t x y v = Some t' ->
  exists c, Cell t x y = Some c /\
    Population t' = Population t - c + (if v =? 0 then 0 else 1).
Proof. intros W L E. exact (SetCell_Population t x y v t' W L E). Qed.

Lemma SetCell_Population_update_witness :
  exists t', wf Examples.blinker /\ (Level Examples.blinker <= 31)%nat /\
    SetCell Examples.blinker 0 1 5 = Some t' /\
    exists c, Cell Examples.blinker 0 1 = Some c /\
      Population t' = Population Examples.blinker - c + (if 5 =? 0 then 0 else 1).
Proof.
  pose proof blinker_wf as W.
  assert (L : (Level Examples.blinker <= 31)%nat) by (vm_compute; lia).
  destruct (SetCell Examples.blinker 0 1 5) as [t'|] eqn:E; [|vm_compute in E; discriminate].
  exists t'. split; [exact W|]. split; [exact L|]. split; [reflexivity|].
  exact (SetCell_Population_update Examples.blinker t' 0 1 5 W L E).
Defined.

(** [Cell] and [SetCell] panic exactly on the coordinates their
    [findLeaf] walk refuses: for [Dim] (int64) coordinates on a tree of
    level at most 64, both fail iff [x] or [y] lies outside the range
    accepted at that level. *)
Theorem Cell_SetCell_panic_iff (t : Quadtree) (x y v : Z) :
  wf t -> (Level t <= 64)%nat -> int64 x -> int64 y ->
  (Cell t x y = None <-> ~ (fits (Level t) x /\ fits (Level t) y)) /\
  (SetCell t x y v = None <-> ~ (fits (Level t) x /\ fits (Level t) y)).
Proof.
  intros W L Hx Hy.
  assert (K : findLeaf t x y = None <-> ~ (fits (Level t) x /\ fits (Level t) y)).
  { split.
    - intros E [Fx Fy]. destruct (findLeaf_in t x y W L Fx Fy) as [b Eb]. congruence.
    - apply findLeaf_out; assumption. }
  split.
  - rewrite <- K. unfold Cell. destruct (findLeaf t x y); split; congruence.
  - rewrite SetCell_None_iff. exact K.
Qed.

Lemma Cell_SetCell_panic_iff_witness :
  wf Examples.blinker /\ (Level Examples.blinker <= 64)%nat /\ int64 4 /\ int64 0 /\
  (Cell Examples.blinker 4 0 = None <->
     ~ (fits (Level Examples.blinker) 4 /\ fits (Level Examples.blinker) 0)) /\
  (SetCell Examples.blinker 4 0 1 = None <->
     ~ (fits (Level Examples.blinker) 4 /\ fits (Level Examples.blinker) 0)).
Proof.
  pose proof blinker_wf as W.
  assert (L : (Level Examples.blinker <= 64)%nat) by (vm_compute; lia).
  assert (I4 : int64 4) by (unfold int64; lia).
  assert (I0 : int64 0) by (unfold int64; lia).
  split; [exact W|]. split; [exact L|]. split; [exact I4|]. split; [exact I0|].
  exact (Cell_SetCell_panic_iff Examples.blinker 4 0 1 W L I4 I0).
Defined.

(** [grow] of a well-formed tree of level [l + 1 <= 62] succeeds with a
    well-formed tree one level up and the same [Population]; it keeps
    every cell of the old box and adds only dead cells around it. *)
Theorem grow_keeps_cells (t : Quadtree) (l : nat) :
  wf t -> Level t = S l -> (S l <= 62)%nat ->
  exists g, grow t = Some g /\ wf g /\ Level g = S (S l) /\ Population g = Population t /\
    forall x y, in_box (S (S l)) x y ->
      Cell g x y = if bool_decide (in_box (S l) x y) then Cell t x y else Some 0.
Proof. apply grow_value_spec. Qed.

Lemma grow_keeps_cells_witness :
  wf Examples.blinker /\ Level Examples.blinker = 3%nat /\ (3 <= 62)%nat /\
  exists g, grow Examples.blinker = Some g /\ wf g /\ Level g = 4%nat /\
    Population g = Population Examples.blinker /\
    forall x y, in_box 4 x y ->
      Cell g x y = if bool_decide (in_box 3 x y) then Cell Examples.blinker x y else Some 0.
Proof.
  pose proof blinker_wf as W.
  assert (L : Level Examples.blinker = 3%nat) by reflexivity.
  split; [exact W|]. split; [exact L|]. split; [lia|].
  exact (grow_keeps_cells Examples.blinker 2 W L ltac:(lia)).
Defined.

(** Well-formed trees are canonical values: two well-formed trees of the
    same level [l + 1 <= 64] whose [Cell]s agree on the whole box are
    equal, levels and populations included. *)
Theorem wf_tree_determined_by_cells (a b : Quadtree) (l : nat) :
  wf a -> wf b -> Level a = S l -> Level b = S l -> (S l <= 64)%nat ->
  (forall x y, in_box (S l) x y -> Cell a x y = Cell b x y) -> a = b.
Proof. apply Cell_ext. Qed.

Lemma wf_tree_determined_by_cells_witness :
  exists b, SetCell Examples.blinker 1 0 1 = Some b /\
    wf Examples.blinker /\ wf b /\ Level Examples.blinker = 3%nat /\ Level b = 3%nat /\
    (forall x y, in_box 3 x y -> Cell Examples.blinker x y = Cell b x y) /\ Examples.blinker = b.
Proof.
  pose proof blinker_wf as W.
  assert (L : Level Examples.blinker = 3%nat) by reflexivity.
  assert (B : in_box (Level Examples.blinker) 1 0) by (vm_compute; repeat split; discriminate).
  destruct (SetCell Examples.blinker 1 0 1) as [b|] eqn:Eb; [|vm_compute in Eb; discriminate].
  destruct (SetCell_cells Examples.blinker b 1 0 1 W ltac:(rewrite L; lia) B Eb)
    as (Wb & Lb & Hb).
  rewrite L in Lb, Hb.
  assert (E : forall x y, in_box 3 x y -> Cell Examples.blinker x y = Cell b x y).
  { intros x y Hin. rewrite (Hb x y Hin).
    case_bool_decide as D; [|reflexivity]. injection D as -> ->. reflexivity. }
  exists b. split; [reflexivity|]. split; [exact W|]. split; [exact Wb|]. split; [exact L|].
  split; [exact Lb|]. split; [exact E|].
  exact (wf_tree_determined_by_cells Examples.blinker b 2 W Wb L Lb ltac:(lia) E).
Defined.

(** Writing back the value a cell already holds returns the same tree. *)
Theorem SetCell_same_value (t : Quadtree) (x y c : Z) :
  wf t -> (1 <= Level t <= 64)%nat -> in_box (Level t) x y -> Cell t x y = Some c ->
  SetCell t x y c = Some t.
Proof. apply SetCell_write_same. Qed.

Lemma SetCell_same_value_witness :
  wf Examples.blinker /\ (1 <= Level Examples.blinker <= 64)%nat /\
  in_box (Level Examples.blinker) (-1) 0 /\ Cell Examples.blinker (-1) 0 = Some 1 /\
  SetCell Examples.blinker (-1) 0 1 = Some Examples.blinker.
Proof.
  pose proof blinker_wf as W.
  assert (L : (1 <= Level Examples.blinker <= 64)%nat) by (vm_compute; lia).
  assert (B : in_box (Level Examples.blinker) (-1) 0) by (vm_compute; repeat split; discriminate).
  assert (C : Cell Examples.blinker (-1) 0 = Some 1) by reflexivity.
  split; [exact W|]. split; [exact L|]. split; [exact B|]. split; [exact C|].
  exact (SetCell_same_value Examples.blinker (-1) 0 1 W L B C).
Defined.

(** Of two writes to the same cell only the last one counts. *)
Theorem SetCell_last_write_wins (t : Quadtree) (x y v w : Z) :
  wf t -> (1 <= Level t <= 64)%nat -> in_box (Level t) x y ->
  (t1 ← SetCell t x y v; SetCell t1 x y w) = SetCell t x y w.
Proof. apply SetCell_write_twice. Qed.

Lemma SetCell_last_write_wins_witness :
  wf Examples.blinker /\ (1 <= Level Examples.blinker <= 64)%nat /\
  in_box (Level Examples.blinker) 2 (-3) /\
  (t1 ← SetCell Examples.blinker 2 (-3) 1; SetCell t1 2 (-3) 0) = SetCell Examples.blinker 2 (-3) 0.
Proof.
  pose proof blinker_wf as W.
  assert (L : (1 <= Level Examples.blinker <= 64)%nat) by (vm_compute; lia).
  assert (B : in_box (Level Examples.blinker) 2 (-3)) by (vm_compute; repeat split; discriminate).
  split; [exact W|]. split; [exact L|]. split; [exact B|].
  exact (SetCell_last_write_wins Examples.blinker 2 (-3) 1 0 W L B).
Defined.

(** Writes to two different cells commute: both orders succeed and give
    the same tree. *)
Theorem SetCell_writes_commute (t : Quadtree) (x y x' y' v w : Z) :
  wf t -> (1 <= Level t <= 64)%nat -> in_box (Level t) x y -> in_box (Level t) x' y' ->
  (x, y) <> (x', y') ->
  exists r, (t1 ← SetCell t x y v; SetCell t1 x' y' w) = Some r /\
            (t2 ← SetCell t x' y' w; SetCell t2 x y v) = Some r.
Proof. apply SetCell_write_comm. Qed.

Lemma SetCell_writes_commute_witness :
  wf Examples.blinker /\ (1 <= Level Examples.blinker <= 64)%nat /\
  in_box (Level Examples.blinker) 0 0 /\ in_box (Level Examples.blinker) 3 (-4) /\
  (0, 0) <> (3, -4) /\
  exists r, (t1 ← SetCell Examples.blinker 0 0 0; SetCell t1 3 (-4) 1) = Some r /\
            (t2 ← SetCell Examples.blinker 3 (-4) 1; SetCell t2 0 0 0) = Some r.
Proof.
  pose proof blinker_wf as W.
  assert (L : (1 <= Level Examples.blinker <= 64)%nat) by (vm_compute; lia).
  assert (B1 : in_box (Level Examples.blinker) 0 0) by (vm_compute; repeat split; discriminate).
  assert (B2 : in_box (Level Examples.blinker) 3 (-4)) by (vm_compute; repeat split; discriminate).
  assert (D : (0, 0) <> (3, -4)) by discriminate.
  split; [exact W|]. split; [exact L|]. split; [exact B1|]. split; [exact B2|]. split; [exact D|].
  exact (SetCell_writes_commute Examples.blinker 0 0 3 (-4) 0 1 W L B1 B2 D).
Defined.

(** [EmptyTree k] for [k <= 63] is a well-formed tree of level [k] with
    [Population] 0, all of whose cells read 0. *)
Theorem EmptyTree_all_dead (k : nat) :
  (k <= 63)%nat ->
  wf (EmptyTree k) /\ Level (EmptyTree k) = k /\ Population (EmptyTree k) = 0 /\
  forall x y, in_box k x y -> Cell (EmptyTree k) x y = Some 0.
Proof. apply EmptyTree_cells. Qed.

Lemma EmptyTree_all_dead_witness :
  (5 <= 63)%nat /\
  wf (EmptyTree 5) /\ Level (EmptyTree 5) = 5%nat /\ Population (EmptyTree 5) = 0 /\
  forall x y, in_box 5 x y -> Cell (EmptyTree 5) x y = Some 0.
Proof. split; [lia|]. apply (EmptyTree_all_dead 5). lia. Defined.

(** The empty universe is a fixed point of [NextGen]: for
    [1 <= k <= 62], [NextGen (EmptyTree k)] is [EmptyTree k] again. *)
Theorem NextGen_EmptyTree_fixed (k : nat) :
  (1 <= k <= 62)%nat -> NextGen (EmptyTree k) = Some (EmptyTree k).
Proof. apply NextGen_EmptyTree. Qed.

Lemma NextGen_EmptyTree_fixed_witness :
  (1 <= 20 <= 62)%nat /\ NextGen (EmptyTree 20) = Some (EmptyTree 20).
Proof. split; [lia|]. apply NextGen_EmptyTree_fixed. lia. Defined.

(** The test helper [treeCorrectness] accepts every well-formed tree:
    leaves have no children and every child sits one level below its
    parent. *)
Theorem treeCorrectness_accepts_wf (t : Quadtree) :
  wf t -> (N.of_nat (Level t) < 2 ^ 64)%N -> treeCorrectness t = true.
Proof. apply treeCorrectness_wf. Qed.

Lemma treeCorrectness_accepts_wf_witness :
  wf Examples.blinker /\ (N.of_nat (Level Examples.blinker) < 2 ^ 64)%N /\
  treeCorrectness Examples.blinker = true.
Proof.
  pose proof blinker_wf as W.
  assert (L : (N.of_nat (Level Examples.blinker) < 2 ^ 64)%N) by (vm_compute; reflexivity).
  split; [exact W|]. split; [exact L|].
  exact (treeCorrectness_accepts_wf Examples.blinker W L).
Defined.

(** [String] renders every tree of level at most 10 without panicking. *)
Theorem String_renders_small (t : Quadtree) :
  (Level t <= 10)%nat -> exists r, String t = inl r.
Proof. apply String_small. Qed.

Lemma String_renders_small_witness :
  (Level Examples.blinker <= 10)%nat /\ exists r, String Examples.blinker = inl r.
Proof.
  assert (L : (Level Examples.blinker <= 10)%nat) by (vm_compute; lia).
  split; [exact L|]. exact (String_renders_small Examples.blinker L).
Defined.

(** [String] panics on every tree of level 11 or more: the indentation
    [strings.Repeat(" ", 10 - int(qt.Level))] gets a negative count. *)
Theorem String_panics_large (t : Quadtree) :
  (11 <= Level t)%nat -> Z.of_nat (Level t) <= 2 ^ 63 + 10 ->
  String t = inr "strings: negative Repeat count".
Proof. apply String_large. Qed.

Lemma String_panics_large_witness :
  (11 <= Level (EmptyTree 11))%nat /\ Z.of_nat (Level (EmptyTree 11)) <= 2 ^ 63 + 10 /\
  String (EmptyTree 11) = inr "strings: negative Repeat count".
Proof.
  assert (L1 : (11 <= Level (EmptyTree 11))%nat) by (vm_compute; lia).
  assert (L2 : Z.of_nat (Level (EmptyTree 11)) <= 2 ^ 63 + 10) by (vm_compute; discriminate).
  split; [exact L1|]. split; [exact L2|].
  exact (String_panics_large (EmptyTree 11) L1 L2).
Defined.

(** [treeWithRandomPattern level] for [1 <= level <= 31] builds a
    well-formed tree of that level that [treeCorrectness] and
    [assertRandomPattern] accept, whose cell [(x, y)] is bit
    [(x + 2^(level-1)) * 2^level + (y + 2^(level-1))] of the random
    number. *)
Theorem treeWithRandomPattern_cells (level : nat) (r : Z) :
  (1 <= level <= 31)%nat ->
  exists qt, treeWithRandomPattern level r = Some qt /\ wf qt /\ Level qt = level /\
    treeCorrectness qt = true /\ assertRandomPattern qt r = Some true /\
    forall x y, in_box level x y ->
      Cell qt x y = Some (Z.b2z (Z.testbit r
        ((x + 2 ^ (Z.of_nat level - 1)) * 2 ^ Z.of_nat level + (y + 2 ^ (Z.of_nat level - 1))))).
Proof. apply treeWithRandomPattern_spec. Qed.

Lemma treeWithRandomPattern_cells_witness :
  (1 <= 3 <= 31)%nat /\
  exists qt, treeWithRandomPattern 3 123456789 = Some qt /\ wf qt /\ Level qt = 3%nat /\
    treeCorrectness qt = true /\ assertRandomPattern qt 123456789 = Some true /\
    forall x y, in_box 3 x y ->
      Cell qt x y = Some (Z.b2z (Z.testbit 123456789
        ((x + 2 ^ (Z.of_nat 3 - 1)) * 2 ^ Z.of_nat 3 + (y + 2 ^ (Z.of_nat 3 - 1))))).
Proof. split; [lia|]. apply treeWithRandomPattern_cells. lia. Defined.

(** [FillTreeWithRandomPattern qt start end r] on a well-formed tree of
    level at most 64, for a square inside the box, writes bit
    [(x - start) * (end - start) + (y - start)] of [r] into each cell of
    [[start, end)] on both axes and leaves all other cells as they were;
    at level 0 the square is the one cell [(0, 0)]. *)
Theorem FillTreeWithRandomPattern_cells (qt : Quadtree) (start end_ r : Z) :
  wf qt -> (Level qt <= 64)%nat -> start < end_ -> end_ - start <= 2 ^ 31 ->
  in_box (Level qt) start start -> in_box (Level qt) (end_ - 1) (end_ - 1) ->
  exists t', FillTreeWithRandomPattern qt start end_ r = Some t' /\ wf t' /\ Level t' = Level qt /\
    forall x y, in_box (Level qt) x y ->
      Cell t' x y = if (start <=? x) && (x <? end_) && (start <=? y) && (y <? end_)
                    then Some (Z.b2z (Z.testbit r ((x - start) * (end_ - start) + (y - start))))
                    else Cell qt x y.
Proof.
  intros W HL Hlt He Bs Be.
  destruct (Nat.eq_dec (Level qt) 0%nat) as [L0|L0].
  - rewrite L0 in Bs, Be |- *. exact (FillTreeWithRandomPattern_leaf qt start end_ r W L0 Bs Be).
  - apply FillTreeWithRandomPattern_spec; auto; lia.
Qed.

Lemma FillTreeWithRandomPattern_cells_witness :
  wf Examples.blinker /\ (Level Examples.blinker <= 64)%nat /\ -2 < 1 /\ 1 - (-2) <= 2 ^ 31 /\
  in_box (Level Examples.blinker) (-2) (-2) /\ in_box (Level Examples.blinker) (1 - 1) (1 - 1) /\
  exists t', FillTreeWithRandomPattern Examples.blinker (-2) 1 299 = Some t' /\ wf t' /\
    Level t' = Level Examples.blinker /\
    forall x y, in_box (Level Examples.blinker) x y ->
      Cell t' x y = if (-2 <=? x) && (x <? 1) && (-2 <=? y) && (y <? 1)
                    then Some (Z.b2z (Z.testbit 299 ((x - (-2)) * (1 - (-2)) + (y - (-2)))))
                    else Cell Examples.blinker x y.
Proof.
  pose proof blinker_wf as W.
  assert (L : (Level Examples.blinker <= 64)%nat) by (vm_compute; lia).
  assert (B1 : in_box (Level Examples.blinker) (-2) (-2)) by (vm_compute; repeat split; discriminate).
  assert (B2 : in_box (Level Examples.blinker) (1 - 1) (1 - 1)) by (vm_compute; repeat split; discriminate).
  split; [exact W|]. split; [exact L|]. split; [lia|]. split; [lia|].
  split; [exact B1|]. split; [exact B2|].
  exact (FillTreeWithRandomPattern_cells Examples.blinker (-2) 1 299 W L ltac:(lia) ltac:(lia) B1 B2).
Defined.

End TreeExtras.

(** ** Further properties of [Stats] *)

Module HeapExtras.
Import Heap HeapStats HeapCalls HeapAnyCalls HeapStatsFacts.

(** In every state a program reaches by any sequence of calls (a
    discarded cache included) whose node levels are [int64] values, the
    bucket lines of [Stats] never panic and are numbered 0, 1, ..., one
    per distinct cached level: the loop ranges over the indices of the
    sorted keys, not the keys. When the cache is not empty, the first
    line is [0 0] (no cached node has level 0) and some cached level is
    missing from the printed keys. *)
Theorem Stats_prints_indices (s : state) :
  reachable_any s -> map_Forall (fun _ n => Z.of_nat (Level n) < 2 ^ 63) (heap s) ->
  exists lines, Stats_buckets s = Some lines /\
    map fst lines = map Z.of_nat (seq 0 (size (cached_levels s))) /\
    (nodeMap s <> ∅ -> head lines = Some (0, 0%N) /\
       exists m, m ∈ cached_levels s /\ ~ In m (map fst lines)).
Proof.
  intros R F. pose proof (reachable_any_WInv s R) as W. apply Stats_buckets_spec.
  - intros ch p E. destruct (winv_map s W ch p E) as (n & ne & En & _ & _ & Ln).
    exists n. split; [exact En|]. rewrite Ln. discriminate.
  - intros ch p n _ Hp. exact (F p n Hp).
Qed.

Lemma Stats_prints_indices_witness :
  let s := state_after_calls init calls_mixed in
  reachable_any s /\ map_Forall (fun _ n => Z.of_nat (Level n) < 2 ^ 63) (heap s) /\
  nodeMap s <> ∅ /\
  exists lines, Stats_buckets s = Some lines /\
    map fst lines = map Z.of_nat (seq 0 (size (cached_levels s))) /\
    (nodeMap s <> ∅ -> head lines = Some (0, 0%N) /\
       exists m, m ∈ cached_levels s /\ ~ In m (map fst lines)).
Proof.
  intros s.
  assert (R : reachable_any s).
  { apply (run_calls_reachable calls_mixed init s any_init). vm_compute. reflexivity. }
  assert (F : map_Forall (fun _ n => Z.of_nat (Level n) < 2 ^ 63) (heap s)).
  { apply (bool_decide_unpack _). vm_compute. reflexivity. }
  assert (NE : nodeMap s <> ∅) by (vm_compute; discriminate).
  split; [exact R|]. split; [exact F|]. split; [exact NE|].
  exact (Stats_prints_indices s R F).
Defined.

End HeapExtras.
